(** * Musicalia: the interaction pipeline of the avatar server

    A shallow embedding of the two Python programs of the repository,

      - [Backend (Python)/avatar_ai_server.py]  (module [Backend]) and
      - [Musicalia Locally/musicalia_ai.py]     (module [Local]),

    and of the fragment of Python's [str] and [re] they rely on
    (module-free prelude below).  Python strings are sequences of Unicode
    code points; regular expressions are interpreted by a backtracking
    matcher that enumerates the candidate matches in the order in which
    CPython's engine tries them. *)

From Stdlib Require Import Ascii String DecimalString.
From Stdlib Require Import List Arith NArith ZArith Bool Lia.
Import ListNotations.

Set Implicit Arguments.

Open Scope N_scope.

(** ** Python strings *)

Definition cp := N.
Definition str := list cp.

(** String literals of this file are UTF-8; [u] decodes them to code
    points, so that [u "á"] is the one-element string [[225]]. *)
Fixpoint utf8_decode (pending : nat) (acc : N) (bs : list N) : str :=
  match bs with
  | [] => []
  | b :: bs' =>
      match pending with
      | O =>
          if b <? 128 then b :: utf8_decode O 0 bs'
          else if b <? 224 then utf8_decode 1%nat (b - 192) bs'
          else if b <? 240 then utf8_decode 2%nat (b - 224) bs'
          else utf8_decode 3%nat (b - 240) bs'
      | S O => (acc * 64 + (b - 128)) :: utf8_decode O 0 bs'
      | S p => utf8_decode p (acc * 64 + (b - 128)) bs'
      end
  end.

Definition u (s : string) : str :=
  utf8_decode O 0 (map N_of_ascii (list_ascii_of_string s)).

Definition in_range (lo hi c : cp) : bool := (lo <=? c) && (c <=? hi).

Definition one_of (cs : list cp) (c : cp) : bool := existsb (N.eqb c) cs.

(** [str.isspace] of one character, which is also the class [\s] of [re]
    on [str] patterns and the set removed by [str.strip()]. *)
Definition is_space (c : cp) : bool :=
  in_range 9 13 c || in_range 28 32 c || one_of [133; 160; 5760] c
  || in_range 8192 8202 c || one_of [8232; 8233; 8239; 8287; 12288] c.

(** The tables of the Unicode database that the program reaches through
    [\w], [\d] and [str.lower]; they belong to the Python runtime, not to
    the repository, and are a parameter of the embedding. *)
Record UnicodeDB := {
  isalnum : cp -> bool;     (* str.isalnum of one character *)
  isdecimal : cp -> bool;   (* str.isdecimal of one character: \d *)
  lower : str -> str        (* str.lower *)
}.

(** The database restricted to Basic Latin and Latin-1 Supplement: exact
    on strings whose code points are below U+0100. *)
Definition latin1_isalnum (c : cp) : bool :=
  in_range 48 57 c || in_range 65 90 c || in_range 97 122 c
  || one_of [170; 178; 179; 181; 185; 186; 188; 189; 190] c
  || in_range 192 214 c || in_range 216 246 c || in_range 248 255 c.

Definition latin1_lower_char (c : cp) : cp :=
  if in_range 65 90 c || in_range 192 214 c || in_range 216 222 c
  then c + 32 else c.

Definition latin1 : UnicodeDB := {|
  isalnum := latin1_isalnum;
  isdecimal := in_range 48 57;
  lower := map latin1_lower_char
|}.

(** [str.strip()] *)
Fixpoint lstrip (s : str) : str :=
  match s with
  | c :: s' => if is_space c then lstrip s' else s
  | [] => []
  end.

Definition rstrip (s : str) : str := rev (lstrip (rev s)).

Definition strip (s : str) : str := rstrip (lstrip s).

(** [str.replace(old, new)] for a one-character [old]. *)
Definition replace (old : cp) (new : str) (s : str) : str :=
  flat_map (fun c => if c =? old then new else [c]) s.

(** [t.startswith(w)] and [w in t]. *)
Fixpoint starts_with (w t : str) : bool :=
  match w, t with
  | [], _ => true
  | a :: w', b :: t' => (a =? b) && starts_with w' t'
  | _ :: _, [] => false
  end.

Fixpoint occurs_in (w t : str) : bool :=
  starts_with w t
  || match t with
     | [] => false
     | _ :: t' => occurs_in w t'
     end.

(** ** The fragment of [re] used by the program *)

Inductive regex :=
| Eps                         (* the empty pattern *)
| Chr (p : cp -> bool)        (* one character of a class *)
| Star (p : cp -> bool)       (* greedy   p*  *)
| StarLazy (p : cp -> bool)   (* lazy     p*? *)
| Plus (p : cp -> bool)       (* greedy   p+  *)
| Bol                         (* ^ under re.MULTILINE *)
| WordB (w : cp -> bool)      (* \b, [w] being the class \w *)
| Behind (p : cp -> bool)     (* (?<=[...]) looking back one character *)
| Group (r : regex)           (* ( ... ), the group \1 *)
| Cat (r1 r2 : regex).

(** A pattern written as the sequence of its items. *)
Fixpoint seq (rs : list regex) : regex :=
  match rs with
  | [] => Eps
  | r :: rs' => Cat r (seq rs')
  end.

(** The items of a literal string. *)
Definition lits (s : str) : list regex := map (fun c => Chr (N.eqb c)) s.

Fixpoint span (p : cp -> bool) (t : str) : str :=
  match t with
  | c :: t' => if p c then c :: span p t' else []
  | [] => []
  end.

(** All prefixes, shortest first. *)
Fixpoint inits (t : str) : list str :=
  match t with
  | [] => [[]]
  | c :: t' => [] :: map (cons c) (inits t')
  end.

Definition last_of (m : str) (prev : option cp) : option cp :=
  match rev m with
  | c :: _ => Some c
  | [] => prev
  end.

Definition opt_test (p : cp -> bool) (o : option cp) : bool :=
  match o with
  | Some c => p c
  | None => false
  end.

Definition newline : cp := 10.

Section Matcher.

(** A candidate is the text it consumes and what group 1 captured. *)
Definition cand := (str * option str)%type.

Definition zero_width (b : bool) : list cand :=
  if b then [([], None)] else [].

(** The candidates for a match of [r] starting in front of [t], the
    character before that position being [prev]; in the order in which
    the backtracking engine reaches them. *)
Fixpoint ms (r : regex) (prev : option cp) (t : str) : list cand :=
  match r with
  | Eps => [([], None)]
  | Chr p =>
      match t with
      | c :: _ => if p c then [([c], None)] else []
      | [] => []
      end
  | Star p => map (fun m => (m, None)) (rev (inits (span p t)))
  | StarLazy p => map (fun m => (m, None)) (inits (span p t))
  | Plus p => map (fun m => (m, None)) (rev (tl (inits (span p t))))
  | Bol => zero_width (match prev with
                       | None => true
                       | Some c => c =? newline
                       end)
  | WordB w => zero_width (xorb (opt_test w prev)
                                (opt_test w (hd_error t)))
  | Behind p => zero_width (opt_test p prev)
  | Group r' => map (fun x : cand => (fst x, Some (fst x))) (ms r' prev t)
  | Cat r1 r2 =>
      flat_map
        (fun x : cand =>
           map (fun y : cand =>
                  (fst x ++ fst y,
                   match snd y with Some g => Some g | None => snd x end))
               (ms r2 (last_of (fst x) prev) (skipn (length (fst x)) t)))
        (ms r1 prev t)
  end.

(** One step of the scan that [re.sub], [re.split] and [re.findall]
    share: a character copied, or a match. *)
Inductive token :=
| Copy (c : cp)
| Hit (m : str) (g : option str).

Definition nonempty (x : cand) : bool :=
  match fst x with [] => false | _ => true end.

(** The scan goes left to right.  [skip] counts the characters still
    covered by the match just reported.  After an empty match the
    engine must advance: at the same position only a candidate that
    consumes something counts, otherwise the character is copied. *)
Fixpoint scan (r : regex) (prev : option cp) (t : str) (skip : nat)
  {struct t} : list token :=
  match t with
  | [] =>
      match skip, ms r prev [] with
      | O, (m, g) :: _ => [Hit m g]
      | _, _ => []
      end
  | c :: t' =>
      match skip with
      | S k => scan r (Some c) t' k
      | O =>
          match ms r prev t with
          | [] => Copy c :: scan r (Some c) t' O
          | ((_ :: m') as m, g) :: _ =>
              Hit m g :: scan r (Some c) t' (length m')
          | ([], g) :: alts =>
              Hit [] g ::
              match find nonempty alts with
              | Some ((_ :: m') as m, g') =>
                  Hit m g' :: scan r (Some c) t' (length m')
              | _ => Copy c :: scan r (Some c) t' O
              end
          end
      end
  end.

(** [re.sub(r, repl, t)], the replacement being a function of group 1. *)
Definition re_sub (r : regex) (repl : option str -> str) (t : str) : str :=
  flat_map (fun k => match k with
                     | Copy c => [c]
                     | Hit _ g => repl g
                     end)
           (scan r None t O).

(** [re.findall(r, t)] for a pattern without groups. *)
Definition re_findall (r : regex) (t : str) : list str :=
  flat_map (fun k => match k with
                     | Copy _ => []
                     | Hit m _ => [m]
                     end)
           (scan r None t O).

(** [re.split(r, t)] for a pattern without groups: the pieces between
    the matches.  [cur] is the piece being read, reversed. *)
Fixpoint pieces (ks : list token) (cur : str) : list str :=
  match ks with
  | [] => [rev cur]
  | Copy c :: ks' => pieces ks' (c :: cur)
  | Hit _ _ :: ks' => rev cur :: pieces ks' []
  end.

Definition re_split (r : regex) (t : str) : list str :=
  pieces (scan r None t O) [].

End Matcher.

(** The replacement templates of the program: [r"\1"] and a constant. *)
Definition group1 (g : option str) : str :=
  match g with Some s => s | None => [] end.

Definition const (s : str) (_ : option str) : str := s.

(** ** Character classes of the program's patterns *)

(** [.] without re.DOTALL: anything but a newline. *)
Definition dot (c : cp) : bool := negb (c =? newline).

(** [\w]: alphanumeric or underscore. *)
Definition is_word (db : UnicodeDB) (c : cp) : bool :=
  isalnum db c || (c =? 95).

Definition asterisk : cp := 42.
Definition underscore : cp := 95.
Definition backtick : cp := 96.

(** ** Emotion analysis (the same text in both programs) *)

Definition happy_words : list str :=
  map u ["feliz"; "content"; "alegre"; "maravilhos"; "lind"; "ador";
         "fantástic"; "important"; "conquista"; "orgulho"; "voz"; "inpira";
         "prémio"; "aplauso"; "música"; "cultura"; "fado"; "história";
         "tradição"; "amor"; "coração"; "emoção"]%string.

Definition sad_words : list str :=
  map u ["triste"; "lament"; "infeliz"; "pena"; "chorar"; "saudade";
         "faleceu"; "morreu"; "desaparec"; "perd"; "solidão"; "dor";
         "sofrer"; "desilusão"; "desapont"; "tristeza"; "luto"; "memória";
         "complicad"; "difícil"; "desgosto"; "desaparecimento"; "perda";
         "vazio"; "melancolia"]%string.

(** The three marks that end a sentence: [.], [!], [?]. *)
Definition full_stop : cp := 46.
Definition exclamation : cp := 33.
Definition question : cp := 63.
Definition is_terminal (c : cp) : bool :=
  one_of [full_stop; exclamation; question] c.

(** Truth value of a Python string or list. *)
Definition truthy {A} (l : list A) : bool :=
  match l with [] => false | _ => true end.

(** [r'(?<=[.!?])\s+'] *)
Definition sentence_boundary : regex := seq [Behind is_terminal; Plus is_space].

Definition sentence_split (text : str) : list str :=
  let text := replace question (u "? ")
                (replace exclamation (u "! ")
                   (replace full_stop (u ". ") text)) in
  let sentences := re_split sentence_boundary text in
  map strip (filter (fun s => truthy (strip s)) sentences).

Section Emotion.

Variable db : UnicodeDB.

(** [r"\b" + word + r"\w*\b"]; the stems hold letters only, so that
    each of them stands for itself in the pattern. *)
Definition stem_pattern (word : str) : regex :=
  seq ([WordB (is_word db)] ++ lits word
       ++ [Star (is_word db); WordB (is_word db)]).

(** The loop [for word in words: score += len(re.findall(...))]. *)
Definition score_of (words : list str) (text : str) : Z :=
  fold_left
    (fun score word =>
       (score + Z.of_nat (length (re_findall (stem_pattern word) text)))%Z)
    words 0%Z.

Definition happy_score (text : str) : Z := score_of happy_words (lower db text).
Definition sad_score (text : str) : Z := score_of sad_words (lower db text).

Definition detect_emotion (text : str) : Z :=
  let text := lower db text in
  let happy := score_of happy_words text in
  let sad := score_of sad_words text in
  if ((happy =? sad) && (sad =? 0))%Z then 0%Z
  else if (happy >? sad)%Z then 1%Z
  else 2%Z.

Definition analyze_text (text : str) : list (str * Z) :=
  flat_map (fun sentence =>
              if truthy sentence
              then [(sentence, detect_emotion sentence)]
              else [])
           (sentence_split text).

End Emotion.

(** ** The text sanitizer *)

(** The set of [emoji_pattern]; the local program has no U+FE0F in it. *)
Definition emoji_ranges (c : cp) : bool :=
  in_range 0x1F600 0x1F64F c     (* emoticons *)
  || in_range 0x1F300 0x1F5FF c  (* symbols & pictographs *)
  || in_range 0x1F680 0x1F6FF c  (* transport & map symbols *)
  || in_range 0x1F1E0 0x1F1FF c  (* flags (iOS) *)
  || in_range 0x2600 0x26FF c    (* miscellaneous symbols *)
  || in_range 0x2700 0x27BF c.   (* Dingbats *)

Definition variation_selector : cp := 0xFE0F.

(** The members of the set [[•▪️✔️✖️➡️★☆→←↑↓◆■]], code point by code point. *)
Definition graphic_symbols : list cp :=
  [0x2022; 0x25AA; 0xFE0F; 0x2714; 0xFE0F; 0x2716; 0xFE0F; 0x27A1; 0xFE0F;
   0x2605; 0x2606; 0x2192; 0x2190; 0x2191; 0x2193; 0x25C6; 0x25A0].

(** [[-•*]] and [[\.\)\-]] *)
Definition bullet (c : cp) : bool := one_of [45; 0x2022; asterisk] c.
Definition list_mark (c : cp) : bool := one_of [46; 41; 45] c.

Definition space : str := [32].

Section Sanitizer.

Variable db : UnicodeDB.

(** The markup patterns that both programs have, and their substitutions
    in the order of the program. *)
Definition bold : regex :=                        (* r"\*\*(.*?)\*\*" *)
  seq [Chr (N.eqb asterisk); Chr (N.eqb asterisk);
       Group (StarLazy dot);
       Chr (N.eqb asterisk); Chr (N.eqb asterisk)].

Definition italic : regex :=                      (* r"\*(.*?)\*" *)
  seq [Chr (N.eqb asterisk); Group (StarLazy dot); Chr (N.eqb asterisk)].

Definition underscores : regex :=                 (* r"_([^_]+)_" *)
  seq [Chr (N.eqb underscore);
       Group (Plus (fun c => negb (c =? underscore)));
       Chr (N.eqb underscore)].

Definition bullets : regex :=                     (* r"^\s*[-•*]+\s*" *)
  seq [Bol; Star is_space; Plus bullet; Star is_space].

Definition numbering : regex :=                   (* r"^\s*\d+[\.\)\-]+\s*" *)
  seq [Bol; Star is_space; Plus (isdecimal db); Plus list_mark;
       Star is_space].

Definition strip_bold : str -> str := re_sub bold group1.
Definition strip_italic : str -> str := re_sub italic group1.
Definition strip_underscores : str -> str := re_sub underscores group1.
Definition strip_bullets : str -> str := re_sub bullets (const []).
Definition strip_numbering : str -> str := re_sub numbering (const []).

Definition collapse_spaces (text : str) : str :=  (* r"\s+" and .strip() *)
  strip (re_sub (Plus is_space) (const space) text).

End Sanitizer.

(** ** Exceptions, state and the outside world *)

Inductive result (A : Type) :=
| Ok (a : A)
| Raise (e : string).

Arguments Ok {A} a.
Arguments Raise {A} e.

Definition bytes := list N.

(** The calls that leave the process. *)
Inductive call :=
| OpenAI_new            (* OpenAI(api_key=...) *)
| ModelsList            (* client.models.list() *)
| VectorStoresList      (* client.vector_stores.list() *)
| VectorStoresCreate    (* client.vector_stores.create(...) *)
| OpenFile              (* open("Info.pdf", "rb") *)
| UploadAndPoll         (* client.vector_stores.file_batches.upload_and_poll(...) *)
| AssistantsList        (* client.beta.assistants.list() *)
| AssistantsUpdate      (* client.beta.assistants.update(...) *)
| AssistantsCreate      (* client.beta.assistants.create(...) *)
| ThreadsCreate         (* client.beta.threads.create() *)
| Transcribe            (* client.audio.transcriptions.create(...) *)
| MessagesCreate        (* client.beta.threads.messages.create(...) *)
| RunsStream            (* client.beta.threads.runs.stream(...) ... until_done() *)
| EdgeTTS.              (* edge_tts.Communicate(text, voice).stream() *)

(** The objects the OpenAI client hands back, as far as the program reads
    them. *)
Record Client := { api_key_of : str }.
Record VectorStore := { vs_id : string; vs_name : option string }.
Record FileSearch := { vector_store_ids : option (list string) }.
Record ToolResources := { file_search : option FileSearch }.
Record Assistant := {
  a_id : string;
  a_name : option string;
  instructions : option str;
  tool_resources : option ToolResources
}.
Record Thread := { t_id : string }.

(** What the run delivers to the event handler. *)
Inductive stream_event :=
| TextCreated
| TextDelta (value : str).

(** The outcome of every outside call during one request. *)
Record Env := {
  new_client : str -> result Client;
  models_list : result unit;
  path_exists : bool;                         (* os.path.exists("Info.pdf") *)
  vector_stores_list : result (list VectorStore);
  vector_stores_create : result VectorStore;
  open_file : result unit;
  upload_and_poll : result string;            (* the status of the batch *)
  assistants_list : result (list Assistant);
  assistants_update : result unit;
  assistants_create : result Assistant;
  threads_create : result Thread;
  transcribe : bytes -> result str;           (* the .text of the answer *)
  messages_create : result unit;
  runs_stream : list stream_event * option string; (* events, then maybe an exception *)
  synthesize : str -> result bytes
}.

(** The process: its module globals and the outside calls made so far,
    each with whether it raised. *)
Record World (G : Type) := { globals : G; trace : list (call * bool) }.

Definition M (G A : Type) := World G -> result A * World G.

Section Monad.

Context {G : Type}.

Definition ret {A} (a : A) : M G A := fun w => (Ok a, w).

Definition bind {A B} (m : M G A) (k : A -> M G B) : M G B :=
  fun w => match m w with
           | (Ok a, w') => k a w'
           | (Raise e, w') => (Raise e, w')
           end.

Definition raise {A} (e : string) : M G A := fun w => (Raise e, w).

(** [try: m  except Exception as e: h e] *)
Definition try_except {A} (m : M G A) (h : string -> M G A) : M G A :=
  fun w => match m w with
           | (Ok a, w') => (Ok a, w')
           | (Raise e, w') => h e w'
           end.

Definition get : M G G := fun w => (Ok (globals w), w).

Definition modify (f : G -> G) : M G unit :=
  fun w => (Ok tt, {| globals := f (globals w); trace := trace w |}).

(** An outside call: it is recorded, and returns or raises. *)
Definition perform {A} (c : call) (outcome : result A) : M G A :=
  fun w =>
    (outcome,
     {| globals := globals w;
        trace := trace w ++ [(c, match outcome with
                                 | Ok _ => false
                                 | Raise _ => true
                                 end)] |}).

(** A computation of the program itself that returns or raises. *)
Definition lift {A} (r : result A) : M G A := fun w => (r, w).

(** Reading the attribute [name] of a value that may be [None]. *)
Definition attr {A} (o : option A) (name : string) : M G A :=
  match o with
  | Some a => ret a
  | None => raise ("'NoneType' object has no attribute '" ++ name ++ "'")
  end.

(** Iterating over a value that may be [None]. *)
Definition iterate {A} (o : option A) : M G A :=
  match o with
  | Some a => ret a
  | None => raise "'NoneType' object is not iterable"
  end.

End Monad.

Notation "x <- m ;; k" := (bind m (fun x => k))
  (at level 61, m at next level, right associativity).
Notation "m ;; k" := (bind m (fun _ => k))
  (at level 61, right associativity).

Definition is_some {A} (o : option A) : bool :=
  match o with Some _ => true | None => false end.

Fixpoint str_eqb (a b : str) : bool :=
  match a, b with
  | [], [] => true
  | x :: a', y :: b' => (x =? y) && str_eqb a' b'
  | _, _ => false
  end.

Definition has_name (n : string) (o : option string) : bool :=
  match o with
  | Some s => String.eqb s n
  | None => false
  end.

Definition vector_store_name : string := "Musicalia Fado Archive".
Definition assistant_name : string := "Musicalia".

Definition instructions_text : str :=
  u "És a Musicalia, um avatar feminino inspirado na Amália Rodrigues, a icónica cantora de Fado portuguesa.         O teu propósito é envolver o público no intervalo de um concerto de música, partilhando histórias, curiosidades e o contexto histórico do Fado, de forma rica e poética.         Fala de forma descontraída e informal, com animação e tenta ser engraçada.         Evita linguagem demasiado técnica.         Responde sempre em português de Portugal.         Apenas respondes a perguntas sobre Fado, Amália Rodrigues e a cultura portuguesa.         Se a pergunta não for sobre esses temas, diz educadamente que não podes ajudar.        Não mencionas fontes de informação nas tuas respostas, nem referências a artigos ou publicações.         Responde de forma simples, curta, sem títulos, listas, ou qualquer formatação. Evita qualquer tipo de formatação, como negritos ou itálicos ou ícones gráficos.        Não uses emojis em nenhuma das tuas respostas.         Dá respostas curtas e diretas, com no máximo 3 a 5 frases.".

(** [assistant.tool_resources and assistant.tool_resources.file_search] *)
Definition file_search_of (a : Assistant) : option FileSearch :=
  match tool_resources a with
  | Some tr => file_search tr
  | None => None
  end.

(** HTTP responses. *)
Inductive body :=
| Json (key value : string)     (* jsonify({key: value}) *)
| Audio (data : bytes)
| NoBody.

Record Response := {
  status : Z;
  mimetype : string;
  content : body;
  emotion_codes_header : option string   (* X-Musicalia-Emotion-Codes *)
}.

Definition jsonify (key value : string) (code : Z) : Response :=
  {| status := code; mimetype := "application/json";
     content := Json key value; emotion_codes_header := None |}.

(** [",".join(map(str, codes))] *)
Definition py_str (n : Z) : string := NilZero.string_of_int (Z.to_int n).

Fixpoint join_codes (codes : list Z) : string :=
  match codes with
  | [] => ""
  | [n] => py_str n
  | n :: rest => py_str n ++ "," ++ join_codes rest
  end%string.

(** ** Request bodies *)

(** A parsed JSON document as Python holds it; a dict is the list of its
    items.  Of a float only whether it is zero is kept: the program does
    no more than test it. *)
Unset Elimination Schemes.
Inductive pyvalue :=
| PyNone
| PyBool (b : bool)
| PyInt (n : Z)
| PyFloat (zero : bool)
| PyStr (s : str)
| PyList (elements : list pyvalue)
| PyDict (items : list (str * pyvalue)).
Set Elimination Schemes.

(** [type(v).__name__] *)
Definition type_name (v : pyvalue) : string :=
  match v with
  | PyNone => "NoneType"
  | PyBool _ => "bool"
  | PyInt _ => "int"
  | PyFloat _ => "float"
  | PyStr _ => "str"
  | PyList _ => "list"
  | PyDict _ => "dict"
  end.

(** [bool(v)], the test of [if not v] *)
Definition py_bool (v : pyvalue) : bool :=
  match v with
  | PyNone => false
  | PyBool b => b
  | PyInt n => negb (n =? 0)%Z
  | PyFloat zero => negb zero
  | PyStr s => truthy s
  | PyList elements => truthy elements
  | PyDict items => truthy items
  end.

(** The value that a dict holds for a key. *)
Definition lookup (key : str) (items : list (str * pyvalue))
  : option pyvalue :=
  match find (fun kv => str_eqb key (fst kv)) items with
  | Some kv => Some (snd kv)
  | None => None
  end.

(** [key in v]: a key of a dict, an element of a list, a part of a string;
    a [TypeError] for the other values. *)
Definition key_in (key : string) (v : pyvalue) : result bool :=
  match v with
  | PyDict items => Ok (is_some (lookup (u key) items))
  | PyList elements =>
      Ok (existsb (fun x => match x with
                            | PyStr s => str_eqb (u key) s
                            | _ => false
                            end) elements)
  | PyStr s => Ok (occurs_in (u key) s)
  | _ => Raise ("argument of type '" ++ type_name v ++ "' is not iterable")
  end.

(** [v[key]] for a key that is a string: the value of a dict; a
    [TypeError] for the other values. *)
Definition item (key : string) (v : pyvalue) : result pyvalue :=
  match v with
  | PyDict items =>
      match lookup (u key) items with
      | Some x => Ok x
      | None => Raise ("'" ++ key ++ "'")
      end
  | PyList _ => Raise "list indices must be integers or slices, not str"
  | PyStr _ => Raise "string indices must be integers, not 'str'"
  | _ => Raise ("'" ++ type_name v ++ "' object is not subscriptable")
  end.

(** [v.strip]: only a string has the method. *)
Definition strip_method (v : pyvalue) : result str :=
  match v with
  | PyStr s => Ok s
  | _ => Raise ("'" ++ type_name v ++ "' object has no attribute 'strip'")
  end.

(** ** Backend (Python)/avatar_ai_server.py *)

Module Backend.

Definition is_emoji (c : cp) : bool :=
  emoji_ranges c || (c =? variation_selector).

(** [[•▪️✔️✖️➡️★☆→←↑↓◆■«»“”]] *)
Definition is_symbol (c : cp) : bool :=
  one_of (graphic_symbols ++ [0xAB; 0xBB; 0x201C; 0x201D]) c.

Definition backticks : regex :=                   (* r"`(.*?)`" *)
  seq [Chr (N.eqb backtick); Group (StarLazy dot); Chr (N.eqb backtick)].

Definition strip_backticks : str -> str := re_sub backticks group1.

Definition clean_text_for_tts (db : UnicodeDB) (text : str) : str :=
  let text := strip_bold text in
  let text := strip_italic text in
  let text := strip_underscores text in
  let text := strip_backticks text in
  let text := strip_bullets text in
  let text := strip_numbering db text in
  let text := re_sub (Plus is_emoji) (const []) text in
  let text := re_sub (Chr is_symbol) (const []) text in
  let text := re_sub (Plus (N.eqb newline)) (const space) text in
  collapse_spaces text.

Record Globals := {
  client : option Client;
  vector_store : option VectorStore;
  assistant : option Assistant;
  thread : option Thread;
  full_response : str;
  ai_initialized_successfully : bool
}.

Definition set_client (v : option Client) (g : Globals) : Globals :=
  {| client := v; vector_store := vector_store g; assistant := assistant g;
     thread := thread g; full_response := full_response g;
     ai_initialized_successfully := ai_initialized_successfully g |}.

Definition set_vector_store (v : option VectorStore) (g : Globals) : Globals :=
  {| client := client g; vector_store := v; assistant := assistant g;
     thread := thread g; full_response := full_response g;
     ai_initialized_successfully := ai_initialized_successfully g |}.

Definition set_assistant (v : option Assistant) (g : Globals) : Globals :=
  {| client := client g; vector_store := vector_store g; assistant := v;
     thread := thread g; full_response := full_response g;
     ai_initialized_successfully := ai_initialized_successfully g |}.

Definition set_thread (v : option Thread) (g : Globals) : Globals :=
  {| client := client g; vector_store := vector_store g;
     assistant := assistant g; thread := v;
     full_response := full_response g;
     ai_initialized_successfully := ai_initialized_successfully g |}.

Definition set_full_response (v : str) (g : Globals) : Globals :=
  {| client := client g; vector_store := vector_store g;
     assistant := assistant g; thread := thread g; full_response := v;
     ai_initialized_successfully := ai_initialized_successfully g |}.

Definition set_ai_initialized_successfully (v : bool) (g : Globals) : Globals :=
  {| client := client g; vector_store := vector_store g;
     assistant := assistant g; thread := thread g;
     full_response := full_response g; ai_initialized_successfully := v |}.

(** The module as it is when the process starts. *)
Definition initial : Globals :=
  {| client := None; vector_store := None; assistant := None;
     thread := None; full_response := [];
     ai_initialized_successfully := false |}.

Section Server.

Variable db : UnicodeDB.
Variable env : Env.

(** The vector store part of [initialize_ai_components]. *)
Definition resolve_vector_store : M Globals unit :=
  vector_stores <- perform VectorStoresList (vector_stores_list env) ;;
  match find (fun vs => has_name vector_store_name (vs_name vs))
             vector_stores with
  | Some existing_store => modify (set_vector_store (Some existing_store))
  | None =>
      created <- perform VectorStoresCreate (vector_stores_create env) ;;
      modify (set_vector_store (Some created)) ;;
      if path_exists env
      then try_except
             (perform OpenFile (open_file env) ;;
              _ <- perform UploadAndPoll (upload_and_poll env) ;;
              ret tt)
             (fun _ => ret tt)
      else ret tt
  end.

(** The assistant part of [initialize_ai_components]. *)
Definition resolve_assistant : M Globals unit :=
  assistants <- perform AssistantsList (assistants_list env) ;;
  g <- get ;;
  let tool_resources_config :=
    match vector_store g with
    | Some vs => [vs_id vs]
    | None => []
    end in
  match find (fun a => has_name assistant_name (a_name a)) assistants with
  | Some existing_assistant =>
      modify (set_assistant (Some existing_assistant)) ;;
      current_instructions <- attr (instructions existing_assistant) "strip" ;;
      let needs_update :=
        negb (str_eqb (strip current_instructions)
                      (strip instructions_text)) in
      let current_vstore_ids :=
        match file_search_of existing_assistant with
        | Some fs => match vector_store_ids fs with
                     | Some ids => ids
                     | None => []
                     end
        | None => []
        end in
      let needs_update :=
        match vector_store g with
        | Some vs =>
            if negb (existsb (String.eqb (vs_id vs)) current_vstore_ids)
            then true
            else if negb (truthy current_vstore_ids)
                    && truthy tool_resources_config
            then true
            else needs_update
        | None =>
            if truthy current_vstore_ids then true else needs_update
        end in
      if needs_update
      then perform AssistantsUpdate (assistants_update env)
      else ret tt
  | None =>
      created <- perform AssistantsCreate (assistants_create env) ;;
      modify (set_assistant (Some created))
  end.

Definition initialize_ai_components (api_key : str) : M Globals bool :=
  if negb (truthy api_key) then ret false
  else
    try_except
      (new <- perform OpenAI_new (new_client env api_key) ;;
       modify (set_client (Some new)) ;;
       verified <-
         try_except
           (perform ModelsList (models_list env) ;; ret true)
           (fun _ => modify (set_client None) ;; ret false) ;;
       if negb verified then ret false
       else
         resolve_vector_store ;;
         resolve_assistant ;;
         new_thread <- perform ThreadsCreate (threads_create env) ;;
         modify (set_thread (Some new_thread)) ;;
         ret true)
      (fun _ =>
         modify (set_client None) ;;
         modify (set_vector_store None) ;;
         modify (set_assistant None) ;;
         modify (set_thread None) ;;
         ret false).

(** The body of [POST /initialize_ai].  [json] is what
    [request.get_json()] does with the request: it returns the parsed
    document, or raises the HTTP error that Flask then answers with (415
    when the content type is not JSON, 400 when the body does not parse).
    Nothing here is inside a [try]: what raises leaves the view. *)
Definition initialize_ai_endpoint (json : result pyvalue) : M Globals Response :=
  g <- get ;;
  if ai_initialized_successfully g && is_some (client g)
  then ret (jsonify "message" "AI components already initialized" 200)
  else
    data <- lift json ;;
    absent <- (if negb (py_bool data) then ret true
               else found <- lift (key_in "api_key" data) ;;
                    ret (negb found)) ;;
    if absent
    then ret (jsonify "error" "API key not provided" 400)
    else
      value <- lift (item "api_key" data) ;;
      api_key <- lift (strip_method value) ;;
      if negb (truthy (strip api_key))
      then ret (jsonify "error" "Empty API key received" 400)
      else
        ok <- initialize_ai_components api_key ;;
        if ok
        then modify (set_ai_initialized_successfully true) ;;
             ret (jsonify "message" "AI initialized successfully" 200)
        else modify (set_ai_initialized_successfully false) ;;
             ret (jsonify "error" "AI initialization failed on server" 500).

(** [EventHandler]: [on_text_created] clears the buffer, [on_text_delta]
    appends the chunk to it. *)
Definition on_text_created : M Globals unit :=
  modify (set_full_response []).

Definition on_text_delta (value : str) : M Globals unit :=
  modify (fun g => set_full_response (full_response g ++ value) g).

Definition on_event (ev : stream_event) : M Globals unit :=
  match ev with
  | TextCreated => on_text_created
  | TextDelta value => on_text_delta value
  end.

Fixpoint deliver (evs : list stream_event) : M Globals unit :=
  match evs with
  | [] => ret tt
  | ev :: evs' => on_event ev ;; deliver evs'
  end.

(** [with client.beta.threads.runs.stream(...) as stream: stream.until_done()] *)
Definition run_assistant : M Globals unit :=
  deliver (fst (runs_stream env)) ;;
  perform RunsStream (match snd (runs_stream env) with
                      | Some e => Raise e
                      | None => Ok tt
                      end).

Definition text_to_speech_bytes (text : str) : M Globals (option bytes) :=
  try_except
    (audio <- perform EdgeTTS (synthesize env text) ;; ret (Some audio))
    (fun _ => ret None).

Definition process_interaction_and_speak (user_transcription : str)
  : M Globals (option bytes * option (list Z)) :=
  g <- get ;;
  if negb (ai_initialized_successfully g) || negb (is_some (client g))
     || negb (is_some (assistant g)) || negb (is_some (thread g))
  then ret (None, None)
  else
    modify (set_full_response []) ;;
    try_except
      (perform MessagesCreate (messages_create env) ;;
       run_assistant ;;
       g <- get ;;
       let ai_text_to_speak :=
         clean_text_for_tts db (strip (full_response g)) in
       if truthy ai_text_to_speak
       then
         let analyzed_sentences := analyze_text db ai_text_to_speak in
         let emotion_codes_list := map snd analyzed_sentences in
         let emotion_codes_list :=
           if negb (truthy emotion_codes_list) && truthy analyzed_sentences
           then [0%Z]
           else if negb (truthy analyzed_sentences) then [0%Z]
           else emotion_codes_list in
         audio_bytes <- text_to_speech_bytes ai_text_to_speak ;;
         ret (audio_bytes, Some emotion_codes_list)
       else ret (None, Some [0%Z]))
      (fun _ => ret (None, None)).

(** The body of [POST /interact_audio]; [file] is [None] when the
    request has no part named ["file"]. *)
Definition interact_audio_endpoint (file : option bytes) : M Globals Response :=
  g <- get ;;
  if negb (ai_initialized_successfully g) || negb (is_some (client g))
  then ret (jsonify "error"
              "AI not initialized. Send API key to /initialize_ai first."
              403)
  else
    match file with
    | None => ret (jsonify "error" "No audio file provided" 400)
    | Some audio_bytes =>
        try_except
          (_ <- attr (client g) "audio" ;;
           text <- perform Transcribe (transcribe env audio_bytes) ;;
           let user_transcription := strip text in
           if negb (truthy user_transcription)
           then ret {| status := 200; mimetype := "audio/mpeg";
                       content := NoBody;
                       emotion_codes_header := Some "0"%string |}
           else
             r <- process_interaction_and_speak user_transcription ;;
             match fst r with
             | Some ai_audio_response_bytes =>
                 let codes :=
                   match snd r with
                   | Some ((_ :: _) as l) => l
                   | _ => [0%Z]
                   end in
                 ret {| status := 200; mimetype := "audio/mpeg";
                        content := Audio ai_audio_response_bytes;
                        emotion_codes_header := Some (join_codes codes) |}
             | None =>
                 ret {| status := 500; mimetype := "audio/mpeg";
                        content := NoBody;
                        emotion_codes_header := Some "0"%string |}
             end)
          (fun e => ret (jsonify "error"
                           ("Internal server error: " ++ e)%string 500))
    end.

End Server.

End Backend.

(** ** Musicalia Locally/musicalia_ai.py *)

Module Local.

(** [re.sub(r"([^]+)", r"\1", text)]: the pattern is not a regular
    expression.  The set opened by [[^] takes the bracket that follows
    as its first member and is never closed, so [re] raises [re.error]
    when it compiles the pattern, whatever the text. *)
Definition strip_code (text : str) : result str :=
  Raise "unterminated character set at position 1".

(** [[•▪️✔️✖️➡️★☆→←↑↓◆■]] *)
Definition is_symbol (c : cp) : bool := one_of graphic_symbols c.

Definition clean_text_for_tts (db : UnicodeDB) (text : str) : result str :=
  let text := strip_bold text in
  let text := strip_italic text in
  let text := strip_underscores text in
  match strip_code text with
  | Raise e => Raise e
  | Ok text =>
      let text := strip_bullets text in
      let text := strip_numbering db text in
      let text := re_sub (Plus emoji_ranges) (const []) text in
      let text := re_sub (Chr is_symbol) (const []) text in
      Ok (collapse_spaces text)
  end.

Record Globals := {
  OPENAI_API_KEY : option str;      (* os.getenv("OPENAI_API_KEY") *)
  client : option Client;
  vector_store : option VectorStore;
  assistant : option Assistant;
  thread : option Thread;
  full_response : str
}.

Definition set_client (v : option Client) (g : Globals) : Globals :=
  {| OPENAI_API_KEY := OPENAI_API_KEY g; client := v;
     vector_store := vector_store g; assistant := assistant g;
     thread := thread g; full_response := full_response g |}.

Definition set_vector_store (v : option VectorStore) (g : Globals) : Globals :=
  {| OPENAI_API_KEY := OPENAI_API_KEY g; client := client g;
     vector_store := v; assistant := assistant g;
     thread := thread g; full_response := full_response g |}.

Definition set_assistant (v : option Assistant) (g : Globals) : Globals :=
  {| OPENAI_API_KEY := OPENAI_API_KEY g; client := client g;
     vector_store := vector_store g; assistant := v;
     thread := thread g; full_response := full_response g |}.

Definition set_thread (v : option Thread) (g : Globals) : Globals :=
  {| OPENAI_API_KEY := OPENAI_API_KEY g; client := client g;
     vector_store := vector_store g; assistant := assistant g;
     thread := v; full_response := full_response g |}.

Definition set_full_response (v : str) (g : Globals) : Globals :=
  {| OPENAI_API_KEY := OPENAI_API_KEY g; client := client g;
     vector_store := vector_store g; assistant := assistant g;
     thread := thread g; full_response := v |}.

(** The module as it is when the process starts. *)
Definition initial (key : option str) : Globals :=
  {| OPENAI_API_KEY := key; client := None; vector_store := None;
     assistant := None; thread := None; full_response := [] |}.

Definition api_key_set (g : Globals) : bool :=
  match OPENAI_API_KEY g with
  | Some k => truthy k
  | None => false
  end.

Section Server.

Variable db : UnicodeDB.
Variable env : Env.

Definition resolve_vector_store : M Globals unit :=
  vector_stores <- perform VectorStoresList (vector_stores_list env) ;;
  match find (fun vs => has_name vector_store_name (vs_name vs))
             vector_stores with
  | Some existing_store => modify (set_vector_store (Some existing_store))
  | None =>
      created <- perform VectorStoresCreate (vector_stores_create env) ;;
      modify (set_vector_store (Some created)) ;;
      if path_exists env
      then perform OpenFile (open_file env) ;;
           _ <- perform UploadAndPoll (upload_and_poll env) ;;
           ret tt
      else ret tt
  end.

Definition resolve_assistant : M Globals unit :=
  assistants <- perform AssistantsList (assistants_list env) ;;
  g <- get ;;
  match find (fun a => has_name assistant_name (a_name a)) assistants with
  | Some existing_assistant =>
      modify (set_assistant (Some existing_assistant)) ;;
      current_instructions <- attr (instructions existing_assistant) "strip" ;;
      let needs_update :=
        negb (str_eqb (strip current_instructions)
                      (strip instructions_text)) in
      let current_vstore_ids :=
        match file_search_of existing_assistant with
        | Some fs => vector_store_ids fs
        | None => Some []
        end in
      let present :=
        match current_vstore_ids with
        | Some ids => truthy ids
        | None => false
        end in
      let needs_update :=
        match vector_store g with
        | Some vs =>
            if negb present
               || negb (existsb (String.eqb (vs_id vs))
                          (match current_vstore_ids with
                           | Some ids => ids
                           | None => []
                           end))
            then true
            else needs_update
        | None => if present then true else needs_update
        end in
      if needs_update
      then perform AssistantsUpdate (assistants_update env)
      else ret tt
  | None =>
      created <- perform AssistantsCreate (assistants_create env) ;;
      modify (set_assistant (Some created))
  end.

Definition initialize_ai_components : M Globals bool :=
  g <- get ;;
  match OPENAI_API_KEY g with
  | Some api_key =>
      if negb (truthy api_key) then ret false
      else
        try_except
          (new <- perform OpenAI_new (new_client env api_key) ;;
           modify (set_client (Some new)) ;;
           resolve_vector_store ;;
           resolve_assistant ;;
           new_thread <- perform ThreadsCreate (threads_create env) ;;
           modify (set_thread (Some new_thread)) ;;
           ret true)
          (fun _ => ret false)
  | None => ret false
  end.

(** [EventHandler]: [on_text_created] clears the buffer, [on_text_delta]
    appends the chunk to it. *)
Definition on_text_created : M Globals unit :=
  modify (set_full_response []).

Definition on_text_delta (value : str) : M Globals unit :=
  modify (fun g => set_full_response (full_response g ++ value) g).

Definition on_event (ev : stream_event) : M Globals unit :=
  match ev with
  | TextCreated => on_text_created
  | TextDelta value => on_text_delta value
  end.

Fixpoint deliver (evs : list stream_event) : M Globals unit :=
  match evs with
  | [] => ret tt
  | ev :: evs' => on_event ev ;; deliver evs'
  end.

Definition run_assistant : M Globals unit :=
  deliver (fst (runs_stream env)) ;;
  perform RunsStream (match snd (runs_stream env) with
                      | Some e => Raise e
                      | None => Ok tt
                      end).

Definition text_to_speech_bytes (text : str) : M Globals (option bytes) :=
  try_except
    (audio <- perform EdgeTTS (synthesize env text) ;; ret (Some audio))
    (fun _ => ret None).

Definition process_interaction_and_speak (user_transcription : str)
  : M Globals (option bytes * option (list Z)) :=
  g <- get ;;
  if negb (is_some (client g)) || negb (is_some (assistant g))
     || negb (is_some (thread g))
  then ret (None, None)
  else
    modify (set_full_response []) ;;
    try_except
      (perform MessagesCreate (messages_create env) ;;
       run_assistant ;;
       g <- get ;;
       ai_text_to_speak <-
         lift (clean_text_for_tts db (strip (full_response g))) ;;
       if truthy ai_text_to_speak
       then
         let analyzed_sentences := analyze_text db ai_text_to_speak in
         let emotion_codes_list := map snd analyzed_sentences in
         let emotion_codes_list :=
           if negb (truthy emotion_codes_list) && truthy analyzed_sentences
           then [0%Z]
           else emotion_codes_list in
         audio_bytes <- text_to_speech_bytes ai_text_to_speak ;;
         ret (audio_bytes, Some emotion_codes_list)
       else ret (None, Some []))
      (fun _ => ret (None, None)).

Definition interact_audio_endpoint (file : option bytes) : M Globals Response :=
  match file with
  | None => ret (jsonify "error" "No audio file provided" 400)
  | Some audio_bytes =>
      g <- get ;;
      if negb (api_key_set g)
      then ret (jsonify "error" "OpenAI API key not configured" 500)
      else
        try_except
          (_ <- attr (client g) "audio" ;;
           text <- perform Transcribe (transcribe env audio_bytes) ;;
           let user_transcription := strip text in
           if negb (truthy user_transcription)
           then ret (jsonify "message"
                       "Transcription resulted in empty text, no AI interaction processed."
                       200)
           else
             r <- process_interaction_and_speak user_transcription ;;
             match fst r with
             | Some ai_audio_response_bytes =>
                 emotion_codes_list <- iterate (snd r) ;;
                 ret {| status := 200; mimetype := "audio/mpeg";
                        content := Audio ai_audio_response_bytes;
                        emotion_codes_header :=
                          Some (join_codes emotion_codes_list) |}
             | None =>
                 ret (jsonify "error"
                        "Error processing AI response or generating audio"
                        500)
             end)
          (fun e => ret (jsonify "error"
                           ("Internal server error: " ++ e)%string 500))
  end.

End Server.

End Local.

(** * Notions of the statements *)

Unset Implicit Arguments.

Definition not_space (c : cp) : bool := negb (is_space c).

(** The last character of a string ends a sentence. *)
Definition ends_terminal (s : str) : bool :=
  opt_test is_terminal (hd_error (rev s)).

(** Patterns that cannot match the empty string: those with a [Chr] or a
    [Plus] on every path. *)
Fixpoint consuming (r : regex) : bool :=
  match r with
  | Chr _ | Plus _ => true
  | Group r' => consuming r'
  | Cat r1 r2 => consuming r1 || consuming r2
  | _ => false
  end.

(** No session: the four components are [None]. *)
Definition session_empty (g : Backend.Globals) : Prop :=
  Backend.client g = None /\ Backend.vector_store g = None
  /\ Backend.assistant g = None /\ Backend.thread g = None.

(** A whole session: the four components are set. *)
Definition session_set (g : Backend.Globals) : Prop :=
  Backend.client g <> None /\ Backend.vector_store g <> None
  /\ Backend.assistant g <> None /\ Backend.thread g <> None.

(** What the two endpoints keep true from the start of the process on. *)
Definition session_inv (g : Backend.Globals) : Prop :=
  (Backend.ai_initialized_successfully g = true /\ session_set g)
  \/ (Backend.ai_initialized_successfully g = false /\ session_empty g).

(** The session and the flag are the same in both states. *)
Definition same_session (g g' : Backend.Globals) : Prop :=
  Backend.client g' = Backend.client g
  /\ Backend.vector_store g' = Backend.vector_store g
  /\ Backend.assistant g' = Backend.assistant g
  /\ Backend.thread g' = Backend.thread g
  /\ Backend.ai_initialized_successfully g'
     = Backend.ai_initialized_successfully g.

(** The calls whose exception [initialize_ai_components] lets through to
    its outer handler or answers by giving up: all but the two of the
    document upload. *)
Definition fatal (c : call) : bool :=
  match c with
  | OpenFile | UploadAndPoll => false
  | _ => true
  end.

(** No call of the list that raised was a fatal one. *)
Definition tolerated (new : list (call * bool)) : Prop :=
  forall c, In (c, true) new -> fatal c = false.

(** The text that the event handler has gathered after the events. *)
Definition aggregate (evs : list stream_event) (buffer : str) : str :=
  fold_left (fun acc ev => match ev with
                           | TextCreated => []
                           | TextDelta value => acc ++ value
                           end)
            evs buffer.

(** Sample data: a backend where every call succeeds, nothing is stored
    yet, and the assistant answers with [reply]. *)
Definition sample_assistant : Assistant :=
  {| a_id := "asst_1"; a_name := Some assistant_name;
     instructions := Some (u "És a Musicalia."); tool_resources := None |}.

Definition sample_env (heard reply : str) : Env :=
  {| new_client := fun key => Ok {| api_key_of := key |};
     models_list := Ok tt;
     path_exists := true;
     vector_stores_list := Ok [];
     vector_stores_create :=
       Ok {| vs_id := "vs_1"; vs_name := Some vector_store_name |};
     open_file := Ok tt;
     upload_and_poll := Ok "completed"%string;
     assistants_list := Ok [];
     assistants_create := Ok sample_assistant;
     assistants_update := Ok tt;
     threads_create := Ok {| t_id := "thread_1" |};
     transcribe := fun _ => Ok heard;
     messages_create := Ok tt;
     runs_stream := ([TextCreated; TextDelta reply], None);
     synthesize := fun text => Ok text |}.

(** The same backend, where the upload of the document fails. *)
Definition upload_fails : Env :=
  {| new_client := fun key => Ok {| api_key_of := key |};
     models_list := Ok tt;
     path_exists := true;
     vector_stores_list := Ok [];
     vector_stores_create :=
       Ok {| vs_id := "vs_1"; vs_name := Some vector_store_name |};
     open_file := Ok tt;
     upload_and_poll := Raise "APIConnectionError";
     assistants_list := Ok [];
     assistants_create := Ok sample_assistant;
     assistants_update := Ok tt;
     threads_create := Ok {| t_id := "thread_1" |};
     transcribe := fun _ => Ok [];
     messages_create := Ok tt;
     runs_stream := ([], None);
     synthesize := fun text => Ok text |}.

(** The same backend, where the list of assistants cannot be read. *)
Definition assistants_fail : Env :=
  {| new_client := fun key => Ok {| api_key_of := key |};
     models_list := Ok tt;
     path_exists := false;
     vector_stores_list := Ok [];
     vector_stores_create :=
       Ok {| vs_id := "vs_1"; vs_name := Some vector_store_name |};
     open_file := Ok tt;
     upload_and_poll := Ok "completed"%string;
     assistants_list := Raise "APIConnectionError";
     assistants_create := Ok sample_assistant;
     assistants_update := Ok tt;
     threads_create := Ok {| t_id := "thread_1" |};
     transcribe := fun _ => Ok [];
     messages_create := Ok tt;
     runs_stream := ([], None);
     synthesize := fun text => Ok text |}.

Definition backend_start : World Backend.Globals :=
  {| globals := Backend.initial; trace := [] |}.

Definition backend_ready : World Backend.Globals :=
  {| globals :=
       {| Backend.client := Some {| api_key_of := u "sk-test" |};
          Backend.vector_store :=
            Some {| vs_id := "vs_1"; vs_name := Some vector_store_name |};
          Backend.assistant := Some sample_assistant;
          Backend.thread := Some {| t_id := "thread_1" |};
          Backend.full_response := [];
          Backend.ai_initialized_successfully := true |};
     trace := [] |}.

Definition local_start : World Local.Globals :=
  {| globals := Local.initial (Some (u "sk-test")); trace := [] |}.

Definition local_ready : World Local.Globals :=
  {| globals :=
       {| Local.OPENAI_API_KEY := Some (u "sk-test");
          Local.client := Some {| api_key_of := u "sk-test" |};
          Local.vector_store :=
            Some {| vs_id := "vs_1"; vs_name := Some vector_store_name |};
          Local.assistant := Some sample_assistant;
          Local.thread := Some {| t_id := "thread_1" |};
          Local.full_response := [] |};
     trace := [] |}.

Definition is_code (c : Z) : Prop := (c = 0 \/ c = 1 \/ c = 2)%Z.

(** White space occurs only as single U+0020; [after_space] tells that
    the character before is one. *)
Fixpoint single_spaced (after_space : bool) (s : str) : bool :=
  match s with
  | [] => true
  | c :: s' =>
      if is_space c
      then (c =? 32) && negb after_space && single_spaced true s'
      else single_spaced false s'
  end.

(** What [re.sub] writes for a scan. *)
Definition written (repl : option str -> str) (ks : list token) : str :=
  flat_map (fun k => match k with
                     | Copy c => [c]
                     | Hit _ g => repl g
                     end) ks.

(** Every match of [r] holds a character of the class [p]. *)
Definition needs (r : regex) (p : cp -> bool) : Prop :=
  forall prev t x, In x (ms r prev t) -> exists c, In c (fst x) /\ p c = true.

(** The matches that a scan reports. *)
Definition hits (ks : list token) : list str :=
  flat_map (fun k => match k with
                     | Copy _ => []
                     | Hit m _ => [m]
                     end) ks.

(** A text without [*], [_], backtick and newline. *)
Definition unmarked (w : str) : bool :=
  forallb (fun c => negb (one_of [asterisk; underscore; backtick; newline] c))
          w.

(** How often the character occurs in the text. *)
Definition count_of (a : cp) (t : str) : nat := length (filter (N.eqb a) t).

(** The candidates of [(...)K] once the group has taken [m], the text
    before the group being [pre]. *)
Definition group_then (K : regex) (pre : str) (prev : option cp) (t m : str)
  : list cand :=
  map (fun y : cand =>
         ((pre ++ m) ++ fst y,
          match snd y with Some g => Some g | None => Some (pre ++ m) end))
      (ms K (last_of m prev) (skipn (length m) t)).

(** The requests that the backend server takes, each with the outcome of
    the outside calls made while it is served. *)
Inductive request :=
| PostInitializeAI (json : result pyvalue)
| PostInteractAudio (file : option bytes).

Definition serve (db : UnicodeDB) (r : Env * request)
  (w : World Backend.Globals) : World Backend.Globals :=
  match snd r with
  | PostInitializeAI json => snd (Backend.initialize_ai_endpoint (fst r) json w)
  | PostInteractAudio file =>
      snd (Backend.interact_audio_endpoint db (fst r) file w)
  end.

Definition serve_all (db : UnicodeDB) (rs : list (Env * request))
  (w : World Backend.Globals) : World Backend.Globals :=
  fold_left (fun w r => serve db r w) rs w.

(** Sample data: the body [{"api_key": key}], parsed. *)
Definition with_key (key : str) : result pyvalue :=
  Ok (PyDict [(u "api_key", PyStr key)]).


(** The test that opens [initialize_ai_endpoint]. *)
Definition ready (g : Backend.Globals) : bool :=
  Backend.ai_initialized_successfully g && is_some (Backend.client g).


(** The vector store ids that the assistant is bound to:
    [assistant.tool_resources.file_search.vector_store_ids or []]. *)
Definition bound_vector_stores (a : Assistant) : list string :=
  match file_search_of a with
  | Some fs => match vector_store_ids fs with
               | Some ids => ids
               | None => []
               end
  | None => []
  end.

Definition raised {A} (r : result A) : bool :=
  match r with
  | Ok _ => false
  | Raise _ => true
  end.

(** Sample data: a backend where the vector store and an up-to-date
    assistant exist already. *)
Definition stored_vector_store : VectorStore :=
  {| vs_id := "vs_7"; vs_name := Some vector_store_name |}.

Definition stored_assistant : Assistant :=
  {| a_id := "asst_7"; a_name := Some assistant_name;
     instructions := Some instructions_text;
     tool_resources :=
       Some {| file_search :=
                 Some {| vector_store_ids := Some ["vs_7"%string] |} |} |}.

Definition upstream_ready : Env :=
  {| new_client := fun key => Ok {| api_key_of := key |};
     models_list := Ok tt;
     path_exists := true;
     vector_stores_list :=
       Ok [{| vs_id := "vs_1"; vs_name := None |}; stored_vector_store];
     vector_stores_create := Raise "not expected";
     open_file := Raise "not expected";
     upload_and_poll := Raise "not expected";
     assistants_list := Ok [stored_assistant];
     assistants_create := Raise "not expected";
     assistants_update := Raise "not expected";
     threads_create := Ok {| t_id := "thread_9" |};
     transcribe := fun _ => Ok [];
     messages_create := Ok tt;
     runs_stream := ([], None);
     synthesize := fun text => Ok text |}.

(** The calls made are the first ones of [expected], in that order, and
    none but the last one made has raised. *)
Definition calls_in_order (expected : list call) (new : list (call * bool))
  : Prop :=
  (exists rest, map fst new ++ rest = expected)
  /\ forall c, ~ In (c, true) (removelast new).

(** Sample data: a backend where the run breaks off after a first chunk. *)
Definition run_fails : Env :=
  {| new_client := fun key => Ok {| api_key_of := key |};
     models_list := Ok tt;
     path_exists := false;
     vector_stores_list := Ok [];
     vector_stores_create :=
       Ok {| vs_id := "vs_1"; vs_name := Some vector_store_name |};
     open_file := Ok tt;
     upload_and_poll := Ok "completed"%string;
     assistants_list := Ok [];
     assistants_create := Ok sample_assistant;
     assistants_update := Ok tt;
     threads_create := Ok {| t_id := "thread_1" |};
     transcribe := fun _ => Ok (u "Olá");
     messages_create := Ok tt;
     runs_stream := ([TextCreated; TextDelta (u "Que")],
                     Some "APIConnectionError"%string);
     synthesize := fun text => Ok text |}.

(** Nothing that was set is cleared: the local program's view. *)
Definition local_kept (g g' : Local.Globals) : Prop :=
  (Local.client g <> None -> Local.client g' <> None)
  /\ (Local.vector_store g <> None -> Local.vector_store g' <> None)
  /\ (Local.assistant g <> None -> Local.assistant g' <> None)
  /\ (Local.thread g <> None -> Local.thread g' <> None).

Definition local_without_key : World Local.Globals :=
  {| globals := Local.initial None; trace := [] |}.

(** [re.search(r, t) is None]: the scan of [t] reports no match of [r]. *)
Definition unmatched (r : regex) (t : str) : bool :=
  match hits (scan r None t O) with
  | [] => true
  | _ :: _ => false
  end.

(** The six markup patterns of the backend's sanitizer, in its order. *)
Definition markup_patterns (db : UnicodeDB) : list regex :=
  [bold; italic; underscores; Backend.backticks; bullets; numbering db].

(** No markup is left in the text: none of the six patterns matches. *)
Definition settled (db : UnicodeDB) (t : str) : bool :=
  forallb (fun r => unmatched r t) (markup_patterns db).

(** What [repl] writes for a match of [r] is shorter than the match; it
    is no longer than the match. *)
Definition shortens (r : regex) (repl : option str -> str) : Prop :=
  forall prev t x,
    In x (ms r prev t) -> (length (repl (snd x)) < length (fst x))%nat.

Definition no_longer (r : regex) (repl : option str -> str) : Prop :=
  forall prev t x,
    In x (ms r prev t) -> (length (repl (snd x)) <= length (fst x))%nat.

(** The last four substitutions of the backend's sanitizer. *)
Definition rinse (text : str) : str :=
  collapse_spaces
    (re_sub (Plus (N.eqb newline)) (const space)
       (re_sub (Chr Backend.is_symbol) (const [])
          (re_sub (Plus Backend.is_emoji) (const []) text))).

(** * Properties *)


(** ** Stripping *)

Lemma lstrip_split (s : str) :
  exists sp, s = sp ++ lstrip s /\ Forall (fun c => is_space c = true) sp.
Proof.
  induction s as [|c s IH]; simpl.
  - exists []. split; [reflexivity | constructor].
  - destruct (is_space c) eqn:E.
    + destruct IH as (sp & Hs & Hsp). exists (c :: sp). split.
      * simpl. now rewrite <- Hs.
      * now constructor.
    + exists []. split; [reflexivity | constructor].
Qed.

Lemma lstrip_head (s : str) (c : cp) :
  hd_error (lstrip s) = Some c -> is_space c = false.
Proof.
  induction s as [|a s IH]; simpl; [discriminate|].
  destruct (is_space a) eqn:E; [exact IH|].
  simpl. intros H. now inversion H; subst.
Qed.

Lemma lstrip_fixed (s : str) :
  opt_test is_space (hd_error s) = false -> lstrip s = s.
Proof.
  destruct s as [|c s]; simpl; [reflexivity|]. now intros ->.
Qed.

Lemma rstrip_split (s : str) :
  exists sp, s = rstrip s ++ sp /\ Forall (fun c => is_space c = true) sp.
Proof.
  unfold rstrip. destruct (lstrip_split (rev s)) as (sp & Hs & Hsp).
  exists (rev sp). split.
  - rewrite <- rev_app_distr, <- Hs. now rewrite rev_involutive.
  - apply Forall_rev. exact Hsp.
Qed.

Lemma rstrip_last (s : str) (c : cp) :
  hd_error (rev (rstrip s)) = Some c -> is_space c = false.
Proof.
  unfold rstrip. rewrite rev_involutive. apply lstrip_head.
Qed.

Lemma rstrip_fixed (s : str) :
  opt_test is_space (hd_error (rev s)) = false -> rstrip s = s.
Proof.
  intros H. unfold rstrip. rewrite (lstrip_fixed _ H). apply rev_involutive.
Qed.

Lemma strip_last (s : str) (c : cp) :
  hd_error (rev (strip s)) = Some c -> is_space c = false.
Proof. apply rstrip_last. Qed.

Lemma strip_head (s : str) (c : cp) :
  hd_error (strip s) = Some c -> is_space c = false.
Proof.
  unfold strip. intros H.
  destruct (rstrip_split (lstrip s)) as (sp & Hs & _).
  apply (lstrip_head s). rewrite Hs.
  destruct (rstrip (lstrip s)); [discriminate | exact H].
Qed.

Lemma filter_spaces (sp : str) :
  Forall (fun c => is_space c = true) sp -> filter not_space sp = [].
Proof.
  induction 1 as [|c sp Hc _ IH]; simpl; [reflexivity|].
  unfold not_space at 1. now rewrite Hc.
Qed.

Lemma filter_strip (s : str) :
  filter not_space (strip s) = filter not_space s.
Proof.
  unfold strip.
  destruct (lstrip_split s) as (sp1 & H1 & F1).
  destruct (rstrip_split (lstrip s)) as (sp2 & H2 & F2).
  rewrite H1 at 2. rewrite H2 at 2.
  rewrite !filter_app, (filter_spaces _ F1), (filter_spaces _ F2).
  now rewrite app_nil_r.
Qed.

Lemma terminal_not_space (c : cp) : is_terminal c = true -> is_space c = false.
Proof.
  unfold is_terminal, one_of. simpl. rewrite !orb_false_r.
  intros H. apply orb_prop in H. destruct H as [H|H].
  - apply N.eqb_eq in H. now subst.
  - apply orb_prop in H. destruct H as [H|H]; apply N.eqb_eq in H; now subst.
Qed.

Lemma strip_ends_terminal (s : str) :
  ends_terminal s = true -> ends_terminal (strip s) = true.
Proof.
  unfold ends_terminal. intros H.
  destruct (rev s) as [|c r] eqn:E; [discriminate|]. simpl in H.
  assert (Hs : s = rev r ++ [c]).
  { rewrite <- (rev_involutive s), E. reflexivity. }
  destruct (lstrip_split s) as (sp & H1 & F1).
  assert (Hl : exists q, lstrip s = q ++ [c]).
  { remember (lstrip s) as l eqn:El. clear El. rewrite Hs in H1.
    destruct l as [|a l _] using rev_ind.
    - rewrite app_nil_r in H1. subst sp.
      apply Forall_app in F1. destruct F1 as [_ F1]. inversion F1; subst.
      rewrite (terminal_not_space _ H) in *. discriminate.
    - rewrite app_assoc in H1. apply app_inj_tail in H1.
      destruct H1 as [_ ->]. now exists l. }
  destruct Hl as (q & Hq). unfold strip. rewrite rstrip_fixed.
  - rewrite Hq, rev_app_distr. exact H.
  - rewrite Hq, rev_app_distr. simpl. now apply terminal_not_space.
Qed.

(** ** The matcher *)

Lemma span_split (p : cp -> bool) (t : str) :
  exists rest, t = span p t ++ rest.
Proof.
  induction t as [|c t IH]; simpl.
  - now exists [].
  - destruct (p c).
    + destruct IH as (rest & IH). exists rest. simpl. now rewrite <- IH.
    + now exists (c :: t).
Qed.

Lemma span_all (p : cp -> bool) (t : str) :
  Forall (fun c => p c = true) (span p t).
Proof.
  induction t as [|c t IH]; simpl; [constructor|].
  destruct (p c) eqn:E; now constructor.
Qed.

Lemma inits_prefix (t m : str) :
  In m (inits t) -> exists rest, t = m ++ rest.
Proof.
  revert m. induction t as [|c t IH]; simpl; intros m H.
  - destruct H as [<-|[]]. now exists [].
  - destruct H as [<-|H]; [now exists (c :: t)|].
    apply in_map_iff in H. destruct H as (m' & <- & H).
    destruct (IH _ H) as (rest & ->). now exists rest.
Qed.

Lemma tl_inits_nonempty (t m : str) : In m (tl (inits t)) -> m <> [].
Proof.
  destruct t as [|c t]; simpl; [contradiction|].
  intros H. apply in_map_iff in H. destruct H as (m' & <- & _). discriminate.
Qed.

Lemma in_tl {A} (x : A) (l : list A) : In x (tl l) -> In x l.
Proof. destruct l; simpl; auto. Qed.

Lemma prefix_trans (t m m' rest : str) :
  t = m ++ rest -> (exists r, m = m' ++ r) -> exists r, t = m' ++ r.
Proof.
  intros -> (r & ->). exists (r ++ rest). now rewrite app_assoc.
Qed.

Lemma prefix_all (p : cp -> bool) (m m' r : str) :
  Forall (fun c => p c = true) m -> m = m' ++ r ->
  Forall (fun c => p c = true) m'.
Proof. intros F ->. now apply Forall_app in F. Qed.

(** Every candidate is a prefix of the text in front of the position. *)
Lemma ms_prefix (r : regex) :
  forall prev t x, In x (ms r prev t) -> exists rest, t = fst x ++ rest.
Proof.
  induction r as [|p|p|p|p| |w|p|r IH|r1 IH1 r2 IH2]; simpl; intros prev t x H.
  - destruct H as [<-|[]]. now exists t.
  - destruct t as [|c t]; [contradiction|].
    destruct (p c); [|contradiction]. destruct H as [<-|[]]. now exists t.
  - apply in_map_iff in H. destruct H as (m & <- & H). apply in_rev in H.
    destruct (span_split p t) as (rest & E).
    simpl. eapply prefix_trans; [exact E | now apply inits_prefix].
  - apply in_map_iff in H. destruct H as (m & <- & H).
    destruct (span_split p t) as (rest & E).
    simpl. eapply prefix_trans; [exact E | now apply inits_prefix].
  - apply in_map_iff in H. destruct H as (m & <- & H). apply in_rev in H.
    apply in_tl in H. destruct (span_split p t) as (rest & E).
    simpl. eapply prefix_trans; [exact E | now apply inits_prefix].
  - unfold zero_width in H. destruct prev as [c|].
    + destruct (c =? newline); [|contradiction].
      destruct H as [<-|[]]. now exists t.
    + destruct H as [<-|[]]. now exists t.
  - unfold zero_width in H.
    destruct (xorb _ _); [|contradiction]. destruct H as [<-|[]]. now exists t.
  - unfold zero_width in H.
    destruct (opt_test p prev); [|contradiction].
    destruct H as [<-|[]]. now exists t.
  - apply in_map_iff in H. destruct H as (y & <- & H). simpl. eauto.
  - apply in_flat_map in H. destruct H as (x1 & H1 & H).
    apply in_map_iff in H. destruct H as (x2 & <- & H2). simpl.
    destruct (IH1 _ _ _ H1) as (rest1 & E1).
    rewrite E1 in H2. rewrite skipn_app, skipn_all, Nat.sub_diag in H2.
    simpl in H2. destruct (IH2 _ _ _ H2) as (rest2 & E2).
    exists rest2. now rewrite <- app_assoc, <- E2.
Qed.

Lemma consuming_sound (r : regex) :
  consuming r = true ->
  forall prev t x, In x (ms r prev t) -> fst x <> [].
Proof.
  induction r as [|p|p|p|p| |w|p|r IH|r1 IH1 r2 IH2]; simpl;
    try discriminate; intros C prev t x H.
  - destruct t as [|c t]; [contradiction|].
    destruct (p c); [|contradiction]. destruct H as [<-|[]]. discriminate.
  - apply in_map_iff in H. destruct H as (m & <- & H). apply in_rev in H.
    simpl. exact (tl_inits_nonempty _ _ H).
  - apply in_map_iff in H. destruct H as (y & <- & H). simpl. eauto.
  - apply in_flat_map in H. destruct H as (x1 & H1 & H).
    apply in_map_iff in H. destruct H as (x2 & <- & H2). simpl.
    intros E. apply app_eq_nil in E. destruct E as [E1 E2].
    apply orb_prop in C. destruct C as [C|C].
    + exact (IH1 C _ _ _ H1 E1).
    + exact (IH2 C _ _ _ H2 E2).
Qed.

Lemma last_of_cons (c : cp) (m : str) (prev : option cp) :
  last_of (c :: m) prev = last_of m (Some c).
Proof.
  unfold last_of. simpl. destruct (rev m) as [|a l]; reflexivity.
Qed.

Lemma last_of_in (m : str) (prev : option cp) :
  m <> [] -> exists c, last_of m prev = Some c /\ In c m.
Proof.
  intros H. unfold last_of. destruct (rev m) as [|c l] eqn:E.
  - apply (f_equal (@rev cp)) in E. rewrite rev_involutive in E. contradiction.
  - exists c. split; [reflexivity|]. apply in_rev. rewrite E. now left.
Qed.

(** Leaving a match: the scan resumes behind it. *)
Lemma scan_skip (r : regex) (m rest : str) :
  forall prev,
    scan r prev (m ++ rest) (length m) = scan r (last_of m prev) rest O.
Proof.
  induction m as [|c m IH]; intros prev.
  - reflexivity.
  - rewrite last_of_cons, <- IH. reflexivity.
Qed.

(** The scan with a pattern that consumes, read as an induction on the
    text: at the end; at a character no match starts at; at a match. *)
Lemma scan_ind (r : regex) (P : option cp -> str -> list token -> Prop) :
  consuming r = true ->
  (forall prev, P prev [] []) ->
  (forall prev c t,
      ms r prev (c :: t) = [] ->
      P (Some c) t (scan r (Some c) t O) ->
      P prev (c :: t) (Copy c :: scan r (Some c) t O)) ->
  (forall prev m g alts rest,
      m <> [] ->
      ms r prev (m ++ rest) = (m, g) :: alts ->
      P (last_of m prev) rest (scan r (last_of m prev) rest O) ->
      P prev (m ++ rest) (Hit m g :: scan r (last_of m prev) rest O)) ->
  forall t prev, P prev t (scan r prev t O).
Proof.
  intros C Hnil Hcopy Hhit t.
  remember (length t) as n eqn:En. revert t En.
  induction n as [n IH] using lt_wf_ind.
  intros t En prev. destruct t as [|c t].
  - simpl. destruct (ms r prev []) as [|[m g] alts] eqn:E; [apply Hnil|].
    exfalso. assert (H : In (m, g) (ms r prev [])) by (rewrite E; now left).
    destruct (ms_prefix _ _ _ _ H) as (rest & E').
    apply (consuming_sound _ C _ _ _ H). simpl in *.
    symmetry in E'. apply app_eq_nil in E'. tauto.
  - simpl. destruct (ms r prev (c :: t)) as [|[m g] alts] eqn:E.
    + apply Hcopy; [exact E|].
      apply (IH (length t)); [simpl in En; lia | reflexivity].
    + assert (H : In (m, g) (ms r prev (c :: t))) by (rewrite E; now left).
      destruct (ms_prefix _ _ _ _ H) as (rest & E'). simpl in E'.
      pose proof (consuming_sound _ C _ _ _ H) as Hne. simpl in Hne.
      destruct m as [|c0 m']; [contradiction|].
      simpl in E'. injection E' as <- ->.
      rewrite scan_skip, <- (last_of_cons c m' prev).
      change (c :: m' ++ rest) with ((c :: m') ++ rest).
      apply (Hhit prev (c :: m') g alts rest); [discriminate|exact E|].
      apply (IH (length rest)); [|reflexivity].
      simpl in En. rewrite length_app in En. lia.
Qed.

Lemma in_ms_cat (r1 r2 : regex) (prev : option cp) (t : str) (x : cand) :
  In x (ms (Cat r1 r2) prev t) ->
  exists x1 x2,
    In x1 (ms r1 prev t)
    /\ In x2 (ms r2 (last_of (fst x1) prev) (skipn (length (fst x1)) t))
    /\ fst x = fst x1 ++ fst x2.
Proof.
  simpl. intros H. apply in_flat_map in H. destruct H as (x1 & H1 & H).
  apply in_map_iff in H. destruct H as (x2 & <- & H2).
  exists x1, x2. auto.
Qed.

Lemma in_ms_plus (p : cp -> bool) (prev : option cp) (t : str) (x : cand) :
  In x (ms (Plus p) prev t) ->
  Forall (fun c => p c = true) (fst x) /\ fst x <> [].
Proof.
  simpl. intros H. apply in_map_iff in H. destruct H as (m & <- & H).
  apply in_rev in H. simpl. split.
  - destruct (inits_prefix _ _ (in_tl _ _ H)) as (rest & E).
    exact (prefix_all p _ _ _ (span_all p t) E).
  - exact (tl_inits_nonempty _ _ H).
Qed.

Lemma in_ms_star (p : cp -> bool) (prev : option cp) (t : str) (x : cand) :
  In x (ms (Star p) prev t) -> Forall (fun c => p c = true) (fst x).
Proof.
  simpl. intros H. apply in_map_iff in H. destruct H as (m & <- & H).
  apply in_rev in H. simpl.
  destruct (inits_prefix _ _ H) as (rest & E).
  exact (prefix_all p _ _ _ (span_all p t) E).
Qed.

Lemma in_ms_eps (prev : option cp) (t : str) (x : cand) :
  In x (ms Eps prev t) -> fst x = [].
Proof. simpl. intros [<-|[]]. reflexivity. Qed.

Lemma in_ms_chr (p : cp -> bool) (prev : option cp) (t : str) (x : cand) :
  In x (ms (Chr p) prev t) ->
  exists c t', t = c :: t' /\ p c = true /\ fst x = [c].
Proof.
  simpl. destruct t as [|c t']; [contradiction|].
  destruct (p c) eqn:E; [|contradiction].
  intros [<-|[]]. now exists c, t'.
Qed.

(** ** The sentence segmenter *)

Lemma sentence_boundary_behind (prev : option cp) (t : str) :
  opt_test is_terminal prev = false -> ms sentence_boundary prev t = [].
Proof. intros H. unfold sentence_boundary. simpl. now rewrite H. Qed.

Lemma sentence_boundary_spaces (prev : option cp) (t : str) (x : cand) :
  In x (ms sentence_boundary prev t) ->
  Forall (fun c => is_space c = true) (fst x).
Proof.
  unfold sentence_boundary. simpl seq. intros H.
  apply in_ms_cat in H. destruct H as (x1 & x2 & H1 & H2 & ->).
  apply in_ms_cat in H2. destruct H2 as (x3 & x4 & H3 & H4 & ->).
  apply in_ms_plus in H3. apply in_ms_eps in H4. rewrite H4, app_nil_r.
  assert (E1 : fst x1 = []).
  { simpl in H1. unfold zero_width in H1.
    destruct (opt_test is_terminal prev); [|contradiction].
    destruct H1 as [<-|[]]. reflexivity. }
  rewrite E1. simpl. exact (proj1 H3).
Qed.

Lemma pieces_nonempty (ks : list token) (cur : str) : pieces ks cur <> [].
Proof.
  revert cur. induction ks as [|[c|m g] ks IH]; simpl; intros cur;
    [discriminate | apply IH | discriminate].
Qed.

(** The pieces hold every character that is not white space, in order. *)
Lemma split_keeps_text (t : str) (prev : option cp) :
  forall cur,
    filter not_space (concat (pieces (scan sentence_boundary prev t O) cur))
    = filter not_space (rev cur ++ t).
Proof.
  apply (scan_ind sentence_boundary
           (fun prev t ks =>
              forall cur, filter not_space (concat (pieces ks cur))
                          = filter not_space (rev cur ++ t)));
    [reflexivity | | | ]; clear t prev.
  - intros prev cur. simpl. reflexivity.
  - intros prev c t _ IH cur. simpl pieces. rewrite IH. simpl.
    now rewrite <- app_assoc.
  - intros prev m g alts rest _ E IH cur. simpl pieces. simpl concat.
    rewrite filter_app, IH. simpl rev. rewrite app_nil_l.
    assert (H : In (m, g) (ms sentence_boundary prev (m ++ rest)))
      by (rewrite E; now left).
    apply sentence_boundary_spaces in H. simpl in H.
    now rewrite !filter_app, (filter_spaces _ H).
Qed.

(** Every piece but the last one ends with the mark the split follows. *)
Lemma split_ends_terminal (t : str) (prev : option cp) :
  forall cur,
    (opt_test is_terminal prev = true -> ends_terminal (rev cur) = true) ->
    Forall (fun s => ends_terminal s = true)
           (removelast (pieces (scan sentence_boundary prev t O) cur)).
Proof.
  apply (scan_ind sentence_boundary
           (fun prev t ks =>
              forall cur,
                (opt_test is_terminal prev = true ->
                 ends_terminal (rev cur) = true) ->
                Forall (fun s => ends_terminal s = true)
                       (removelast (pieces ks cur))));
    [reflexivity | | | ]; clear t prev.
  - intros prev cur _. simpl. constructor.
  - intros prev c t _ IH cur _. simpl pieces. apply IH.
    simpl. intros H. unfold ends_terminal. simpl.
    rewrite rev_app_distr, rev_involutive. exact H.
  - intros prev m g alts rest Hm E IH cur Hcur. simpl pieces.
    assert (H : In (m, g) (ms sentence_boundary prev (m ++ rest)))
      by (rewrite E; now left).
    assert (Hp : opt_test is_terminal prev = true).
    { destruct (opt_test is_terminal prev) eqn:Ep; [reflexivity|].
      rewrite (sentence_boundary_behind _ _ Ep) in H. contradiction. }
    apply sentence_boundary_spaces in H. simpl in H.
    destruct (pieces (scan sentence_boundary (last_of m prev) rest O) [])
      as [|p ps] eqn:Eps; [now apply pieces_nonempty in Eps|].
    change (removelast (rev cur :: p :: ps))
      with (rev cur :: removelast (p :: ps)).
    constructor; [now apply Hcur|]. rewrite <- Eps. apply IH.
    intros Hl. exfalso.
    destruct (last_of_in m prev Hm) as (c & Ec & Hc).
    rewrite Ec in Hl. simpl in Hl. apply terminal_not_space in Hl.
    rewrite Forall_forall in H. rewrite (H _ Hc) in Hl. discriminate.
Qed.

Lemma filter_replace (old : cp) (s : str) :
  filter not_space (replace old (old :: space) s) = filter not_space s.
Proof.
  unfold replace. induction s as [|c s IH]; [reflexivity|].
  simpl flat_map. destruct (c =? old) eqn:E.
  - apply N.eqb_eq in E. subst c. rewrite filter_app, IH. simpl.
    destruct (not_space old); reflexivity.
  - rewrite filter_app, IH. simpl. destruct (not_space c); reflexivity.
Qed.

(** ** The claims on the sentence segmenter *)

(** C7. For every text, every sentence returned by [sentence_split] is
    non-empty and has no white space at either end: each fragment is
    trimmed and the empty ones are dropped. *)
Theorem sentence_split_trimmed (text : str) :
  Forall (fun s =>
            s <> []
            /\ opt_test is_space (hd_error s) = false
            /\ opt_test is_space (hd_error (rev s)) = false)
         (sentence_split text).
Proof.
  unfold sentence_split. apply Forall_forall. intros s H.
  apply in_map_iff in H. destruct H as (p & <- & H).
  apply filter_In in H. destruct H as [_ H].
  split; [|split].
  - destruct (strip p); [discriminate H | discriminate].
  - destruct (hd_error (strip p)) as [c|] eqn:E; [|reflexivity].
    simpl. exact (strip_head _ _ E).
  - destruct (hd_error (rev (strip p))) as [c|] eqn:E; [|reflexivity].
    simpl. exact (strip_last _ _ E).
Qed.

Lemma sentence_split_not_space (text : str) :
  filter not_space (concat (sentence_split text)) = filter not_space text.
Proof.
  unfold sentence_split.
  transitivity
    (filter not_space
       (concat (re_split sentence_boundary
                  (replace question (u "? ")
                     (replace exclamation (u "! ")
                        (replace full_stop (u ". ") text)))))).
  - generalize (re_split sentence_boundary
                  (replace question (u "? ")
                     (replace exclamation (u "! ")
                        (replace full_stop (u ". ") text)))).
    intros ps. induction ps as [|p ps IH]; [reflexivity|].
    change (concat (p :: ps)) with (p ++ concat ps).
    rewrite filter_app, <- IH, <- (filter_strip p).
    change (filter (fun s => truthy (strip s)) (p :: ps))
      with (if truthy (strip p)
            then p :: filter (fun s => truthy (strip s)) ps
            else filter (fun s => truthy (strip s)) ps).
    destruct (truthy (strip p)) eqn:E.
    + simpl. now rewrite filter_app.
    + destruct (strip p); [reflexivity | discriminate].
  - unfold re_split. rewrite split_keeps_text. simpl rev. rewrite app_nil_l.
    change (u "? ") with (question :: space).
    change (u "! ") with (exclamation :: space).
    change (u ". ") with (full_stop :: space).
    now rewrite !filter_replace.
Qed.

(** C8. For every text, the sentences of [sentence_split], joined and
    read without white space, are the text read without white space; in
    particular every character that is neither white space nor one of
    [.], [!], [?] is kept, in its place. *)
Theorem sentence_split_preserves (text : str) :
  filter not_space (concat (sentence_split text)) = filter not_space text
  /\ filter (fun c => not_space c && negb (is_terminal c))
            (concat (sentence_split text))
     = filter (fun c => not_space c && negb (is_terminal c)) text.
Proof.
  split; [apply sentence_split_not_space|].
  assert (E : forall s : str,
             filter (fun c => not_space c && negb (is_terminal c)) s
             = filter (fun c => negb (is_terminal c)) (filter not_space s)).
  { induction s as [|c s IH]; [reflexivity|]. simpl.
    destruct (not_space c); simpl; [|exact IH].
    destruct (negb (is_terminal c)); now rewrite IH. }
  now rewrite !E, sentence_split_not_space.
Qed.

(** C10. For every text, every sentence returned by [sentence_split],
    except possibly the last one, ends with [.], [!] or [?]. *)
Theorem sentence_split_ends_terminal (text : str) :
  Forall (fun s => ends_terminal s = true)
         (removelast (sentence_split text)).
Proof.
  unfold sentence_split, re_split.
  pose proof (split_ends_terminal
                (replace question (u "? ")
                   (replace exclamation (u "! ")
                      (replace full_stop (u ". ") text)))
                None [] (fun H => False_ind _ (diff_false_true H))) as H.
  pose proof (pieces_nonempty
                (scan sentence_boundary None
                   (replace question (u "? ")
                      (replace exclamation (u "! ")
                         (replace full_stop (u ". ") text))) O) []) as Hne.
  revert H Hne.
  generalize (pieces
                (scan sentence_boundary None
                   (replace question (u "? ")
                      (replace exclamation (u "! ")
                         (replace full_stop (u ". ") text))) O) []).
  intros ps H Hne.
  destruct (exists_last Hne) as (init & final & ->).
  rewrite removelast_last in H.
  rewrite filter_app, map_app.
  assert (Hinit : map strip (filter (fun s => truthy (strip s)) init)
                  = map strip init).
  { f_equal. apply forallb_filter_id. apply forallb_forall. intros s Hs.
    rewrite Forall_forall in H. apply H, strip_ends_terminal in Hs.
    unfold ends_terminal in Hs. destruct (strip s); [discriminate|reflexivity]. }
  rewrite Hinit.
  assert (Hall : Forall (fun s => ends_terminal s = true) (map strip init)).
  { apply Forall_forall. intros s Hs. apply in_map_iff in Hs.
    destruct Hs as (p & <- & Hp). rewrite Forall_forall in H.
    now apply strip_ends_terminal, H. }
  simpl filter. destruct (truthy (strip final)); simpl map.
  - now rewrite removelast_last.
  - rewrite app_nil_r. apply Forall_forall. intros s Hs.
    rewrite Forall_forall in Hall. apply Hall.
    destruct (map strip init) as [|a l] using rev_ind; [contradiction|].
    rewrite removelast_last in Hs. apply in_or_app. now left.
Qed.

(** ** The claim on the emotion scorer *)

Open Scope Z_scope.

(** The examples of the specification, over Latin-1. *)
Example happy_sentence :
  detect_emotion latin1 (u "Que dia feliz e maravilhoso!") = 1.
Proof. vm_compute. reflexivity. Qed.

Example sad_sentence :
  detect_emotion latin1 (u "Senti uma grande tristeza e saudade.") = 2.
Proof. vm_compute. reflexivity. Qed.

Example neutral_sentence :
  detect_emotion latin1 (u "O concerto foi às 20h na sala principal.") = 0.
Proof. vm_compute. reflexivity. Qed.

Lemma score_of_nonneg (db : UnicodeDB) (words : list str) (text : str) :
  0 <= score_of db words text.
Proof.
  unfold score_of.
  assert (H : forall ws acc, 0 <= acc ->
                0 <= fold_left
                       (fun score word =>
                          score + Z.of_nat
                                    (length (re_findall (stem_pattern db word)
                                                        text)))
                       ws acc).
  { induction ws as [|w ws IH]; simpl; intros acc Hacc; [exact Hacc|].
    apply IH. lia. }
  apply H. lia.
Qed.

(** C1. For every sentence, [detect_emotion] returns 0 (Neutral) exactly
    when the happy and the sad counts are both zero, 1 (Happy) exactly when
    the happy count is greater than the sad count, and 2 (Sad) in every
    other case; in particular two equal positive counts give Sad. *)
Theorem detect_emotion_decision (db : UnicodeDB) (text : str) :
  (detect_emotion db text = 0
   <-> happy_score db text = 0 /\ sad_score db text = 0)
  /\ (detect_emotion db text = 1 <-> happy_score db text > sad_score db text)
  /\ (detect_emotion db text = 2
      <-> ~ (happy_score db text = 0 /\ sad_score db text = 0)
          /\ ~ happy_score db text > sad_score db text)
  /\ (happy_score db text = sad_score db text /\ 0 < happy_score db text ->
      detect_emotion db text = 2).
Proof.
  unfold detect_emotion, happy_score, sad_score.
  set (happy := score_of db happy_words (lower db text)).
  set (sad := score_of db sad_words (lower db text)).
  rewrite Z.gtb_ltb.
  destruct (Z.eqb_spec happy sad) as [E1|E1];
    destruct (Z.eqb_spec sad 0) as [E2|E2];
    destruct (Z.ltb_spec sad happy) as [E3|E3]; simpl;
    repeat split; intros; try lia.
Qed.

Lemma detect_emotion_tie :
  happy_score latin1 (u "feliz mas triste") = 1
  /\ sad_score latin1 (u "feliz mas triste") = 1
  /\ detect_emotion latin1 (u "feliz mas triste") = 2.
Proof.
  split; [|split]; [vm_compute; reflexivity | vm_compute; reflexivity |].
  apply (detect_emotion_decision latin1 (u "feliz mas triste")).
  split; vm_compute; reflexivity.
Defined.

Close Scope Z_scope.


(** ** The interaction endpoint *)

Open Scope Z_scope.

Lemma detect_emotion_code (db : UnicodeDB) (text : str) :
  is_code (detect_emotion db text).
Proof.
  unfold detect_emotion, is_code.
  destruct (_ && _); [now left|]. destruct (_ >? _); auto.
Qed.

Lemma analyze_text_codes (db : UnicodeDB) (text : str) :
  Forall is_code (map snd (analyze_text db text)).
Proof.
  unfold analyze_text. induction (sentence_split text) as [|s l IH];
    [constructor|].
  simpl. destruct (truthy s); [|exact IH].
  simpl. constructor; [apply detect_emotion_code | exact IH].
Qed.

Lemma backend_deliver (evs : list stream_event) :
  forall w,
    Backend.deliver evs w
    = (Ok tt,
       {| globals :=
            Backend.set_full_response
              (aggregate evs (Backend.full_response (globals w))) (globals w);
          trace := trace w |}).
Proof.
  induction evs as [|ev evs IH]; intros [g tr].
  - destruct g. reflexivity.
  - simpl Backend.deliver. unfold bind.
    destruct ev as [|value]; simpl; rewrite IH; reflexivity.
Qed.

(** C9. When the session is ready, that is, initialization has succeeded
    and the client is set, [POST /initialize_ai] answers at once that the
    components are already initialized; the globals are unchanged and no
    outside call is made. *)
Theorem initialize_when_ready (env : Env) (json : result pyvalue)
  (w : World Backend.Globals) :
  Backend.ai_initialized_successfully (globals w) = true ->
  Backend.client (globals w) <> None ->
  Backend.initialize_ai_endpoint env json w
  = (Ok (jsonify "message" "AI components already initialized" 200), w).
Proof.
  intros Hflag Hclient. unfold Backend.initialize_ai_endpoint, bind, get.
  rewrite Hflag. destruct (Backend.client (globals w)); [|contradiction].
  reflexivity.
Qed.

Lemma initialize_when_ready_sample :
  Backend.initialize_ai_endpoint (sample_env [] []) (with_key (u "sk-other"))
    backend_ready
  = (Ok (jsonify "message" "AI components already initialized" 200),
     backend_ready).
Proof.
  apply initialize_when_ready; [reflexivity | discriminate].
Defined.

(** C5, as the two programs have it.  When the transcription is empty or
    white space only, the backend server answers 200 with an empty audio
    body and the emotion codes ["0"]; the local program answers 200 with
    a JSON message and no emotion codes.  In both, the transcription is
    the only outside call of the request and the globals are unchanged:
    nothing is generated, scored or synthesized. *)
Theorem empty_transcription_short_circuits (db : UnicodeDB) (env : Env)
  (audio : bytes) (text : str) :
  transcribe env audio = Ok text ->
  strip text = [] ->
  (forall w,
      Backend.ai_initialized_successfully (globals w) = true ->
      Backend.client (globals w) <> None ->
      Backend.interact_audio_endpoint db env (Some audio) w
      = (Ok {| status := 200; mimetype := "audio/mpeg"; content := NoBody;
               emotion_codes_header := Some (join_codes [0]) |},
         {| globals := globals w;
            trace := trace w ++ [(Transcribe, false)] |}))
  /\ (forall w,
         Local.api_key_set (globals w) = true ->
         Local.client (globals w) <> None ->
         Local.interact_audio_endpoint db env (Some audio) w
         = (Ok (jsonify "message"
                  "Transcription resulted in empty text, no AI interaction processed."
                  200),
            {| globals := globals w;
               trace := trace w ++ [(Transcribe, false)] |})).
Proof.
  intros Ht Hs. split; intros w.
  - intros Hflag Hclient.
    unfold Backend.interact_audio_endpoint, bind, get, try_except.
    rewrite Hflag. destruct (Backend.client (globals w)); [|contradiction].
    simpl. unfold perform. rewrite Ht, Hs. reflexivity.
  - intros Hkey Hclient.
    unfold Local.interact_audio_endpoint, bind, get, try_except.
    rewrite Hkey. destruct (Local.client (globals w)); [|contradiction].
    simpl. unfold perform. rewrite Ht, Hs. reflexivity.
Qed.

Lemma empty_transcription_sample :
  Backend.interact_audio_endpoint latin1 (sample_env (u "  ") (u "Olá!"))
    (Some []) backend_ready
  = (Ok {| status := 200; mimetype := "audio/mpeg"; content := NoBody;
           emotion_codes_header := Some "0"%string |},
     {| globals := globals backend_ready; trace := [(Transcribe, false)] |})
  /\ Local.interact_audio_endpoint latin1 (sample_env (u "  ") (u "Olá!"))
       (Some []) local_ready
     = (Ok (jsonify "message"
              "Transcription resulted in empty text, no AI interaction processed."
              200),
        {| globals := globals local_ready; trace := [(Transcribe, false)] |}).
Proof.
  destruct (empty_transcription_short_circuits
              latin1 (sample_env (u "  ") (u "Olá!")) [] (u "  ")
              eq_refl eq_refl) as [B L].
  split.
  - apply (B backend_ready); [reflexivity | discriminate].
  - apply (L local_ready); [reflexivity | discriminate].
Defined.

(** The claim C5 as it was stated fails in the local program: the answer
    to an empty transcription carries no emotion codes, and its body is a
    JSON message, not empty audio. *)
Lemma local_empty_transcription_has_no_codes :
  exists resp w',
    Local.interact_audio_endpoint latin1 (sample_env (u "  ") (u "Olá!"))
      (Some []) local_ready = (Ok resp, w')
    /\ emotion_codes_header resp <> Some "0"%string
    /\ content resp <> NoBody.
Proof.
  eexists. eexists. split; [vm_compute; reflexivity|].
  split; discriminate.
Qed.

Lemma backend_process_codes (db : UnicodeDB) (env : Env) (heard : str)
  (w : World Backend.Globals) :
  exists r w',
    Backend.process_interaction_and_speak db env heard w = (Ok r, w')
    /\ match snd r with
       | Some codes => Forall is_code codes
       | None => True
       end.
Proof.
  unfold Backend.process_interaction_and_speak, bind, get.
  destruct (_ || _); [do 2 eexists; split; [reflexivity | exact I]|].
  unfold modify, try_except, perform, Backend.run_assistant, bind.
  destruct (messages_create env);
    [|do 2 eexists; split; [reflexivity | exact I]].
  rewrite backend_deliver. cbn [globals trace].
  destruct (snd (runs_stream env));
    [do 2 eexists; split; [reflexivity | exact I]|].
  unfold perform.
  cbn [globals trace Backend.full_response Backend.set_full_response].
  set (reply := Backend.clean_text_for_tts db _).
  destruct (truthy reply).
  - unfold Backend.text_to_speech_bytes, try_except, bind, perform.
    destruct (synthesize env reply); cbn [ret snd];
      (do 2 eexists; split; [reflexivity|]); cbn [snd];
      (destruct (_ && _); [repeat constructor|];
       destruct (negb _); [repeat constructor|];
       apply analyze_text_codes).
  - do 2 eexists. split; [reflexivity|]. repeat constructor.
Qed.

(** The empty reply, in the backend server. *)
Lemma backend_process_empty_reply (db : UnicodeDB) (env : Env) (heard : str)
  (w : World Backend.Globals) :
  Backend.ai_initialized_successfully (globals w) = true ->
  session_set (globals w) ->
  messages_create env = Ok tt ->
  snd (runs_stream env) = None ->
  Backend.clean_text_for_tts db (strip (aggregate (fst (runs_stream env)) []))
  = [] ->
  Backend.process_interaction_and_speak db env heard w
  = (Ok (None, Some [0]),
     {| globals :=
          Backend.set_full_response (aggregate (fst (runs_stream env)) [])
            (globals w);
        trace := trace w ++ [(MessagesCreate, false); (RunsStream, false)] |}).
Proof.
  intros Hflag (Hc & _ & Ha & Ht) Hm Hr Hclean.
  unfold Backend.process_interaction_and_speak, bind, get.
  rewrite Hflag.
  destruct (Backend.client (globals w)); [|contradiction].
  destruct (Backend.assistant (globals w)); [|contradiction].
  destruct (Backend.thread (globals w)); [|contradiction].
  cbn [negb is_some orb].
  unfold modify, try_except, perform, Backend.run_assistant, bind.
  rewrite Hm, backend_deliver, Hr. unfold perform.
  cbn [globals trace Backend.full_response Backend.set_full_response].
  rewrite Hclean. cbn [truthy]. unfold ret. rewrite <- app_assoc.
  destruct w as [g tr]. destruct g. reflexivity.
Qed.

(** C4, as the backend server has it.  In a ready session, when the
    request is heard, the message is accepted and the run ends normally
    with a reply that the sanitizer empties, [process_interaction_and_speak]
    returns no audio and the codes [[0]]; the endpoint then answers with
    status 500, an empty audio body and the emotion codes ["0"]. *)
Theorem empty_reply_answer (db : UnicodeDB) (env : Env) (audio : bytes)
  (text : str) (w : World Backend.Globals) :
  Backend.ai_initialized_successfully (globals w) = true ->
  session_set (globals w) ->
  transcribe env audio = Ok text ->
  strip text <> [] ->
  messages_create env = Ok tt ->
  snd (runs_stream env) = None ->
  Backend.clean_text_for_tts db (strip (aggregate (fst (runs_stream env)) []))
  = [] ->
  fst (Backend.process_interaction_and_speak db env (strip text) w)
  = Ok (None, Some [0])
  /\ fst (Backend.interact_audio_endpoint db env (Some audio) w)
     = Ok {| status := 500; mimetype := "audio/mpeg"; content := NoBody;
             emotion_codes_header := Some (join_codes [0]) |}.
Proof.
  intros Hflag Hset Ht Hs Hm Hr Hclean. split.
  - now rewrite (backend_process_empty_reply db env _ w Hflag Hset Hm Hr Hclean).
  - unfold Backend.interact_audio_endpoint, bind, get, try_except.
    rewrite Hflag. destruct Hset as (Hc & Hset).
    destruct (Backend.client (globals w)) as [c|] eqn:Ec; [|contradiction].
    simpl. unfold perform. rewrite Ht.
    destruct (strip text) as [|a l] eqn:Es; [contradiction|].
    cbn [truthy negb].
    rewrite backend_process_empty_reply; try assumption.
    + reflexivity.
    + unfold session_set. cbn [globals]. rewrite Ec.
      split; [discriminate | exact Hset].
Qed.

Lemma empty_reply_sample :
  fst (Backend.process_interaction_and_speak latin1
         (sample_env (u "Olá") (u "**")) (strip (u "Olá")) backend_ready)
  = Ok (None, Some [0])
  /\ fst (Backend.interact_audio_endpoint latin1
            (sample_env (u "Olá") (u "**")) (Some []) backend_ready)
     = Ok {| status := 500; mimetype := "audio/mpeg"; content := NoBody;
             emotion_codes_header := Some "0"%string |}.
Proof.
  apply (empty_reply_answer latin1 (sample_env (u "Olá") (u "**")) []
           (u "Olá") backend_ready);
    try reflexivity; try discriminate.
  repeat split; discriminate.
Defined.

(** The claim C4 as it was stated fails: the turn is answered as a
    failure, with status 500. *)
Lemma empty_reply_is_not_a_success :
  exists resp w',
    Backend.interact_audio_endpoint latin1 (sample_env (u "Olá") (u "**"))
      (Some []) backend_ready = (Ok resp, w')
    /\ Backend.clean_text_for_tts latin1 (strip (u "**")) = []
    /\ status resp <> 200.
Proof.
  eexists. eexists. split; [vm_compute; reflexivity|].
  split; [vm_compute; reflexivity | discriminate].
Qed.

(** C6, as the backend server has it.  Every answer of [POST
    /interact_audio] with status 200 carries emotion codes: the header is
    the comma-separated form of a non-empty sequence of codes, each of
    them 0, 1 or 2. *)
Theorem success_carries_codes (db : UnicodeDB) (env : Env)
  (file : option bytes) (w w' : World Backend.Globals) (resp : Response) :
  Backend.interact_audio_endpoint db env file w = (Ok resp, w') ->
  status resp = 200 ->
  exists codes,
    codes <> [] /\ Forall is_code codes
    /\ emotion_codes_header resp = Some (join_codes codes).
Proof.
  unfold Backend.interact_audio_endpoint, bind, get.
  destruct (_ || _).
  { intros H. injection H as <- _. discriminate. }
  destruct file as [audio|].
  2:{ intros H. injection H as <- _. discriminate. }
  unfold try_except, bind, attr.
  destruct (Backend.client (globals w)) as [c|].
  2:{ intros H. injection H as <- _. discriminate. }
  unfold ret at 1. unfold perform.
  destruct (transcribe env audio) as [text|e].
  2:{ intros H. injection H as <- _. discriminate. }
  destruct (truthy (strip text)); cbn [negb].
  - match goal with
    | |- context [Backend.process_interaction_and_speak db env ?t ?w1] =>
        destruct (backend_process_codes db env t w1) as (r & w2 & -> & Hc)
    end.
    destruct r as [[audio_out|] codes]; cbn [fst snd] in *.
    + intros H. injection H as <- _. intros _. cbn [emotion_codes_header].
      destruct codes as [[|c0 l]|].
      * exists [0]. repeat split; [discriminate | repeat constructor].
      * exists (c0 :: l). repeat split; [discriminate | exact Hc].
      * exists [0]. repeat split; [discriminate | repeat constructor].
    + intros H. injection H as <- _. discriminate.
  - intros H. injection H as <- _. intros _. exists [0].
    repeat split; [discriminate | repeat constructor].
Qed.

Lemma success_carries_codes_sample :
  exists codes,
    codes <> [] /\ Forall is_code codes
    /\ Some "1,0,2"%string = Some (join_codes codes).
Proof.
  apply (success_carries_codes latin1
           (sample_env (u "Olá") (u "Que dia feliz! Adeus. Que pena."))
           (Some []) backend_ready
           (snd (Backend.interact_audio_endpoint latin1
                   (sample_env (u "Olá") (u "Que dia feliz! Adeus. Que pena."))
                   (Some []) backend_ready))
           {| status := 200; mimetype := "audio/mpeg";
              content := Audio (u "Que dia feliz! Adeus. Que pena.");
              emotion_codes_header := Some "1,0,2"%string |});
    vm_compute; reflexivity.
Defined.

(** The claim C6 as it was stated fails in the local program: a
    successful answer without emotion codes. *)
Lemma local_success_without_codes :
  exists resp w',
    Local.interact_audio_endpoint latin1 (sample_env [] (u "Olá!"))
      (Some []) local_ready = (Ok resp, w')
    /\ status resp = 200
    /\ emotion_codes_header resp = None.
Proof.
  eexists. eexists. split; [vm_compute; reflexivity|].
  split; reflexivity.
Qed.

(** A turn, failed or not, leaves the session as it is: only the reply
    buffer changes. *)
Lemma process_same_session (db : UnicodeDB) (env : Env) (heard : str)
  (w : World Backend.Globals) :
  same_session (globals w)
    (globals (snd (Backend.process_interaction_and_speak db env heard w))).
Proof.
  unfold Backend.process_interaction_and_speak, bind, get.
  destruct (_ || _); [repeat split|].
  unfold modify, try_except, perform, Backend.run_assistant, bind.
  destruct (messages_create env); [|repeat split].
  rewrite backend_deliver. cbn [globals trace].
  destruct (snd (runs_stream env)); [repeat split|].
  unfold perform.
  cbn [globals trace Backend.full_response Backend.set_full_response].
  set (reply := Backend.clean_text_for_tts db _).
  destruct (truthy reply); [|repeat split].
  unfold Backend.text_to_speech_bytes, try_except, bind, perform.
  destruct (synthesize env reply); repeat split.
Qed.

Lemma interact_endpoint_same_session (db : UnicodeDB) (env : Env)
  (file : option bytes) (w : World Backend.Globals) :
  same_session (globals w)
    (globals (snd (Backend.interact_audio_endpoint db env file w))).
Proof.
  unfold Backend.interact_audio_endpoint, bind, get.
  destruct (_ || _); [repeat split|].
  destruct file as [audio|]; [|repeat split].
  unfold try_except, bind, attr.
  destruct (Backend.client (globals w)) as [c|]; [|repeat split].
  unfold ret at 1. unfold perform.
  destruct (transcribe env audio) as [text|e]; [|repeat split].
  destruct (truthy (strip text)); cbn [negb]; [|repeat split].
  match goal with
  | |- context [Backend.process_interaction_and_speak db env ?t ?w1] =>
      pose proof (process_same_session db env t w1) as H;
      destruct (backend_process_codes db env t w1) as (r & w2 & E & _);
      rewrite E in *
  end.
  cbn [snd globals] in H.
  destruct (fst r); exact H.
Qed.

Lemma interact_endpoint_keeps_inv (db : UnicodeDB) (env : Env)
  (file : option bytes) (w : World Backend.Globals) :
  session_inv (globals w) ->
  session_inv (globals (snd (Backend.interact_audio_endpoint db env file w))).
Proof.
  destruct (interact_endpoint_same_session db env file w)
    as (Hc & Hv & Ha & Ht & Hf).
  unfold session_inv, session_set, session_empty.
  rewrite Hc, Hv, Ha, Ht, Hf. tauto.
Qed.

(** ** Initialization *)

Ltac trace_tail :=
  cbn [globals trace]; rewrite <- ?app_assoc; cbn [app];
  eexists; split; [reflexivity|].

Ltac no_fatal :=
  let c := fresh "c" in
  let H := fresh "H" in
  intros c H; cbn [In] in H;
  repeat (destruct H as [H|H];
          [first [discriminate H | injection H as <-; reflexivity]|]);
  try contradiction.

Lemma backend_resolve_vector_store (env : Env) (w : World Backend.Globals) :
  exists new,
    trace (snd (Backend.resolve_vector_store env w)) = trace w ++ new
    /\ match fst (Backend.resolve_vector_store env w) with
       | Ok _ =>
           tolerated new
           /\ exists vs,
               globals (snd (Backend.resolve_vector_store env w))
               = Backend.set_vector_store (Some vs) (globals w)
       | Raise _ => True
       end.
Proof.
  unfold Backend.resolve_vector_store, bind, perform, modify, try_except, ret.
  destruct (vector_stores_list env) as [stores|e]; [|trace_tail; exact I].
  destruct (find _ stores) as [vs|].
  - trace_tail. split; [no_fatal | now exists vs].
  - cbn [globals trace].
    destruct (vector_stores_create env) as [vs|e]; [|trace_tail; exact I].
    destruct (path_exists env).
    + cbn [globals trace]. destruct (open_file env) as [[]|e].
      * destruct (upload_and_poll env) as [st|e]; trace_tail;
          (split; [no_fatal | now exists vs]).
      * trace_tail. split; [no_fatal | now exists vs].
    + trace_tail. split; [no_fatal | now exists vs].
Qed.

Lemma backend_resolve_assistant (env : Env) (w : World Backend.Globals) :
  exists new,
    trace (snd (Backend.resolve_assistant env w)) = trace w ++ new
    /\ match fst (Backend.resolve_assistant env w) with
       | Ok _ =>
           tolerated new
           /\ exists a,
               globals (snd (Backend.resolve_assistant env w))
               = Backend.set_assistant (Some a) (globals w)
       | Raise _ => True
       end.
Proof.
  unfold Backend.resolve_assistant, bind, perform, get, modify, attr, ret.
  destruct (assistants_list env) as [assistants|e]; [|trace_tail; exact I].
  cbn [globals trace].
  destruct (find _ assistants) as [a|].
  - destruct (instructions a) as [text|]; [|unfold raise; trace_tail; exact I].
    cbn [globals trace].
    match goal with
    | |- context [if ?b then _ else fun w => (Ok tt, w)] => destruct b
    end.
    + destruct (assistants_update env) as [[]|e]; trace_tail;
        [split; [no_fatal | now exists a] | exact I].
    + trace_tail. split; [no_fatal | now exists a].
  - destruct (assistants_create env) as [a|e]; [|trace_tail; exact I].
    trace_tail. split; [no_fatal | now exists a].
Qed.






(** The local program has no reset in its handler: after a failure the
    client and the vector store it had reached stay in the globals. *)
Example local_failure_keeps_components :
  exists w',
    Local.initialize_ai_components assistants_fail local_start = (Ok false, w')
    /\ Local.client (globals w') <> None
    /\ Local.vector_store (globals w') <> None.
Proof.
  eexists. split; [vm_compute; reflexivity|]. split; discriminate.
Qed.

(** The request of [POST /initialize_ai] as the view goes through it,
    when the session is not ready. *)
Lemma initialize_endpoint_steps (env : Env) (json : result pyvalue)
  (w : World Backend.Globals) :
  ready (globals w) = false ->
  Backend.initialize_ai_endpoint env json w
  = match json with
    | Raise e => (Raise e, w)
    | Ok data =>
        if negb (py_bool data)
        then (Ok (jsonify "error" "API key not provided" 400), w)
        else
          match key_in "api_key" data with
          | Raise e => (Raise e, w)
          | Ok false => (Ok (jsonify "error" "API key not provided" 400), w)
          | Ok true =>
              match item "api_key" data with
              | Raise e => (Raise e, w)
              | Ok value =>
                  match strip_method value with
                  | Raise e => (Raise e, w)
                  | Ok api_key =>
                      if negb (truthy (strip api_key))
                      then (Ok (jsonify "error" "Empty API key received"
                                  400), w)
                      else
                        (ok <- Backend.initialize_ai_components env api_key ;;
                         if ok
                         then modify (Backend.set_ai_initialized_successfully
                                        true) ;;
                              ret (jsonify "message"
                                     "AI initialized successfully" 200)
                         else modify (Backend.set_ai_initialized_successfully
                                        false) ;;
                              ret (jsonify "error"
                                     "AI initialization failed on server"
                                     500)) w
                  end
              end
          end
    end.
Proof.
  unfold ready. intros Eg.
  unfold Backend.initialize_ai_endpoint. unfold bind at 1, get.
  rewrite Eg. unfold bind at 1, lift at 1.
  destruct json as [data|e]; [|reflexivity].
  unfold bind at 1.
  destruct (py_bool data); cbn [negb]; [|reflexivity].
  unfold bind at 1, lift at 1.
  destruct (key_in "api_key" data) as [[|]|e]; try reflexivity.
  unfold ret at 1. cbn [negb]. unfold bind at 1, lift at 1.
  destruct (item "api_key" data) as [value|e]; [|reflexivity].
  unfold bind at 1, lift at 1.
  destruct (strip_method value) as [api_key|e]; [|reflexivity].
  destruct (truthy (strip api_key)); reflexivity.
Qed.

(** The endpoints keep the session whole or absent, so that
    [initialize_ai_components] is only ever started without a session. *)
Lemma initialize_endpoint_keeps_inv (env : Env) (json : result pyvalue)
  (w : World Backend.Globals) :
  session_inv (globals w) ->
  session_inv (globals (snd (Backend.initialize_ai_endpoint env json w))).
Proof.
  intros Hinv.
  destruct (ready (globals w)) eqn:Eg.
  { unfold Backend.initialize_ai_endpoint, bind, get.
    unfold ready in Eg. rewrite Eg. exact Hinv. }
  rewrite (initialize_endpoint_steps env json w Eg). unfold ready in Eg.
  destruct json as [data|e]; [|exact Hinv].
  destruct (py_bool data); cbn [negb]; [|exact Hinv].
  destruct (key_in "api_key" data) as [[|]|e]; try exact Hinv.
  destruct (item "api_key" data) as [value|e]; [|exact Hinv].
  destruct (strip_method value) as [api_key|e]; [|exact Hinv].
  destruct (truthy (strip api_key)); cbn [negb]; [|exact Hinv].
  unfold bind.
  assert (He : session_empty (globals w)).
  { destruct Hinv as [(Hf & Hc & _)|(_ & He)]; [|exact He].
    rewrite Hf in Eg. destruct (Backend.client (globals w)); [discriminate|].
    contradiction. }
  unfold Backend.initialize_ai_components.
  destruct (truthy api_key); cbn [negb].
  2:{ cbn. right. split; [reflexivity|]. exact He. }
  unfold try_except, bind, perform, modify, ret. cbn [globals trace].
  destruct (new_client env api_key) as [new|e].
  2:{ cbn. right. repeat split. }
  destruct (models_list env) as [[]|e]; cbn [negb globals trace].
  2:{ destruct He as (_ & Hv & Ha & Ht). cbn. right. repeat split; assumption. }
  match goal with
  | |- context [Backend.resolve_vector_store env ?w2] =>
      destruct (backend_resolve_vector_store env w2) as (new1 & T1 & S1);
      destruct (Backend.resolve_vector_store env w2) as [r1 w3]
  end.
  cbn [fst snd globals trace] in T1, S1.
  destruct r1 as [[]|e]; [|cbn; right; repeat split].
  destruct S1 as (_ & vs & G1).
  destruct (backend_resolve_assistant env w3) as (new2 & _ & S2).
  destruct (Backend.resolve_assistant env w3) as [r2 w4].
  cbn [fst snd] in S2.
  destruct r2 as [[]|e]; [|cbn; right; repeat split].
  destruct S2 as (_ & a & G2).
  destruct (threads_create env) as [th|e]; [|cbn; right; repeat split].
  cbn. rewrite G2, G1. cbn. left. repeat split; discriminate.
Qed.

Close Scope Z_scope.

(** ** The sanitizer *)

Lemma needs_chr (p : cp -> bool) : needs (Chr p) p.
Proof.
  intros prev t x H. apply in_ms_chr in H.
  destruct H as (c & t' & _ & Hp & ->). exists c. split; [now left | exact Hp].
Qed.

Lemma needs_plus (p : cp -> bool) : needs (Plus p) p.
Proof.
  intros prev t x H. apply in_ms_plus in H. destruct H as [Hall Hne].
  destruct (fst x) as [|c m]; [contradiction|].
  exists c. split; [now left|]. now inversion Hall.
Qed.

Lemma needs_cat_l (r1 r2 : regex) (p : cp -> bool) :
  needs r1 p -> needs (Cat r1 r2) p.
Proof.
  intros N prev t x H. apply in_ms_cat in H.
  destruct H as (x1 & x2 & H1 & _ & ->).
  destruct (N _ _ _ H1) as (c & Hc & Hp). exists c.
  split; [apply in_or_app; now left | exact Hp].
Qed.

Lemma needs_cat_r (r1 r2 : regex) (p : cp -> bool) :
  needs r2 p -> needs (Cat r1 r2) p.
Proof.
  intros N prev t x H. apply in_ms_cat in H.
  destruct H as (x1 & x2 & _ & H2 & ->).
  destruct (N _ _ _ H2) as (c & Hc & Hp). exists c.
  split; [apply in_or_app; now right | exact Hp].
Qed.

(** A text without the class is left as it is. *)
Lemma re_sub_absent (r : regex) (p : cp -> bool) (repl : option str -> str)
  (x : str) :
  consuming r = true -> needs r p ->
  Forall (fun c => p c = false) x -> re_sub r repl x = x.
Proof.
  intros C N. unfold re_sub. fold (written repl (scan r None x O)).
  apply (scan_ind r (fun prev t ks =>
                       Forall (fun c => p c = false) t ->
                       written repl ks = t)); [exact C | | | ].
  - reflexivity.
  - intros prev c t _ IH F. inversion F; subst. simpl. now rewrite IH.
  - intros prev m g alts rest _ E _ F. exfalso.
    assert (H : In (m, g) (ms r prev (m ++ rest))) by (rewrite E; now left).
    destruct (N _ _ _ H) as (c & Hc & Hp). simpl in Hc.
    rewrite Forall_forall in F.
    rewrite (F c (in_or_app _ _ _ (or_introl Hc))) in Hp. discriminate.
Qed.

(** With a constant replacement, nothing else is written than characters
    of the text and of the replacement. *)
Lemma re_sub_chars (r : regex) (s x : str) (c : cp) :
  consuming r = true ->
  In c (re_sub r (const s) x) -> In c x \/ In c s.
Proof.
  intros C. unfold re_sub. fold (written (const s) (scan r None x O)).
  apply (scan_ind r (fun prev t ks =>
                       In c (written (const s) ks) -> In c t \/ In c s));
    [exact C | | | ].
  - intros _ [].
  - intros prev a t _ IH [<-|H]; [left; now left|].
    destruct (IH H) as [H'|H']; [left; now right | now right].
  - intros prev m g alts rest _ _ IH H. simpl in H.
    apply in_app_or in H. destruct H as [H|H]; [now right|].
    destruct (IH H) as [H'|H']; [left; apply in_or_app; now right | now right].
Qed.

Lemma inits_nonempty (t : str) : inits t <> [].
Proof. destruct t; discriminate. Qed.

Lemma plus_none (p : cp -> bool) (prev : option cp) (c : cp) (t : str) :
  ms (Plus p) prev (c :: t) = [] -> p c = false.
Proof.
  simpl. destruct (p c); [|reflexivity]. simpl. intros H.
  apply map_eq_nil in H. apply (f_equal (@rev str)) in H.
  rewrite rev_involutive in H. apply map_eq_nil in H.
  now apply inits_nonempty in H.
Qed.

Lemma chr_none (p : cp -> bool) (prev : option cp) (c : cp) (t : str) :
  ms (Chr p) prev (c :: t) = [] -> p c = false.
Proof. simpl. destruct (p c); [discriminate | reflexivity]. Qed.

(** Deleting the matches of [p+], or of [p], leaves no character of [p]. *)
Lemma re_sub_plus_removes (p : cp -> bool) (x : str) :
  Forall (fun c => p c = false) (re_sub (Plus p) (const []) x).
Proof.
  unfold re_sub. fold (written (const []) (scan (Plus p) None x O)).
  apply (scan_ind (Plus p)
           (fun prev t ks =>
              Forall (fun c => p c = false) (written (const []) ks)));
    [reflexivity | | | ].
  - constructor.
  - intros prev c t E IH. simpl. constructor; [|exact IH].
    exact (plus_none _ _ _ _ E).
  - intros prev m g alts rest _ _ IH. exact IH.
Qed.

Lemma re_sub_chr_removes (p : cp -> bool) (x : str) :
  Forall (fun c => p c = false) (re_sub (Chr p) (const []) x).
Proof.
  unfold re_sub. fold (written (const []) (scan (Chr p) None x O)).
  apply (scan_ind (Chr p)
           (fun prev t ks =>
              Forall (fun c => p c = false) (written (const []) ks)));
    [reflexivity | | | ].
  - constructor.
  - intros prev c t E IH. simpl. constructor; [|exact IH].
    exact (chr_none _ _ _ _ E).
  - intros prev m g alts rest _ _ IH. exact IH.
Qed.

Lemma inits_last (l : str) : exists pre, inits l = pre ++ [l].
Proof.
  induction l as [|c l (pre & IH)]; simpl.
  - now exists [].
  - exists ([] :: map (cons c) pre). rewrite IH, map_app. reflexivity.
Qed.

(** The first candidate of [p+] is the whole run. *)
Lemma plus_first (p : cp -> bool) (prev : option cp) (t m : str)
  (g : option str) (alts : list cand) :
  ms (Plus p) prev t = (m, g) :: alts -> m = span p t.
Proof.
  simpl. destruct (span p t) as [|c l]; [discriminate|].
  simpl. destruct (inits_last l) as (pre & ->).
  rewrite map_app, rev_app_distr. simpl. intros H. now injection H.
Qed.

Lemma span_rest (p : cp -> bool) (t rest : str) :
  t = span p t ++ rest -> opt_test p (hd_error rest) = false.
Proof.
  revert rest. induction t as [|c t IH]; simpl; intros rest H.
  - now subst rest.
  - destruct (p c) eqn:E.
    + simpl in H. injection H as H. exact (IH _ H).
    + simpl in H. subst rest. exact E.
Qed.

Lemma single_spaced_weaken (s : str) :
  single_spaced true s = true -> single_spaced false s = true.
Proof.
  destruct s as [|c s]; simpl; [reflexivity|].
  destruct (is_space c); [|tauto].
  rewrite andb_false_r. discriminate.
Qed.

Lemma single_spaced_tail (b : bool) (c : cp) (s : str) :
  single_spaced b (c :: s) = true -> single_spaced false s = true.
Proof.
  simpl. destruct (is_space c); [|tauto].
  intros H. apply andb_prop in H. apply single_spaced_weaken, H.
Qed.

Lemma single_spaced_lstrip (s : str) :
  forall b, single_spaced b s = true -> single_spaced false (lstrip s) = true.
Proof.
  induction s as [|c s IH]; intros b H; [reflexivity|].
  simpl lstrip. destruct (is_space c) eqn:E.
  - apply (IH false). exact (single_spaced_tail _ _ _ H).
  - simpl in *. now rewrite E in *.
Qed.

Lemma single_spaced_prefix (s r : str) :
  forall b, single_spaced b (s ++ r) = true -> single_spaced b s = true.
Proof.
  induction s as [|c s IH]; intros b H; [reflexivity|].
  simpl in *. destruct (is_space c).
  - apply andb_prop in H. destruct H as [H1 H2].
    rewrite H1. exact (IH _ H2).
  - exact (IH _ H).
Qed.

Lemma single_spaced_strip (s : str) :
  single_spaced false s = true -> single_spaced false (strip s) = true.
Proof.
  intros H. apply single_spaced_lstrip in H. unfold strip.
  destruct (rstrip_split (lstrip s)) as (sp & E & _).
  rewrite E in H. exact (single_spaced_prefix _ _ _ H).
Qed.

Lemma single_spaced_no_newline (s : str) :
  forall b, single_spaced b s = true ->
            Forall (fun c => N.eqb newline c = false) s.
Proof.
  induction s as [|c s IH]; intros b H; [constructor|].
  simpl in H. destruct (is_space c) eqn:E.
  - apply andb_prop in H. destruct H as [H1 H2].
    apply andb_prop in H1. destruct H1 as [H1 _].
    apply N.eqb_eq in H1. subst c. constructor; [reflexivity|].
    exact (IH _ H2).
  - constructor; [|exact (IH _ H)].
    destruct (N.eqb_spec newline c) as [<-|]; [discriminate E | reflexivity].
Qed.

(** After [re.sub(r"\s+", " ", text)] white space is single U+0020. *)
Lemma collapse_single_spaced (x : str) :
  single_spaced false (re_sub (Plus is_space) (const space) x) = true.
Proof.
  unfold re_sub. fold (written (const space) (scan (Plus is_space) None x O)).
  apply (scan_ind (Plus is_space)
           (fun prev t ks =>
              single_spaced false (written (const space) ks) = true
              /\ (opt_test is_space (hd_error t) = false ->
                  single_spaced true (written (const space) ks) = true)));
    [reflexivity | | | ].
  - intros _. split; reflexivity.
  - intros prev c t E [IH _]. apply plus_none in E. simpl. rewrite E.
    split; [exact IH | intros _; exact IH].
  - intros prev m g alts rest Hm E [_ IH].
    pose proof (plus_first _ _ _ _ _ _ E) as Em.
    assert (Hr : opt_test is_space (hd_error rest) = false).
    { apply (span_rest is_space (m ++ rest)). now rewrite <- Em. }
    split.
    + simpl. now rewrite IH.
    + intros H. exfalso. destruct m as [|c m]; [contradiction|].
      simpl in H. pose proof (span_all is_space ((c :: m) ++ rest)) as F.
      rewrite <- Em in F. inversion F; subst. congruence.
Qed.

(** A text whose white space is single U+0020 is left as it is. *)
Lemma collapse_fixed (y : str) :
  single_spaced false y = true ->
  re_sub (Plus is_space) (const space) y = y.
Proof.
  unfold re_sub. fold (written (const space) (scan (Plus is_space) None y O)).
  apply (scan_ind (Plus is_space)
           (fun prev t ks =>
              single_spaced false t = true ->
              written (const space) ks = t));
    [reflexivity | | | ].
  - reflexivity.
  - intros prev c t E IH H. simpl. f_equal. apply IH.
    exact (single_spaced_tail _ _ _ H).
  - intros prev m g alts rest Hm E IH H.
    pose proof (plus_first _ _ _ _ _ _ E) as Em.
    destruct m as [|c m]; [contradiction|].
    simpl in Em. destruct (is_space c) eqn:Ec; [|discriminate].
    injection Em as Em.
    simpl in H. rewrite Ec in H. apply andb_prop in H. destruct H as [H1 H2].
    apply andb_prop in H1. destruct H1 as [H1 _]. apply N.eqb_eq in H1.
    assert (Hm' : m = []).
    { destruct m as [|a m]; [reflexivity|]. exfalso.
      simpl in Em. destruct (is_space a) eqn:Ea; [|discriminate].
      simpl in H2. rewrite Ea, andb_false_r in H2. discriminate. }
    subst m c. simpl in *. f_equal. apply IH.
    exact (single_spaced_weaken _ H2).
Qed.

Lemma strip_incl (s : str) (c : cp) : In c (strip s) -> In c s.
Proof.
  unfold strip. intros H.
  destruct (lstrip_split s) as (sp1 & E1 & _).
  destruct (rstrip_split (lstrip s)) as (sp2 & E2 & _).
  rewrite E1, E2. apply in_or_app. right. apply in_or_app. now left.
Qed.

Lemma strip_strip (s : str) : strip (strip s) = strip s.
Proof.
  unfold strip at 1. rewrite (lstrip_fixed (strip s)).
  - apply rstrip_fixed.
    destruct (hd_error (rev (strip s))) as [c|] eqn:E; [|reflexivity].
    exact (strip_last _ _ E).
  - destruct (hd_error (strip s)) as [c|] eqn:E; [|reflexivity].
    exact (strip_head _ _ E).
Qed.

Lemma in_ms_cat_group (r1 r2 : regex) (prev : option cp) (t : str)
  (x : cand) :
  In x (ms (Cat r1 r2) prev t) ->
  exists x1 x2,
    In x1 (ms r1 prev t)
    /\ In x2 (ms r2 (last_of (fst x1) prev) (skipn (length (fst x1)) t))
    /\ fst x = fst x1 ++ fst x2
    /\ snd x = match snd x2 with Some g => Some g | None => snd x1 end.
Proof.
  simpl. intros H. apply in_flat_map in H. destruct H as (x1 & H1 & H).
  apply in_map_iff in H. destruct H as (x2 & <- & H2).
  exists x1, x2. repeat split; assumption.
Qed.

Lemma in_zero_width (b : bool) (x : cand) :
  In x (zero_width b) -> x = ([], None).
Proof. destruct b; simpl; [intros [<-|[]]; reflexivity | contradiction]. Qed.

(** The group of a match is a part of the match. *)
Lemma group_within (r : regex) :
  forall prev t x,
    In x (ms r prev t) -> (length (group1 (snd x)) <= length (fst x))%nat.
Proof.
  induction r as [|p|p|p|p| |w|p|r IH|r1 IH1 r2 IH2]; intros prev t x H.
  - destruct H as [<-|[]]. simpl. lia.
  - simpl in H. destruct t as [|c t]; [contradiction|].
    destruct (p c); [|contradiction]. destruct H as [<-|[]]. simpl. lia.
  - simpl in H. apply in_map_iff in H. destruct H as (m & <- & _). simpl. lia.
  - simpl in H. apply in_map_iff in H. destruct H as (m & <- & _). simpl. lia.
  - simpl in H. apply in_map_iff in H. destruct H as (m & <- & _). simpl. lia.
  - apply in_zero_width in H. subst x. simpl. lia.
  - apply in_zero_width in H. subst x. simpl. lia.
  - apply in_zero_width in H. subst x. simpl. lia.
  - simpl in H. apply in_map_iff in H. destruct H as (x' & <- & _).
    simpl. lia.
  - destruct (in_ms_cat_group _ _ _ _ _ H) as (x1 & x2 & H1 & H2 & Ef & Es).
    specialize (IH1 _ _ _ H1). specialize (IH2 _ _ _ H2).
    rewrite Ef, Es, length_app. destruct (snd x2); simpl in *; lia.
Qed.

(** The four emphasis patterns start with a marker outside their group:
    what [r"\1"] writes is shorter than the match. *)
Lemma shortens_chr_cat (p : cp -> bool) (r : regex) :
  shortens (Cat (Chr p) r) group1.
Proof.
  intros prev t x H.
  destruct (in_ms_cat_group _ _ _ _ _ H) as (x1 & x2 & H1 & H2 & Ef & Es).
  simpl in H1. destruct t as [|c t]; [contradiction|].
  destruct (p c); [|contradiction]. destruct H1 as [<-|[]].
  pose proof (group_within r _ _ _ H2) as L.
  rewrite Ef, Es, length_app. destruct (snd x2); simpl in *; lia.
Qed.

Lemma shortens_const (r : regex) :
  consuming r = true -> shortens r (const []).
Proof.
  intros C prev t x H. pose proof (consuming_sound r C _ _ _ H) as Hne.
  destruct (fst x); [contradiction | simpl; lia].
Qed.

Lemma no_longer_space (r : regex) :
  consuming r = true -> no_longer r (const space).
Proof.
  intros C prev t x H. pose proof (consuming_sound r C _ _ _ H) as Hne.
  destruct (fst x); [contradiction | simpl; lia].
Qed.

Lemma shortens_no_longer (r : regex) (repl : option str -> str) :
  shortens r repl -> no_longer r repl.
Proof. intros S prev t x H. specialize (S _ _ _ H). lia. Qed.

(** A substitution that writes no more than it takes does not lengthen
    the text; one that writes less shortens it, unless nothing matches. *)
Lemma re_sub_length (r : regex) (repl : option str -> str) (t : str) :
  consuming r = true -> no_longer r repl ->
  (length (re_sub r repl t) <= length t)%nat.
Proof.
  intros C N. unfold re_sub. fold (written repl (scan r None t O)).
  apply (scan_ind r (fun prev t ks =>
                       (length (written repl ks) <= length t)%nat));
    [exact C | | | ].
  - intros prev. simpl. lia.
  - intros prev c t' _ IH. simpl. lia.
  - intros prev m g alts rest _ E IH.
    assert (H : In (m, g) (ms r prev (m ++ rest))) by (rewrite E; now left).
    pose proof (N _ _ _ H) as L. simpl in L.
    simpl. rewrite !length_app. lia.
Qed.

Lemma re_sub_same_length (r : regex) (repl : option str -> str) (t : str) :
  consuming r = true -> shortens r repl ->
  length (re_sub r repl t) = length t -> unmatched r t = true.
Proof.
  intros C S. unfold re_sub, unmatched.
  fold (written repl (scan r None t O)).
  enough (H : (length (written repl (scan r None t O)) <= length t)%nat
              /\ (length (written repl (scan r None t O)) = length t ->
                  hits (scan r None t O) = [])).
  { intros E. now rewrite (proj2 H E). }
  apply (scan_ind r (fun prev t ks =>
                       (length (written repl ks) <= length t)%nat
                       /\ (length (written repl ks) = length t ->
                           hits ks = [])));
    [exact C | | | ].
  - intros prev. split; [simpl; lia | reflexivity].
  - intros prev c t' _ [IH1 IH2]. split; [simpl; lia|].
    intros E. simpl in E. injection E as E. exact (IH2 E).
  - intros prev m g alts rest _ E [IH1 _].
    assert (H : In (m, g) (ms r prev (m ++ rest))) by (rewrite E; now left).
    pose proof (S _ _ _ H) as L. simpl in L.
    simpl. rewrite !length_app. split; lia.
Qed.

Lemma re_sub_unmatched (r : regex) (repl : option str -> str) (t : str) :
  consuming r = true -> unmatched r t = true -> re_sub r repl t = t.
Proof.
  intros C. unfold re_sub, unmatched.
  fold (written repl (scan r None t O)).
  enough (H : hits (scan r None t O) = [] ->
              written repl (scan r None t O) = t).
  { destruct (hits (scan r None t O)); [intros _; now apply H | discriminate]. }
  apply (scan_ind r (fun prev t ks => hits ks = [] -> written repl ks = t));
    [exact C | | | ].
  - reflexivity.
  - intros prev c t' _ IH H. simpl. f_equal. apply IH. exact H.
  - intros prev m g alts rest _ _ _ H. discriminate H.
Qed.

Lemma strip_length (s : str) : (length (strip s) <= length s)%nat.
Proof.
  unfold strip.
  destruct (lstrip_split s) as (sp1 & E1 & _).
  destruct (rstrip_split (lstrip s)) as (sp2 & E2 & _).
  rewrite E1 at 2. rewrite E2 at 2. rewrite !length_app. lia.
Qed.

Lemma rinse_length (t : str) : (length (rinse t) <= length t)%nat.
Proof.
  unfold rinse, collapse_spaces.
  set (y1 := re_sub (Plus Backend.is_emoji) (const []) t).
  set (y2 := re_sub (Chr Backend.is_symbol) (const []) y1).
  set (y3 := re_sub (Plus (N.eqb newline)) (const space) y2).
  set (z := re_sub (Plus is_space) (const space) y3).
  assert (L1 : (length y1 <= length t)%nat).
  { apply re_sub_length; [reflexivity|].
    apply shortens_no_longer, shortens_const. reflexivity. }
  assert (L2 : (length y2 <= length y1)%nat).
  { apply re_sub_length; [reflexivity|].
    apply shortens_no_longer, shortens_const. reflexivity. }
  assert (L3 : (length y3 <= length y2)%nat).
  { apply re_sub_length; [reflexivity|]. apply no_longer_space. reflexivity. }
  assert (L4 : (length z <= length y3)%nat).
  { apply re_sub_length; [reflexivity|]. apply no_longer_space. reflexivity. }
  pose proof (strip_length z). lia.
Qed.

(** What the last four substitutions return, they leave as it is. *)
Lemma rinse_fixed (t : str) : rinse (rinse t) = rinse t.
Proof.
  unfold rinse at 2 3. unfold collapse_spaces.
  set (y1 := re_sub (Plus Backend.is_emoji) (const []) t).
  set (y2 := re_sub (Chr Backend.is_symbol) (const []) y1).
  set (y3 := re_sub (Plus (N.eqb newline)) (const space) y2).
  set (z := re_sub (Plus is_space) (const space) y3).
  assert (Hz : forall c, In c (strip z) -> In c y2 \/ c = 32).
  { intros c H. apply strip_incl in H. apply re_sub_chars in H; [|reflexivity].
    destruct H as [H|[ <- |[]]]; [|now right].
    apply re_sub_chars in H; [|reflexivity].
    destruct H as [H|[ <- |[]]]; [now left | now right]. }
  assert (Hspaced : single_spaced false (strip z) = true).
  { apply single_spaced_strip, collapse_single_spaced. }
  assert (Hemoji : Forall (fun c => Backend.is_emoji c = false) (strip z)).
  { apply Forall_forall. intros c H. destruct (Hz c H) as [H'| ->];
      [|reflexivity].
    apply re_sub_chars in H'; [|reflexivity]. destruct H' as [H'|[]].
    pose proof (re_sub_plus_removes Backend.is_emoji t) as F.
    rewrite Forall_forall in F. exact (F c H'). }
  assert (Hsymbol : Forall (fun c => Backend.is_symbol c = false) (strip z)).
  { apply Forall_forall. intros c H. destruct (Hz c H) as [H'| ->];
      [|reflexivity].
    pose proof (re_sub_chr_removes Backend.is_symbol y1) as F.
    rewrite Forall_forall in F. exact (F c H'). }
  unfold rinse.
  rewrite (re_sub_absent (Plus Backend.is_emoji) _ _ _ eq_refl
             (needs_plus _) Hemoji).
  rewrite (re_sub_absent (Chr Backend.is_symbol) _ _ _ eq_refl
             (needs_chr _) Hsymbol).
  rewrite (re_sub_absent (Plus (N.eqb newline)) _ _ _ eq_refl
             (needs_plus _) (single_spaced_no_newline _ _ Hspaced)).
  unfold collapse_spaces. rewrite (collapse_fixed _ Hspaced).
  apply strip_strip.
Qed.

(** The sanitizer never lengthens a text, and it keeps the length only
    of a text in which no markup pattern matches. *)
Lemma clean_text_length (db : UnicodeDB) (t : str) :
  (length (Backend.clean_text_for_tts db t) <= length t)%nat
  /\ (length (Backend.clean_text_for_tts db t) = length t ->
      settled db t = true).
Proof.
  change (Backend.clean_text_for_tts db t)
    with (rinse (strip_numbering db
                   (strip_bullets
                      (Backend.strip_backticks
                         (strip_underscores (strip_italic (strip_bold t))))))).
  set (t1 := strip_bold t).
  set (t2 := strip_italic t1).
  set (t3 := strip_underscores t2).
  set (t4 := Backend.strip_backticks t3).
  set (t5 := strip_bullets t4).
  set (t6 := strip_numbering db t5).
  pose proof (re_sub_length bold group1 t eq_refl
                (shortens_no_longer _ _ (shortens_chr_cat _ _))) as L1.
  pose proof (re_sub_length italic group1 t1 eq_refl
                (shortens_no_longer _ _ (shortens_chr_cat _ _))) as L2.
  pose proof (re_sub_length underscores group1 t2 eq_refl
                (shortens_no_longer _ _ (shortens_chr_cat _ _))) as L3.
  pose proof (re_sub_length Backend.backticks group1 t3 eq_refl
                (shortens_no_longer _ _ (shortens_chr_cat _ _))) as L4.
  pose proof (re_sub_length bullets (const []) t4 eq_refl
                (shortens_no_longer _ _ (shortens_const bullets eq_refl)))
    as L5.
  pose proof (re_sub_length (numbering db) (const []) t5 eq_refl
                (shortens_no_longer _ _
                   (shortens_const (numbering db) eq_refl))) as L6.
  pose proof (rinse_length t6) as L7.
  fold (strip_bold t) in L1. fold t1 in L1.
  fold (strip_italic t1) in L2. fold t2 in L2.
  fold (strip_underscores t2) in L3. fold t3 in L3.
  fold (Backend.strip_backticks t3) in L4. fold t4 in L4.
  fold (strip_bullets t4) in L5. fold t5 in L5.
  fold (strip_numbering db t5) in L6. fold t6 in L6.
  split; [lia|]. intros E.
  assert (U1 : unmatched bold t = true).
  { apply (re_sub_same_length _ group1); [reflexivity | |].
    - apply shortens_chr_cat.
    - fold (strip_bold t). fold t1. lia. }
  assert (E1 : t1 = t) by (apply re_sub_unmatched; [reflexivity | exact U1]).
  assert (U2 : unmatched italic t1 = true).
  { apply (re_sub_same_length _ group1); [reflexivity | |].
    - apply shortens_chr_cat.
    - fold (strip_italic t1). fold t2. lia. }
  assert (E2 : t2 = t1) by (apply re_sub_unmatched; [reflexivity | exact U2]).
  assert (U3 : unmatched underscores t2 = true).
  { apply (re_sub_same_length _ group1); [reflexivity | |].
    - apply shortens_chr_cat.
    - fold (strip_underscores t2). fold t3. lia. }
  assert (E3 : t3 = t2) by (apply re_sub_unmatched; [reflexivity | exact U3]).
  assert (U4 : unmatched Backend.backticks t3 = true).
  { apply (re_sub_same_length _ group1); [reflexivity | |].
    - apply shortens_chr_cat.
    - fold (Backend.strip_backticks t3). fold t4. lia. }
  assert (E4 : t4 = t3) by (apply re_sub_unmatched; [reflexivity | exact U4]).
  assert (U5 : unmatched bullets t4 = true).
  { apply (re_sub_same_length _ (const [])); [reflexivity | |].
    - apply shortens_const. reflexivity.
    - fold (strip_bullets t4). fold t5. lia. }
  assert (E5 : t5 = t4) by (apply re_sub_unmatched; [reflexivity | exact U5]).
  assert (U6 : unmatched (numbering db) t5 = true).
  { apply (re_sub_same_length _ (const [])); [reflexivity | |].
    - apply shortens_const. reflexivity.
    - fold (strip_numbering db t5). fold t6. lia. }
  rewrite E5, E4, E3, E2, E1 in U6. rewrite E4, E3, E2, E1 in U5.
  rewrite E3, E2, E1 in U4. rewrite E2, E1 in U3. rewrite E1 in U2.
  unfold settled, markup_patterns. cbn [forallb].
  now rewrite U1, U2, U3, U4, U5, U6.
Qed.

(** A text in which no markup pattern matches goes through the first six
    substitutions as it is. *)
Lemma clean_text_settled (db : UnicodeDB) (t : str) :
  settled db t = true -> Backend.clean_text_for_tts db t = rinse t.
Proof.
  unfold settled, markup_patterns. cbn [forallb]. intros H.
  repeat (apply andb_prop in H; destruct H as [? H]).
  change (Backend.clean_text_for_tts db t)
    with (rinse (strip_numbering db
                   (strip_bullets
                      (Backend.strip_backticks
                         (strip_underscores (strip_italic (strip_bold t))))))).
  unfold strip_bold. rewrite (re_sub_unmatched bold); [|reflexivity|assumption].
  unfold strip_italic.
  rewrite (re_sub_unmatched italic); [|reflexivity|assumption].
  unfold strip_underscores.
  rewrite (re_sub_unmatched underscores); [|reflexivity|assumption].
  unfold Backend.strip_backticks.
  rewrite (re_sub_unmatched Backend.backticks); [|reflexivity|assumption].
  unfold strip_bullets.
  rewrite (re_sub_unmatched bullets); [|reflexivity|assumption].
  unfold strip_numbering.
  rewrite (re_sub_unmatched (numbering db)); [|reflexivity|assumption].
  reflexivity.
Qed.

(** C2, as the backend server has it.  The sanitizer is idempotent at a
    text exactly when the first pass has left no markup behind: a second
    pass returns what the first one returned if and only if none of the
    six markup patterns (bold, italic, underscores, backticks, bullets,
    numbering) matches in what the first one returned. *)
Theorem clean_text_idempotent_iff (db : UnicodeDB) (x : str) :
  Backend.clean_text_for_tts db (Backend.clean_text_for_tts db x)
  = Backend.clean_text_for_tts db x
  <-> settled db (Backend.clean_text_for_tts db x) = true.
Proof.
  split.
  - intros H. apply clean_text_length. now rewrite H.
  - intros H. rewrite (clean_text_settled db _ H).
    change (Backend.clean_text_for_tts db x)
      with (rinse (strip_numbering db
                     (strip_bullets
                        (Backend.strip_backticks
                           (strip_underscores
                              (strip_italic (strip_bold x))))))).
    apply rinse_fixed.
Qed.

Lemma clean_text_idempotent_sample :
  Backend.clean_text_for_tts latin1
    (Backend.clean_text_for_tts latin1
       (u "  **Olá!** O fado começa às 20h, traz o guarda-chuva. ★ "))
  = Backend.clean_text_for_tts latin1
      (u "  **Olá!** O fado começa às 20h, traz o guarda-chuva. ★ ").
Proof.
  apply (proj2 (clean_text_idempotent_iff latin1
                  (u "  **Olá!** O fado começa às 20h, traz o guarda-chuva. ★ "))).
  vm_compute. reflexivity.
Defined.

(** The claim C2 as it was stated fails: a second pass removes the
    underscores that the first one left. *)
Lemma clean_text_not_idempotent :
  Backend.clean_text_for_tts latin1 (u "__a__") = u "_a_"
  /\ Backend.clean_text_for_tts latin1
       (Backend.clean_text_for_tts latin1 (u "__a__")) = u "a"
  /\ Backend.clean_text_for_tts latin1
       (Backend.clean_text_for_tts latin1 (u "__a__"))
     <> Backend.clean_text_for_tts latin1 (u "__a__").
Proof.
  split; [vm_compute; reflexivity|].
  split; [vm_compute; reflexivity|].
  vm_compute. discriminate.
Qed.

(** In the local program the sanitizer never returns: the fourth pattern
    does not compile. *)
Example local_clean_text_raises (db : UnicodeDB) (text : str) :
  exists e, Local.clean_text_for_tts db text = Raise e.
Proof. eexists. reflexivity. Qed.

(** * Further properties *)

(** ** Segmenter and scorer *)

Lemma sentence_split_elems (text s : str) :
  In s (sentence_split text) ->
  truthy s = true /\ opt_test is_space (hd_error s) = false.
Proof.
  unfold sentence_split. intros H.
  apply in_map_iff in H. destruct H as (p & <- & H).
  apply filter_In in H. destruct H as [_ H]. split; [exact H|].
  destruct (hd_error (strip p)) as [c|] eqn:E; [|reflexivity].
  simpl. exact (strip_head _ _ E).
Qed.

Lemma filter_not_space_nil (t : str) :
  filter not_space t = [] <-> Forall (fun c => is_space c = true) t.
Proof.
  induction t as [|c t IH]; simpl.
  - split; [constructor | reflexivity].
  - unfold not_space at 1. destruct (is_space c) eqn:E; simpl.
    + rewrite IH. split; intros H; [now constructor | now inversion H].
    + split; [discriminate|]. intros H. inversion H; subst. congruence.
Qed.

Lemma sentence_split_blank (text : str) :
  sentence_split text = [] <-> Forall (fun c => is_space c = true) text.
Proof.
  rewrite <- filter_not_space_nil, <- sentence_split_not_space. split.
  - now intros ->.
  - intros H. destruct (sentence_split text) as [|s l] eqn:E; [reflexivity|].
    exfalso. destruct (sentence_split_elems text s) as [Hs Hh].
    { rewrite E. now left. }
    destruct s as [|c s]; [discriminate|]. simpl in Hh, H.
    unfold not_space at 1 in H. rewrite Hh in H. discriminate.
Qed.

Lemma analyze_text_map (db : UnicodeDB) (text : str) :
  analyze_text db text
  = map (fun s => (s, detect_emotion db s)) (sentence_split text).
Proof.
  unfold analyze_text.
  assert (H : forall s, In s (sentence_split text) -> truthy s = true).
  { intros s Hs. exact (proj1 (sentence_split_elems text s Hs)). }
  induction (sentence_split text) as [|s l IH]; [reflexivity|].
  simpl. rewrite (H s (or_introl eq_refl)). simpl. f_equal.
  apply IH. intros s' Hs'. apply H. now right.
Qed.

(** X1. [analyze_text] returns exactly the sentences of [sentence_split],
    in their order, each with the code [detect_emotion] gives it; the test
    [if sentence:] of its loop never drops anything. *)
Theorem analyze_text_pairs (db : UnicodeDB) (text : str) :
  map fst (analyze_text db text) = sentence_split text
  /\ map snd (analyze_text db text)
     = map (detect_emotion db) (sentence_split text)
  /\ length (analyze_text db text) = length (sentence_split text).
Proof.
  rewrite analyze_text_map. rewrite !map_map, length_map. simpl.
  split; [apply map_id|]. split; reflexivity.
Qed.

(** X2. [sentence_split] returns no sentence at all exactly when the text
    is empty or white space only. *)
Theorem sentence_split_empty_iff_blank (text : str) :
  sentence_split text = [] <-> forallb is_space text = true.
Proof.
  rewrite sentence_split_blank, forallb_forall, Forall_forall. reflexivity.
Qed.

Lemma replace_absent (old : cp) (new s : str) :
  Forall (fun c => (c =? old) = false) s -> replace old new s = s.
Proof.
  unfold replace. induction 1 as [|c s Hc _ IH]; [reflexivity|].
  simpl. rewrite Hc, IH. reflexivity.
Qed.

Lemma pieces_copies (t cur : str) :
  pieces (map Copy t) cur = [rev cur ++ t].
Proof.
  revert cur. induction t as [|c t IH]; intros cur; simpl.
  - now rewrite app_nil_r.
  - rewrite IH. simpl. now rewrite <- app_assoc.
Qed.

Lemma scan_without_marks (t : str) (prev : option cp) :
  opt_test is_terminal prev = false ->
  Forall (fun c => is_terminal c = false) t ->
  scan sentence_boundary prev t O = map Copy t.
Proof.
  apply (scan_ind sentence_boundary
           (fun prev t ks =>
              opt_test is_terminal prev = false ->
              Forall (fun c => is_terminal c = false) t ->
              ks = map Copy t)); [reflexivity | | | ]; clear t prev.
  - reflexivity.
  - intros prev c t _ IH _ F. inversion F; subst. simpl. f_equal.
    now apply IH.
  - intros prev m g alts rest _ E _ Hp _.
    rewrite (sentence_boundary_behind _ _ Hp) in E. discriminate.
Qed.

(** X3. A text without [.], [!] and [?] is one sentence: [sentence_split]
    returns the stripped text alone, or nothing when that is empty. *)
Theorem sentence_split_without_marks (text : str) :
  forallb (fun c => negb (is_terminal c)) text = true ->
  sentence_split text = if truthy (strip text) then [strip text] else [].
Proof.
  intros H.
  assert (F : Forall (fun c => is_terminal c = false) text).
  { apply Forall_forall. intros c Hc. rewrite forallb_forall in H.
    apply H in Hc. now destruct (is_terminal c). }
  assert (R : forall mark, is_terminal mark = true ->
                forall new, replace mark new text = text).
  { intros mark Hm new. apply replace_absent.
    eapply Forall_impl; [|exact F]. intros c Hc. cbv beta in Hc.
    destruct (N.eqb_spec c mark) as [->|]; [congruence | reflexivity]. }
  unfold sentence_split.
  rewrite (R full_stop eq_refl), (R exclamation eq_refl),
    (R question eq_refl).
  unfold re_split. rewrite (scan_without_marks text None eq_refl F).
  rewrite pieces_copies. simpl.
  destruct (truthy (strip text)); reflexivity.
Qed.

Lemma sentence_split_without_marks_sample :
  sentence_split (u "  bom dia, Gil  ") = [u "bom dia, Gil"].
Proof.
  apply (sentence_split_without_marks (u "  bom dia, Gil  ")).
  vm_compute. reflexivity.
Defined.

Lemma starts_with_app (w post : str) : starts_with w (w ++ post) = true.
Proof.
  induction w as [|c w IH]; [reflexivity|]. simpl.
  now rewrite N.eqb_refl, IH.
Qed.

Lemma occurs_in_app (w pre post : str) :
  occurs_in w (pre ++ w ++ post) = true.
Proof.
  induction pre as [|c pre IH].
  - simpl. destruct (w ++ post) eqn:E; simpl; rewrite <- E;
      now rewrite starts_with_app.
  - simpl. rewrite IH. apply orb_true_r.
Qed.

Lemma occurs_in_tail (w : str) (c : cp) (t : str) :
  occurs_in w (c :: t) = false -> occurs_in w t = false.
Proof. simpl. intros H. now apply orb_false_elim in H. Qed.

Lemma occurs_in_head (w t : str) :
  occurs_in w t = false -> starts_with w t = false.
Proof.
  destruct t; simpl; intros H; now apply orb_false_elim in H.
Qed.

(** A match of a literal begins with the literal. *)
Lemma lits_starts (w : str) (k : list regex) :
  forall prev t x,
    In x (ms (seq (lits w ++ k)) prev t) -> starts_with w t = true.
Proof.
  induction w as [|c w IH]; intros prev t x H; [reflexivity|].
  simpl in H. change (In x (ms (Cat (Chr (N.eqb c)) (seq (lits w ++ k)))
                             prev t)) in H.
  apply in_ms_cat in H. destruct H as (x1 & x2 & H1 & H2 & _).
  apply in_ms_chr in H1. destruct H1 as (a & t' & -> & Ha & E1).
  rewrite E1 in H2. simpl in H2. simpl. rewrite Ha.
  exact (IH _ _ _ H2).
Qed.

Lemma stem_starts (db : UnicodeDB) (w : str) (prev : option cp) (t : str)
  (x : cand) :
  In x (ms (stem_pattern db w) prev t) -> starts_with w t = true.
Proof.
  unfold stem_pattern. simpl app. simpl seq. intros H.
  apply in_ms_cat in H. destruct H as (x1 & x2 & H1 & H2 & _).
  assert (E : fst x1 = []).
  { simpl in H1. unfold zero_width in H1. destruct (xorb _ _); [|contradiction].
    destruct H1 as [<-|[]]. reflexivity. }
  rewrite E in H2. simpl in H2. exact (lits_starts _ _ _ _ _ H2).
Qed.

Lemma stem_consuming (db : UnicodeDB) (w : str) :
  truthy w = true -> consuming (stem_pattern db w) = true.
Proof. destruct w; [discriminate | reflexivity]. Qed.

Lemma findall_absent (db : UnicodeDB) (w t : str) :
  truthy w = true -> occurs_in w t = false ->
  re_findall (stem_pattern db w) t = [].
Proof.
  intros Hw. unfold re_findall.
  fold (hits (scan (stem_pattern db w) None t O)).
  apply (scan_ind (stem_pattern db w)
           (fun prev t ks => occurs_in w t = false -> hits ks = []));
    [exact (stem_consuming db w Hw) | | | ].
  - reflexivity.
  - intros prev c t' _ IH H. simpl. apply IH.
    exact (occurs_in_tail _ _ _ H).
  - intros prev m g alts rest _ E _ H. exfalso.
    assert (Hin : In (m, g) (ms (stem_pattern db w) prev (m ++ rest)))
      by (rewrite E; now left).
    apply stem_starts in Hin. apply occurs_in_head in H. congruence.
Qed.

Lemma score_of_absent (db : UnicodeDB) (words : list str) (t : str) :
  forallb truthy words = true ->
  existsb (fun w => occurs_in w t) words = false ->
  forall acc,
    fold_left
      (fun score word =>
         (score + Z.of_nat (length (re_findall (stem_pattern db word) t)))%Z)
      words acc = acc.
Proof.
  intros Hw H acc. revert acc Hw H.
  induction words as [|w words IH]; intros acc Hw H; [reflexivity|].
  simpl in *. apply andb_prop in Hw. destruct Hw as [Hw Hws].
  apply orb_false_elim in H. destruct H as [H Hs].
  rewrite (findall_absent db w t Hw H). simpl. rewrite Z.add_0_r.
  now apply IH.
Qed.

(** X4. A sentence in which, once lowered, none of the stems of the two
    lists occurs is Neutral: [detect_emotion] returns 0. *)
Theorem detect_emotion_without_stems (db : UnicodeDB) (text : str) :
  existsb (fun w => occurs_in w (lower db text)) (happy_words ++ sad_words)
  = false ->
  detect_emotion db text = 0%Z.
Proof.
  intros H. rewrite existsb_app in H. apply orb_false_elim in H.
  destruct H as [Hh Hs]. unfold detect_emotion.
  unfold score_of.
  rewrite (score_of_absent db happy_words _ eq_refl Hh).
  rewrite (score_of_absent db sad_words _ eq_refl Hs).
  reflexivity.
Qed.

Lemma detect_emotion_without_stems_sample :
  detect_emotion latin1 (u "O concerto foi às 20h na sala principal.") = 0%Z.
Proof.
  apply (detect_emotion_without_stems latin1
           (u "O concerto foi às 20h na sala principal.")).
  vm_compute. reflexivity.
Defined.


(** ** What the sanitizer returns *)

(** X5. Whatever the text, what the backend's [clean_text_for_tts] returns
    has no white space at either end, no white space inside other than
    single U+0020 (so no newline), no character of the emoji set and no
    character of the set of graphic symbols. *)
Theorem clean_text_normal_form (db : UnicodeDB) (x : str) :
  opt_test is_space (hd_error (Backend.clean_text_for_tts db x)) = false
  /\ opt_test is_space (hd_error (rev (Backend.clean_text_for_tts db x)))
     = false
  /\ single_spaced false (Backend.clean_text_for_tts db x) = true
  /\ Forall (fun c => N.eqb newline c = false
                      /\ Backend.is_emoji c = false
                      /\ Backend.is_symbol c = false)
            (Backend.clean_text_for_tts db x).
Proof.
  unfold Backend.clean_text_for_tts, collapse_spaces.
  set (t := strip_numbering db _).
  set (y1 := re_sub (Plus Backend.is_emoji) (const []) t).
  set (y2 := re_sub (Chr Backend.is_symbol) (const []) y1).
  set (y3 := re_sub (Plus (N.eqb newline)) (const space) y2).
  set (z := re_sub (Plus is_space) (const space) y3).
  assert (Hspaced : single_spaced false (strip z) = true).
  { apply single_spaced_strip, collapse_single_spaced. }
  assert (Hz : forall c, In c (strip z) -> In c y2 \/ c = 32).
  { intros c H. apply strip_incl in H. apply re_sub_chars in H; [|reflexivity].
    destruct H as [H|[ <- |[]]]; [|now right].
    apply re_sub_chars in H; [|reflexivity].
    destruct H as [H|[ <- |[]]]; [now left | now right]. }
  split; [|split; [|split; [exact Hspaced|]]].
  - destruct (hd_error (strip z)) as [c|] eqn:E; [|reflexivity].
    exact (strip_head _ _ E).
  - destruct (hd_error (rev (strip z))) as [c|] eqn:E; [|reflexivity].
    exact (strip_last _ _ E).
  - pose proof (single_spaced_no_newline _ _ Hspaced) as Hn.
    rewrite Forall_forall in Hn. apply Forall_forall. intros c Hc.
    split; [exact (Hn c Hc)|].
    destruct (Hz c Hc) as [H| ->]; [|split; reflexivity]. split.
    + apply re_sub_chars in H; [|reflexivity]. destruct H as [H|[]].
      pose proof (re_sub_plus_removes Backend.is_emoji t) as F.
      rewrite Forall_forall in F. exact (F c H).
    + pose proof (re_sub_chr_removes Backend.is_symbol y1) as F.
      rewrite Forall_forall in F. exact (F c H).
Qed.


Lemma ms_cat_chr (q : cp -> bool) (R : regex) (prev : option cp) (c : cp)
  (t : str) :
  q c = true ->
  ms (Cat (Chr q) R) prev (c :: t)
  = map (fun y : cand => (c :: fst y, snd y)) (ms R (Some c) t).
Proof.
  intros H. simpl. rewrite H. simpl. rewrite app_nil_r.
  apply map_ext. intros [m g]. simpl. now destruct g.
Qed.

Lemma ms_cat_chr_fail (q : cp -> bool) (R : regex) (prev : option cp)
  (c : cp) (t : str) :
  q c = false -> ms (Cat (Chr q) R) prev (c :: t) = [].
Proof. intros H. simpl. now rewrite H. Qed.

Lemma flat_map_map {A B C} (f : B -> list C) (g : A -> B) (l : list A) :
  flat_map f (map g l) = flat_map (fun x => f (g x)) l.
Proof.
  induction l as [|a l IH]; [reflexivity|]. simpl. now rewrite IH.
Qed.

Lemma ms_group_lazy (p : cp -> bool) (K : regex) (prev : option cp) (t : str) :
  ms (Cat (Group (StarLazy p)) K) prev t
  = flat_map (group_then K [] prev t) (inits (span p t)).
Proof. simpl. rewrite map_map, flat_map_map. reflexivity. Qed.

Lemma ms_group_plus (p : cp -> bool) (K : regex) (prev : option cp) (t : str) :
  ms (Cat (Group (Plus p)) K) prev t
  = flat_map (group_then K [] prev t) (rev (tl (inits (span p t)))).
Proof. simpl. rewrite map_map, flat_map_map. reflexivity. Qed.

Lemma group_then_cons (K : regex) (pre : str) (prev : option cp) (c : cp)
  (t m : str) :
  group_then K pre prev (c :: t) (c :: m)
  = group_then K (pre ++ [c]) (Some c) t m.
Proof.
  unfold group_then. rewrite last_of_cons. simpl skipn.
  rewrite <- app_assoc. reflexivity.
Qed.

Lemma inits_cons (s : str) : inits s = [] :: tl (inits s).
Proof. destruct s; reflexivity. Qed.

(** A lazy group stops at the first place where the rest of the pattern
    matches: here after [w], no character of which can start the rest. *)
Lemma lazy_first (p q : cp -> bool) (K : regex) (tail k : str)
  (alts : list cand) :
  forall w pre prev,
    Forall (fun c => p c = true) w ->
    Forall (fun c => q c = false) w ->
    ms (Cat (Chr q) K) (last_of w prev) tail = (k, None) :: alts ->
    exists alts',
      flat_map (group_then (Cat (Chr q) K) pre prev (w ++ tail))
               (inits (span p (w ++ tail)))
      = ((pre ++ w) ++ k, Some (pre ++ w)) :: alts'.
Proof.
  induction w as [|c w IH]; intros pre prev Hp Hq E.
  - rewrite app_nil_l, inits_cons. cbn [flat_map].
    unfold group_then at 1. cbn [length skipn].
    change (last_of [] prev) with prev in E |- *. rewrite E.
    cbn [map fst snd app]. eexists. reflexivity.
  - inversion Hp as [|? ? Hpc Hpw]; subst.
    inversion Hq as [|? ? Hqc Hqw]; subst.
    rewrite last_of_cons in E.
    destruct (IH (pre ++ [c]) (Some c) Hpw Hqw E) as (alts' & IH').
    cbn [app span]. rewrite Hpc. cbn [inits flat_map].
    unfold group_then at 1. cbn [length skipn].
    change (last_of [] prev) with prev.
    rewrite (ms_cat_chr_fail q K prev c _ Hqc). cbn [map app].
    rewrite flat_map_map.
    rewrite (flat_map_ext
               (fun m => group_then (Cat (Chr q) K) pre prev
                           (c :: w ++ tail) (c :: m))
               (group_then (Cat (Chr q) K) (pre ++ [c]) (Some c) (w ++ tail))
               (fun m => group_then_cons _ pre prev c _ m)).
    exists alts'. rewrite <- (app_assoc pre [c] w) in IH'. exact IH'.
Qed.

Lemma span_stop (p : cp -> bool) (w tail : str) :
  Forall (fun c => p c = true) w ->
  opt_test p (hd_error tail) = false ->
  span p (w ++ tail) = w.
Proof.
  intros Hw Ht. induction Hw as [|c w Hc _ IH].
  - destruct tail as [|a tail]; [reflexivity|]. simpl in *. now rewrite Ht.
  - simpl. now rewrite Hc, IH.
Qed.

(** A match that takes the whole text is the only step of the scan. *)
Lemma scan_whole (r : regex) (prev : option cp) (m : str) (g : option str)
  (alts : list cand) :
  m <> [] ->
  ms r prev m = (m, g) :: alts ->
  (forall prev', ms r prev' [] = []) ->
  scan r prev m O = [Hit m g].
Proof.
  intros Hm E Hnil. destruct m as [|c m]; [contradiction|].
  simpl. rewrite E. f_equal.
  pose proof (scan_skip r m [] (Some c)) as H. rewrite app_nil_r in H.
  rewrite H. simpl. now rewrite Hnil.
Qed.

Lemma unmarked_classes (w : str) :
  unmarked w = true ->
  Forall (fun c => N.eqb asterisk c = false) w
  /\ Forall (fun c => N.eqb underscore c = false) w
  /\ Forall (fun c => N.eqb backtick c = false) w
  /\ Forall (fun c => dot c = true) w.
Proof.
  unfold unmarked. intros H. rewrite forallb_forall in H.
  repeat split; apply Forall_forall; intros c Hc; apply H in Hc;
    unfold one_of in Hc; simpl in Hc; rewrite orb_false_r in Hc;
    apply negb_true_iff in Hc;
    repeat (apply orb_false_elim in Hc; destruct Hc as [? Hc]);
    unfold dot; rewrite 1?negb_true_iff;
    first [assumption | rewrite N.eqb_sym; assumption].
Qed.

Lemma strip_bold_wrapped (w : str) :
  unmarked w = true ->
  strip_bold (u "**" ++ w ++ u "**") = w.
Proof.
  intros H. apply unmarked_classes in H. destruct H as (Ha & _ & _ & Hd).
  change (u "**") with [asterisk; asterisk]. cbn [app].
  unfold strip_bold, bold, re_sub. cbn [seq].
  destruct (lazy_first dot (N.eqb asterisk) (Cat (Chr (N.eqb asterisk)) Eps)
              [asterisk; asterisk] [asterisk; asterisk] []
              w [] (Some asterisk) Hd Ha eq_refl) as (alts & E).
  rewrite (scan_whole _ None _ (Some w)
             (map (fun y : cand => (asterisk :: fst y, snd y))
                (map (fun y : cand => (asterisk :: fst y, snd y)) alts))).
  - simpl. apply app_nil_r.
  - discriminate.
  - rewrite (ms_cat_chr _ _ _ _ _ (N.eqb_refl asterisk)).
    rewrite (ms_cat_chr _ _ _ _ _ (N.eqb_refl asterisk)).
    rewrite ms_group_lazy, E. reflexivity.
  - reflexivity.
Qed.

Lemma strip_italic_wrapped (w : str) :
  unmarked w = true ->
  strip_italic (u "*" ++ w ++ u "*") = w.
Proof.
  intros H. apply unmarked_classes in H. destruct H as (Ha & _ & _ & Hd).
  change (u "*") with [asterisk]. cbn [app].
  unfold strip_italic, italic, re_sub. cbn [seq].
  destruct (lazy_first dot (N.eqb asterisk) Eps
              [asterisk] [asterisk] []
              w [] (Some asterisk) Hd Ha eq_refl) as (alts & E).
  rewrite (scan_whole _ None _ (Some w)
             (map (fun y : cand => (asterisk :: fst y, snd y)) alts)).
  - simpl. apply app_nil_r.
  - discriminate.
  - rewrite (ms_cat_chr _ _ _ _ _ (N.eqb_refl asterisk)).
    rewrite ms_group_lazy, E. reflexivity.
  - reflexivity.
Qed.

Lemma strip_backticks_wrapped (w : str) :
  unmarked w = true ->
  Backend.strip_backticks (u "`" ++ w ++ u "`") = w.
Proof.
  intros H. apply unmarked_classes in H. destruct H as (_ & _ & Hb & Hd).
  change (u "`") with [backtick]. cbn [app].
  unfold Backend.strip_backticks, Backend.backticks, re_sub. cbn [seq].
  destruct (lazy_first dot (N.eqb backtick) Eps
              [backtick] [backtick] []
              w [] (Some backtick) Hd Hb eq_refl) as (alts & E).
  rewrite (scan_whole _ None _ (Some w)
             (map (fun y : cand => (backtick :: fst y, snd y)) alts)).
  - simpl. apply app_nil_r.
  - discriminate.
  - rewrite (ms_cat_chr _ _ _ _ _ (N.eqb_refl backtick)).
    rewrite ms_group_lazy, E. reflexivity.
  - reflexivity.
Qed.


Lemma strip_underscores_wrapped (w : str) :
  unmarked w = true -> w <> [] ->
  strip_underscores (u "_" ++ w ++ u "_") = w.
Proof.
  intros H Hw. apply unmarked_classes in H. destruct H as (_ & Hu & _ & _).
  assert (Hn : Forall (fun c => negb (c =? underscore) = true) w).
  { eapply Forall_impl; [|exact Hu]. intros c Hc. cbv beta in Hc.
    now rewrite N.eqb_sym, Hc. }
  change (u "_") with [underscore]. cbn [app].
  unfold strip_underscores, underscores, re_sub. cbn [seq].
  assert (E : exists alts,
             ms (Cat (Group (Plus (fun c => negb (c =? underscore))))
                   (Cat (Chr (N.eqb underscore)) Eps))
                (Some underscore) (w ++ [underscore])
             = (w ++ [underscore], Some w) :: alts).
  { pose proof (span_stop (fun c => negb (c =? underscore)) w [underscore]
                  Hn eq_refl) as Es.
    destruct w as [|c w']; [contradiction|].
    destruct (inits_last w') as (pre & Ei).
    eexists. rewrite ms_group_plus, Es. cbn [inits tl]. rewrite Ei.
    rewrite map_app, rev_app_distr. cbn [map rev app flat_map].
    unfold group_then at 1. cbn [length skipn].
    rewrite skipn_app, skipn_all, Nat.sub_diag. cbn [skipn app].
    reflexivity. }
  destruct E as (alts & E).
  rewrite (scan_whole _ None _ (Some w)
             (map (fun y : cand => (underscore :: fst y, snd y)) alts)).
  - simpl. apply app_nil_r.
  - discriminate.
  - rewrite (ms_cat_chr _ _ _ _ _ (N.eqb_refl underscore)), E. reflexivity.
  - reflexivity.
Qed.

Lemma count_of_app (a : cp) (s t : str) :
  count_of a (s ++ t) = (count_of a s + count_of a t)%nat.
Proof. unfold count_of. now rewrite filter_app, length_app. Qed.

Lemma count_of_absent (a : cp) (w : str) :
  Forall (fun c => N.eqb a c = false) w -> count_of a w = O.
Proof.
  unfold count_of. induction 1 as [|c w Hc _ IH]; [reflexivity|].
  simpl. now rewrite Hc.
Qed.

Lemma count_of_one (a c : cp) : N.eqb a c = true -> count_of a [c] = 1%nat.
Proof. intros H. unfold count_of. cbn [filter]. now rewrite H. Qed.

(** A match of the bold pattern holds four asterisks at least. *)
Lemma bold_needs_four (prev : option cp) (t : str) (x : cand) :
  In x (ms (seq [Chr (N.eqb asterisk); Chr (N.eqb asterisk);
                 Group (StarLazy dot);
                 Chr (N.eqb asterisk); Chr (N.eqb asterisk)]) prev t) ->
  (4 <= count_of asterisk (fst x))%nat.
Proof.
  cbn [seq]. intros H.
  apply in_ms_cat in H. destruct H as (x1 & y1 & H1 & H & ->).
  apply in_ms_cat in H. destruct H as (x2 & y2 & H2 & H & ->).
  apply in_ms_cat in H. destruct H as (x3 & y3 & _ & H & ->).
  apply in_ms_cat in H. destruct H as (x4 & y4 & H4 & H & ->).
  apply in_ms_cat in H. destruct H as (x5 & y5 & H5 & _ & ->).
  apply in_ms_chr in H1. destruct H1 as (c1 & ? & _ & E1 & ->).
  apply in_ms_chr in H2. destruct H2 as (c2 & ? & _ & E2 & ->).
  apply in_ms_chr in H4. destruct H4 as (c4 & ? & _ & E4 & ->).
  apply in_ms_chr in H5. destruct H5 as (c5 & ? & _ & E5 & ->).
  rewrite !count_of_app.
  rewrite (count_of_one _ _ E1), (count_of_one _ _ E2),
    (count_of_one _ _ E4), (count_of_one _ _ E5). lia.
Qed.

(** With fewer than four asterisks there is no bold span to remove. *)
Lemma strip_bold_few (t : str) :
  (count_of asterisk t < 4)%nat -> strip_bold t = t.
Proof.
  unfold strip_bold, bold, re_sub.
  set (r := seq [Chr (N.eqb asterisk); Chr (N.eqb asterisk);
                 Group (StarLazy dot);
                 Chr (N.eqb asterisk); Chr (N.eqb asterisk)]).
  fold (written group1 (scan r None t O)).
  apply (scan_ind r (fun prev t ks =>
                       (count_of asterisk t < 4)%nat ->
                       written group1 ks = t)); [reflexivity | | | ].
  - reflexivity.
  - intros prev c t' _ IH H. simpl. f_equal. apply IH.
    change (c :: t') with ([c] ++ t') in H. rewrite count_of_app in H. lia.
  - intros prev m g alts rest _ E _ H. exfalso.
    assert (Hin : In (m, g) (ms r prev (m ++ rest))) by (rewrite E; now left).
    apply bold_needs_four in Hin. simpl in Hin.
    rewrite count_of_app in H. lia.
Qed.

Lemma strip_bold_absent (t : str) :
  Forall (fun c => N.eqb asterisk c = false) t -> strip_bold t = t.
Proof.
  intros H. apply (re_sub_absent _ (N.eqb asterisk)); [reflexivity | | exact H].
  apply needs_cat_l, needs_chr.
Qed.

Lemma strip_italic_absent (t : str) :
  Forall (fun c => N.eqb asterisk c = false) t -> strip_italic t = t.
Proof.
  intros H. apply (re_sub_absent _ (N.eqb asterisk)); [reflexivity | | exact H].
  apply needs_cat_l, needs_chr.
Qed.

Lemma strip_underscores_absent (t : str) :
  Forall (fun c => N.eqb underscore c = false) t -> strip_underscores t = t.
Proof.
  intros H.
  apply (re_sub_absent _ (N.eqb underscore)); [reflexivity | | exact H].
  apply needs_cat_l, needs_chr.
Qed.

(** X6. Emphasis around a whole text is taken off: for a text [w] without
    [*], [_], backtick and newline, the backend's sanitizer gives for
    [**w**], [*w*], [`w`] and, when [w] is not empty, [_w_] what it gives
    for [w]. *)
Theorem clean_text_unwraps (db : UnicodeDB) (w : str) :
  unmarked w = true ->
  Backend.clean_text_for_tts db (u "**" ++ w ++ u "**")
  = Backend.clean_text_for_tts db w
  /\ Backend.clean_text_for_tts db (u "*" ++ w ++ u "*")
     = Backend.clean_text_for_tts db w
  /\ Backend.clean_text_for_tts db (u "`" ++ w ++ u "`")
     = Backend.clean_text_for_tts db w
  /\ (w <> [] ->
      Backend.clean_text_for_tts db (u "_" ++ w ++ u "_")
      = Backend.clean_text_for_tts db w).
Proof.
  intros H. pose proof (unmarked_classes w H) as (Ha & Hu & Hb & Hd).
  pose proof (strip_bold_absent w Ha) as B.
  pose proof (strip_italic_absent w Ha) as I.
  pose proof (strip_underscores_absent w Hu) as U.
  assert (W : forall mark : cp,
             N.eqb asterisk mark = false ->
             Forall (fun c => N.eqb asterisk c = false)
                    ([mark] ++ w ++ [mark])).
  { intros mark Hm. apply Forall_app. split; [now repeat constructor|].
    apply Forall_app. split; [exact Ha | now repeat constructor]. }
  assert (K : Backend.strip_backticks w = w).
  { apply (re_sub_absent _ (N.eqb backtick)); [reflexivity | | exact Hb].
    apply needs_cat_l, needs_chr. }
  unfold Backend.clean_text_for_tts. rewrite B, I, U, K.
  split; [|split; [|split]].
  - now rewrite (strip_bold_wrapped w H), I, U, K.
  - rewrite strip_bold_few.
    + now rewrite (strip_italic_wrapped w H), U, K.
    + change (u "*") with [asterisk].
      rewrite !count_of_app, (count_of_absent _ _ Ha),
        (count_of_one asterisk asterisk eq_refl). lia.
  - change (u "`") with [backtick].
    rewrite (strip_bold_absent _ (W backtick eq_refl)).
    rewrite (strip_italic_absent _ (W backtick eq_refl)).
    rewrite strip_underscores_absent.
    + change [backtick] with (u "`").
      now rewrite (strip_backticks_wrapped w H).
    + apply Forall_app. split; [now repeat constructor|].
      apply Forall_app. split; [exact Hu | now repeat constructor].
  - intros Hw. change (u "_") with [underscore].
    rewrite (strip_bold_absent _ (W underscore eq_refl)).
    rewrite (strip_italic_absent _ (W underscore eq_refl)).
    change [underscore] with (u "_").
    now rewrite (strip_underscores_wrapped w H Hw), K.
Qed.

Lemma clean_text_unwraps_sample :
  Backend.clean_text_for_tts latin1 (u "**" ++ u "Olá, mundo" ++ u "**")
  = Backend.clean_text_for_tts latin1 (u "Olá, mundo")
  /\ Backend.clean_text_for_tts latin1 (u "_" ++ u "Olá, mundo" ++ u "_")
     = Backend.clean_text_for_tts latin1 (u "Olá, mundo").
Proof.
  destruct (clean_text_unwraps latin1 (u "Olá, mundo") eq_refl)
    as (B & _ & _ & U).
  split; [exact B | apply U; discriminate].
Defined.


(** ** The reply of a turn *)

Lemma aggregate_deltas (vs : list str) (buffer : str) :
  aggregate (map TextDelta vs) buffer = buffer ++ concat vs.
Proof.
  revert buffer. induction vs as [|v vs IH]; intros buffer; simpl.
  - now rewrite app_nil_r.
  - unfold aggregate in *. simpl. rewrite IH. now rewrite app_assoc.
Qed.

Lemma aggregate_app (evs1 evs2 : list stream_event) (buffer : str) :
  aggregate (evs1 ++ evs2) buffer = aggregate evs2 (aggregate evs1 buffer).
Proof. unfold aggregate. apply fold_left_app. Qed.

(** X7. The event handler gathers the reply in order: the chunks that
    come after the last [on_text_created] are concatenated, whatever the
    buffer held and whatever came before; without an [on_text_created]
    they are appended to what the buffer holds.  Nothing else changes. *)
Theorem reply_is_concatenation (vs : list str) (w : World Backend.Globals) :
  (forall before,
      Backend.deliver (before ++ TextCreated :: map TextDelta vs) w
      = (Ok tt,
         {| globals := Backend.set_full_response (concat vs) (globals w);
            trace := trace w |}))
  /\ Backend.deliver (map TextDelta vs) w
     = (Ok tt,
        {| globals :=
             Backend.set_full_response
               (Backend.full_response (globals w) ++ concat vs) (globals w);
           trace := trace w |}).
Proof.
  split; [intros before|]; rewrite backend_deliver; repeat f_equal.
  - change (TextCreated :: map TextDelta vs)
      with ([TextCreated] ++ map TextDelta vs).
    rewrite !aggregate_app, aggregate_deltas. reflexivity.
  - apply aggregate_deltas.
Qed.

(** ** A turn that succeeds *)

Lemma truthy_hd (s : str) :
  truthy s = true -> exists c, hd_error s = Some c.
Proof. destruct s as [|c s]; [discriminate|]. now exists c. Qed.

(** A sanitized reply that is not empty has a sentence. *)
Lemma clean_text_sentences (db : UnicodeDB) (x : str) :
  truthy (Backend.clean_text_for_tts db x) = true ->
  truthy (sentence_split (Backend.clean_text_for_tts db x)) = true.
Proof.
  unfold Backend.clean_text_for_tts, collapse_spaces.
  set (z := re_sub (Plus is_space) (const space) _). intros H.
  destruct (sentence_split (strip z)) as [|s l] eqn:E; [|reflexivity].
  exfalso. apply sentence_split_blank in E.
  destruct (truthy_hd _ H) as (c & Hc).
  pose proof (strip_head _ _ Hc) as Hs.
  destruct (strip z) as [|a y]; [discriminate|].
  simpl in Hc. injection Hc as ->. inversion E; subst. congruence.
Qed.

Lemma backend_process_success (db : UnicodeDB) (env : Env) (heard : str)
  (w : World Backend.Globals) (audio : bytes) :
  Backend.ai_initialized_successfully (globals w) = true ->
  session_set (globals w) ->
  messages_create env = Ok tt ->
  snd (runs_stream env) = None ->
  truthy (Backend.clean_text_for_tts db
            (strip (aggregate (fst (runs_stream env)) []))) = true ->
  synthesize env (Backend.clean_text_for_tts db
                    (strip (aggregate (fst (runs_stream env)) [])))
  = Ok audio ->
  Backend.process_interaction_and_speak db env heard w
  = (Ok (Some audio,
         Some (map (detect_emotion db)
                 (sentence_split
                    (Backend.clean_text_for_tts db
                       (strip (aggregate (fst (runs_stream env)) [])))))),
     {| globals :=
          Backend.set_full_response (aggregate (fst (runs_stream env)) [])
            (globals w);
        trace := trace w ++ [(MessagesCreate, false); (RunsStream, false);
                             (EdgeTTS, false)] |}).
Proof.
  intros Hflag (Hc & _ & Ha & Ht) Hm Hr Htext Hsyn.
  unfold Backend.process_interaction_and_speak, bind, get.
  rewrite Hflag.
  destruct (Backend.client (globals w)); [|contradiction].
  destruct (Backend.assistant (globals w)); [|contradiction].
  destruct (Backend.thread (globals w)); [|contradiction].
  cbn [negb is_some orb].
  unfold modify, try_except, perform, Backend.run_assistant, bind.
  rewrite Hm, backend_deliver, Hr. unfold perform.
  cbn [globals trace Backend.full_response Backend.set_full_response].
  rewrite Htext.
  unfold Backend.text_to_speech_bytes, try_except, bind, perform.
  rewrite Hsyn. cbn [globals trace]. unfold ret.
  pose proof (clean_text_sentences db _ Htext) as Hsent.
  rewrite analyze_text_map, !map_map. cbn [snd].
  destruct (sentence_split _) as [|s l]; [discriminate|].
  cbn [map truthy negb andb]. rewrite <- !app_assoc.
  destruct w as [g tr]. destruct g. reflexivity.
Qed.


(** X8. A turn that goes well, in a ready session: the request is heard,
    the message accepted, the run ends normally with a reply whose
    sanitized text is not empty, and the synthesis returns audio.  The
    endpoint answers 200 with that audio, and the emotion header lists one
    code for each sentence of the sanitized text, in order. *)
Theorem successful_turn (db : UnicodeDB) (env : Env) (recording : bytes)
  (heard : str) (audio : bytes) (w : World Backend.Globals) :
  Backend.ai_initialized_successfully (globals w) = true ->
  session_set (globals w) ->
  transcribe env recording = Ok heard ->
  strip heard <> [] ->
  messages_create env = Ok tt ->
  snd (runs_stream env) = None ->
  Backend.clean_text_for_tts db (strip (aggregate (fst (runs_stream env)) []))
  <> [] ->
  synthesize env (Backend.clean_text_for_tts db
                    (strip (aggregate (fst (runs_stream env)) [])))
  = Ok audio ->
  fst (Backend.interact_audio_endpoint db env (Some recording) w)
  = Ok {| status := 200; mimetype := "audio/mpeg"; content := Audio audio;
          emotion_codes_header :=
            Some (join_codes
                    (map (detect_emotion db)
                       (sentence_split
                          (Backend.clean_text_for_tts db
                             (strip (aggregate (fst (runs_stream env))
                                       [])))))) |}.
Proof.
  intros Hflag Hset Ht Hs Hm Hr Hclean Hsyn.
  assert (Htext : truthy (Backend.clean_text_for_tts db
                            (strip (aggregate (fst (runs_stream env)) [])))
                  = true).
  { destruct (Backend.clean_text_for_tts db _); [contradiction|reflexivity]. }
  unfold Backend.interact_audio_endpoint, bind, get, try_except.
  rewrite Hflag. destruct Hset as (Hc & Hset).
  destruct (Backend.client (globals w)) as [c|] eqn:Ec; [|contradiction].
  cbn [negb is_some orb]. unfold attr, bind, ret, perform. rewrite Ht.
  destruct (strip heard) as [|a l] eqn:Es; [contradiction|].
  cbn [truthy negb].
  rewrite (backend_process_success db env (a :: l) _ audio);
    try assumption.
  - cbn [fst snd]. pose proof (clean_text_sentences db _ Htext) as Hsent.
    destruct (sentence_split _) as [|s ss]; [discriminate|]. reflexivity.
  - unfold session_set. cbn [globals]. rewrite Ec.
    split; [discriminate | exact Hset].
Qed.

Lemma successful_turn_sample :
  fst (Backend.interact_audio_endpoint latin1
         (sample_env (u "Olá") (u "**Que dia feliz!** Adeus. Que pena."))
         (Some []) backend_ready)
  = Ok {| status := 200; mimetype := "audio/mpeg";
          content := Audio (u "Que dia feliz! Adeus. Que pena.");
          emotion_codes_header := Some "1,0,2"%string |}.
Proof.
  apply (successful_turn latin1
           (sample_env (u "Olá") (u "**Que dia feliz!** Adeus. Que pena."))
           [] (u "Olá") (u "Que dia feliz! Adeus. Que pena.") backend_ready);
    try reflexivity; try (vm_compute; discriminate).
  repeat split; discriminate.
Defined.

Lemma backend_process_audio (db : UnicodeDB) (env : Env) (heard : str)
  (w w' : World Backend.Globals) (audio : bytes) (codes : option (list Z)) :
  Backend.process_interaction_and_speak db env heard w
  = (Ok (Some audio, codes), w') ->
  synthesize env (Backend.clean_text_for_tts db
                    (strip (Backend.full_response (globals w'))))
  = Ok audio.
Proof.
  unfold Backend.process_interaction_and_speak, bind, get.
  destruct (_ || _); [discriminate|].
  unfold modify, try_except, perform, Backend.run_assistant, bind.
  destruct (messages_create env); [|discriminate].
  rewrite backend_deliver. cbn [globals trace].
  destruct (snd (runs_stream env)); [discriminate|].
  unfold perform.
  cbn [globals trace Backend.full_response Backend.set_full_response].
  set (reply := Backend.clean_text_for_tts db _).
  destruct (truthy reply); [|discriminate].
  unfold Backend.text_to_speech_bytes, try_except, bind, perform.
  destruct (synthesize env reply) as [b|e] eqn:E; cbn [ret];
    [|discriminate].
  unfold ret.
  match goal with
  | |- (Ok (_, ?cs), _) = _ -> _ => generalize cs; intros ocs
  end.
  intros H. injection H as <- _ <-. exact E.
Qed.

(** X9. The backend's interaction endpoint never sends audio with a
    failure: a response that carries audio bytes has status 200, and the
    bytes are what the synthesis returned for the sanitized text of the
    reply gathered in this turn. *)
Theorem audio_only_on_success (db : UnicodeDB) (env : Env)
  (file : option bytes) (w w' : World Backend.Globals) (resp : Response)
  (audio : bytes) :
  Backend.interact_audio_endpoint db env file w = (Ok resp, w') ->
  content resp = Audio audio ->
  status resp = 200%Z
  /\ synthesize env (Backend.clean_text_for_tts db
                       (strip (Backend.full_response (globals w'))))
     = Ok audio.
Proof.
  unfold Backend.interact_audio_endpoint, bind, get.
  destruct (_ || _).
  { intros H. injection H as <- _. discriminate. }
  destruct file as [recording|].
  2:{ intros H. injection H as <- _. discriminate. }
  unfold try_except, bind, attr.
  destruct (Backend.client (globals w)) as [c|].
  2:{ intros H. injection H as <- _. discriminate. }
  unfold ret at 1. unfold perform.
  destruct (transcribe env recording) as [text|e].
  2:{ intros H. injection H as <- _. discriminate. }
  destruct (truthy (strip text)); cbn [negb].
  2:{ intros H. injection H as <- _. discriminate. }
  match goal with
  | |- context [Backend.process_interaction_and_speak db env ?t ?w1] =>
      pose proof (backend_process_audio db env t w1) as Hp;
      destruct (backend_process_codes db env t w1) as (r & w2 & E & _);
      rewrite E in *
  end.
  destruct r as [[b|] codes]; cbn [fst snd].
  - intros H. injection H as <- <-. cbn [content status]. intros Hb.
    injection Hb as <-. split; [reflexivity|]. exact (Hp w2 b codes eq_refl).
  - intros H. injection H as <- _. discriminate.
Qed.

Lemma audio_only_on_success_sample :
  200%Z = 200%Z
  /\ synthesize (sample_env (u "Olá") (u "Adeus."))
       (Backend.clean_text_for_tts latin1 (strip (u "Adeus.")))
     = Ok (u "Adeus.").
Proof.
  apply (audio_only_on_success latin1 (sample_env (u "Olá") (u "Adeus."))
           (Some []) backend_ready
           (snd (Backend.interact_audio_endpoint latin1
                   (sample_env (u "Olá") (u "Adeus.")) (Some [])
                   backend_ready))
           {| status := 200; mimetype := "audio/mpeg";
              content := Audio (u "Adeus.");
              emotion_codes_header := Some "0"%string |}
           (u "Adeus."));
    vm_compute; reflexivity.
Defined.


(** ** The endpoints as a whole *)






(** X11. A request to [POST /interact_audio], failed or not, leaves the
    session as it is: client, vector store, assistant, thread and the
    initialization flag are unchanged (only the reply buffer can differ). *)
Theorem interaction_keeps_session (db : UnicodeDB) (env : Env)
  (file : option bytes) (w w' : World Backend.Globals)
  (r : result Response) :
  Backend.interact_audio_endpoint db env file w = (r, w') ->
  Backend.client (globals w') = Backend.client (globals w)
  /\ Backend.vector_store (globals w') = Backend.vector_store (globals w)
  /\ Backend.assistant (globals w') = Backend.assistant (globals w)
  /\ Backend.thread (globals w') = Backend.thread (globals w)
  /\ Backend.ai_initialized_successfully (globals w')
     = Backend.ai_initialized_successfully (globals w).
Proof.
  intros H. pose proof (interact_endpoint_same_session db env file w) as S.
  rewrite H in S. exact S.
Qed.

Lemma interaction_keeps_session_sample :
  Backend.client
    (globals (snd (Backend.interact_audio_endpoint latin1
                     (sample_env (u "Olá") (u "Adeus.")) (Some [])
                     backend_ready)))
  = Backend.client (globals backend_ready).
Proof.
  apply (interaction_keeps_session latin1 (sample_env (u "Olá") (u "Adeus."))
           (Some []) backend_ready _
           (fst (Backend.interact_audio_endpoint latin1
                   (sample_env (u "Olá") (u "Adeus.")) (Some [])
                   backend_ready))).
  apply surjective_pairing.
Defined.

Lemma serve_keeps_inv (db : UnicodeDB) (r : Env * request)
  (w : World Backend.Globals) :
  session_inv (globals w) -> session_inv (globals (serve db r w)).
Proof.
  unfold serve. destruct (snd r) as [data|file].
  - apply initialize_endpoint_keeps_inv.
  - apply interact_endpoint_keeps_inv.
Qed.

(** X12. From the start of the process on, whatever requests the backend
    server has served and whatever the outside calls did, the session is
    whole or absent: either the flag is set and client, vector store,
    assistant and thread are all set, or the flag is clear and all four
    are [None]. *)
Theorem session_whole_or_absent (db : UnicodeDB) (rs : list (Env * request)) :
  session_inv (globals (serve_all db rs backend_start)).
Proof.
  unfold serve_all.
  assert (H : forall w, session_inv (globals w) ->
                session_inv (globals (fold_left (fun w r => serve db r w)
                                        rs w))).
  { induction rs as [|r rs IH]; intros w Hw; [exact Hw|].
    simpl. apply IH. now apply serve_keeps_inv. }
  apply H. right. repeat split.
Qed.


(** X13. Requests that the backend server refuses up front make no
    outside call and change nothing: [POST /interact_audio] before a
    successful initialization is answered 403, with or without a file;
    in a ready session without a file it is answered 400; [POST
    /initialize_ai], when not yet initialized, is answered 400 when
    [get_json()] returns a value that is false ([null], [{}], ...) or an
    object without ["api_key"], and 400 when the key is a string that is
    blank; when [get_json()] raises, as it does for a body that is not
    JSON, its error leaves the view. *)
Theorem refused_up_front (db : UnicodeDB) (env : Env)
  (w : World Backend.Globals) :
  (Backend.ai_initialized_successfully (globals w) = false
   \/ Backend.client (globals w) = None ->
   forall file,
     Backend.interact_audio_endpoint db env file w
     = (Ok (jsonify "error"
              "AI not initialized. Send API key to /initialize_ai first."
              403), w))
  /\ (Backend.ai_initialized_successfully (globals w) = true ->
      Backend.client (globals w) <> None ->
      Backend.interact_audio_endpoint db env None w
      = (Ok (jsonify "error" "No audio file provided" 400), w))
  /\ (Backend.ai_initialized_successfully (globals w) = false
      \/ Backend.client (globals w) = None ->
      (forall data,
          py_bool data = false ->
          Backend.initialize_ai_endpoint env (Ok data) w
          = (Ok (jsonify "error" "API key not provided" 400), w))
      /\ (forall items,
             lookup (u "api_key") items = None ->
             Backend.initialize_ai_endpoint env (Ok (PyDict items)) w
             = (Ok (jsonify "error" "API key not provided" 400), w))
      /\ (forall items api_key,
             lookup (u "api_key") items = Some (PyStr api_key) ->
             strip api_key = [] ->
             Backend.initialize_ai_endpoint env (Ok (PyDict items)) w
             = (Ok (jsonify "error" "Empty API key received" 400), w))
      /\ (forall e,
             Backend.initialize_ai_endpoint env (Raise e) w = (Raise e, w))).
Proof.
  split; [|split].
  - intros H file. unfold Backend.interact_audio_endpoint, bind, get.
    destruct H as [-> | ->]; [reflexivity|].
    now destruct (Backend.ai_initialized_successfully (globals w)).
  - intros Hf Hc. unfold Backend.interact_audio_endpoint, bind, get.
    rewrite Hf. destruct (Backend.client (globals w)); [reflexivity|].
    contradiction.
  - intros H.
    assert (G : Backend.ai_initialized_successfully (globals w)
                && is_some (Backend.client (globals w)) = false).
    { destruct H as [-> | ->]; [reflexivity | apply andb_false_r]. }
    split; [|split; [|split]].
    + intros data Hb. rewrite (initialize_endpoint_steps env _ w G), Hb.
      reflexivity.
    + intros items Hl. rewrite (initialize_endpoint_steps env _ w G).
      unfold key_in. rewrite Hl. now destruct (py_bool (PyDict items)).
    + intros items api_key Hl Hs.
      rewrite (initialize_endpoint_steps env _ w G).
      unfold key_in, item. rewrite Hl. cbn [is_some strip_method].
      rewrite Hs. cbn [truthy negb].
      destruct items as [|kv items]; [discriminate Hl | reflexivity].
    + intros e. exact (initialize_endpoint_steps env (Raise e) w G).
Qed.

Lemma refused_up_front_sample :
  Backend.interact_audio_endpoint latin1 (sample_env (u "Olá") (u "Adeus."))
    (Some []) backend_start
  = (Ok (jsonify "error"
           "AI not initialized. Send API key to /initialize_ai first." 403),
     backend_start)
  /\ Backend.interact_audio_endpoint latin1 (sample_env (u "Olá") (u "Adeus."))
       None backend_ready
     = (Ok (jsonify "error" "No audio file provided" 400), backend_ready)
  /\ Backend.initialize_ai_endpoint (sample_env [] [])
       (with_key (u "   ")) backend_start
     = (Ok (jsonify "error" "Empty API key received" 400), backend_start).
Proof.
  split; [|split].
  - apply (refused_up_front latin1 (sample_env (u "Olá") (u "Adeus."))
             backend_start). now left.
  - apply (refused_up_front latin1 (sample_env (u "Olá") (u "Adeus."))
             backend_ready); [reflexivity | discriminate].
  - apply (refused_up_front latin1 (sample_env [] []) backend_start)
      with (api_key := u "   "); [now left | reflexivity | reflexivity].
Defined.

(** X14. What [POST /initialize_ai] answers tells the state it leaves.
    Started without a session and with a key that is not blank, it answers
    either 200, and then the flag is set and client, vector store,
    assistant and thread are all set, or 500, and then the flag is clear
    and all four are [None]. *)
Theorem initialize_answer_tells_state (env : Env)
  (items : list (str * pyvalue)) (api_key : str)
  (w w' : World Backend.Globals) (resp : Response) :
  Backend.ai_initialized_successfully (globals w) = false ->
  session_empty (globals w) ->
  lookup (u "api_key") items = Some (PyStr api_key) ->
  strip api_key <> [] ->
  Backend.initialize_ai_endpoint env (Ok (PyDict items)) w = (Ok resp, w') ->
  (resp = jsonify "message" "AI initialized successfully" 200
   /\ Backend.ai_initialized_successfully (globals w') = true
   /\ session_set (globals w'))
  \/ (resp = jsonify "error" "AI initialization failed on server" 500
      /\ Backend.ai_initialized_successfully (globals w') = false
      /\ session_empty (globals w')).
Proof.
  intros Hf He Hl Hk.
  assert (G : ready (globals w) = false) by (unfold ready; now rewrite Hf).
  rewrite (initialize_endpoint_steps env _ w G).
  unfold key_in, item. rewrite Hl. cbn [is_some strip_method].
  destruct items as [|kv items']; [discriminate Hl|]. cbn [py_bool truthy negb].
  destruct (strip api_key) as [|a l] eqn:Es; [contradiction|].
  cbn [truthy negb]. clear Hk. unfold bind at 1.
  unfold Backend.initialize_ai_components.
  destruct (truthy api_key); cbn [negb].
  2:{ cbn. intros H. injection H as <- <-. right. cbn.
      split; [reflexivity|]. split; [reflexivity | exact He]. }
  unfold try_except, bind, perform, modify, ret. cbn [globals trace].
  destruct (new_client env api_key) as [new|e].
  2:{ cbn. intros H. injection H as <- <-. right. cbn. repeat split. }
  destruct (models_list env) as [[]|e]; cbn [negb globals trace].
  2:{ destruct He as (_ & Hv & Ha & Ht). cbn.
      intros H. injection H as <- <-. right. cbn. repeat split; assumption. }
  match goal with
  | |- context [Backend.resolve_vector_store env ?w2] =>
      destruct (backend_resolve_vector_store env w2) as (new1 & T1 & S1);
      destruct (Backend.resolve_vector_store env w2) as [r1 w3]
  end.
  cbn [fst snd globals trace] in T1, S1.
  destruct r1 as [[]|e].
  2:{ cbn. intros H. injection H as <- <-. right. cbn. repeat split. }
  destruct S1 as (_ & vs & G1).
  destruct (backend_resolve_assistant env w3) as (new2 & _ & S2).
  destruct (Backend.resolve_assistant env w3) as [r2 w4].
  cbn [fst snd] in S2.
  destruct r2 as [[]|e].
  2:{ cbn. intros H. injection H as <- <-. right. cbn. repeat split. }
  destruct S2 as (_ & a0 & G2).
  destruct (threads_create env) as [th|e].
  2:{ cbn. intros H. injection H as <- <-. right. cbn. repeat split. }
  cbn. intros H. injection H as <- <-. left. cbn. rewrite G2, G1. cbn.
  repeat split; discriminate.
Qed.

Lemma initialize_answer_tells_state_sample :
  (jsonify "error" "AI initialization failed on server" 500
   = jsonify "message" "AI initialized successfully" 200
   /\ Backend.ai_initialized_successfully
        (globals (snd (Backend.initialize_ai_endpoint assistants_fail
                         (with_key (u "sk-test")) backend_start))) = true
   /\ session_set
        (globals (snd (Backend.initialize_ai_endpoint assistants_fail
                         (with_key (u "sk-test")) backend_start))))
  \/ (jsonify "error" "AI initialization failed on server" 500
      = jsonify "error" "AI initialization failed on server" 500
      /\ Backend.ai_initialized_successfully
           (globals (snd (Backend.initialize_ai_endpoint assistants_fail
                            (with_key (u "sk-test")) backend_start)))
         = false
      /\ session_empty
           (globals (snd (Backend.initialize_ai_endpoint assistants_fail
                            (with_key (u "sk-test")) backend_start)))).
Proof.
  apply (initialize_answer_tells_state assistants_fail
           [(u "api_key", PyStr (u "sk-test"))] (u "sk-test") backend_start).
  - reflexivity.
  - repeat split.
  - reflexivity.
  - vm_compute. discriminate.
  - vm_compute. reflexivity.
Defined.


(** ** What initialization builds *)

(** X15. When [initialize_ai_components] returns [True], whatever the
    globals held before: the key was accepted, the client is the one just
    built from the key, the thread is the one just created (a thread
    there was before is not kept), and vector store and assistant are
    set. *)
Theorem initialize_success_components (env : Env) (api_key : str)
  (w w' : World Backend.Globals) :
  Backend.initialize_ai_components env api_key w = (Ok true, w') ->
  (exists c, new_client env api_key = Ok c
             /\ Backend.client (globals w') = Some c)
  /\ models_list env = Ok tt
  /\ (exists th, threads_create env = Ok th
                 /\ Backend.thread (globals w') = Some th)
  /\ Backend.vector_store (globals w') <> None
  /\ Backend.assistant (globals w') <> None.
Proof.
  unfold Backend.initialize_ai_components.
  destruct (truthy api_key); cbn [negb]; [|discriminate].
  unfold try_except, bind, perform, modify, ret. cbn [globals trace].
  destruct (new_client env api_key) as [new|e]; [|discriminate].
  destruct (models_list env) as [[]|e]; cbn [negb globals trace];
    [|discriminate].
  match goal with
  | |- context [Backend.resolve_vector_store env ?w2] =>
      destruct (backend_resolve_vector_store env w2) as (new1 & _ & S1);
      destruct (Backend.resolve_vector_store env w2) as [r1 w3]
  end.
  cbn [fst snd globals] in S1.
  destruct r1 as [[]|e]; [|discriminate].
  destruct S1 as (_ & vs & G1).
  destruct (backend_resolve_assistant env w3) as (new2 & _ & S2).
  destruct (Backend.resolve_assistant env w3) as [r2 w4].
  cbn [fst snd] in S2.
  destruct r2 as [[]|e]; [|discriminate].
  destruct S2 as (_ & a0 & G2).
  destruct (threads_create env) as [th|e]; [|discriminate].
  intros H. injection H as <-. cbn [globals]. rewrite G2, G1. cbn.
  split; [eexists; split; reflexivity|].
  split; [reflexivity|]. split; [eexists; split; reflexivity|].
  split; discriminate.
Qed.

Lemma initialize_success_components_sample :
  exists th,
    threads_create upload_fails = Ok th
    /\ Backend.thread
         (globals (snd (Backend.initialize_ai_components upload_fails
                          (u "sk-test") backend_ready))) = Some th.
Proof.
  apply (initialize_success_components upload_fails (u "sk-test")
           backend_ready
           (snd (Backend.initialize_ai_components upload_fails
                   (u "sk-test") backend_ready))).
  vm_compute. reflexivity.
Defined.

Lemma str_eqb_eq (a b : str) : str_eqb a b = true <-> a = b.
Proof.
  revert b. induction a as [|x a IH]; intros [|y b]; simpl;
    try (split; [discriminate | discriminate]); [tauto|].
  rewrite andb_true_iff, N.eqb_eq, IH. split.
  - now intros [-> ->].
  - intros H. now injection H.
Qed.

Lemma existsb_string (x : string) (l : list string) :
  existsb (String.eqb x) l = true <-> In x l.
Proof.
  rewrite existsb_exists. split.
  - intros (y & Hy & E). apply String.eqb_eq in E. now subst.
  - intros H. exists x. split; [exact H | apply String.eqb_refl].
Qed.

(** X16. The backend decides by two facts whether it patches an assistant
    it found: it calls [assistants.update] exactly when the instructions,
    stripped, differ from the expected ones or the vector store in use is
    not among those the assistant is bound to (the third [elif] of the
    source never adds a case).  Either way the assistant found becomes the
    assistant of the session. *)
Theorem assistant_update_rule (env : Env) (w : World Backend.Globals)
  (assistants : list Assistant) (a : Assistant) (text : str)
  (vs : VectorStore) :
  assistants_list env = Ok assistants ->
  find (fun a => has_name assistant_name (a_name a)) assistants = Some a ->
  instructions a = Some text ->
  Backend.vector_store (globals w) = Some vs ->
  (strip text = strip instructions_text ->
   In (vs_id vs) (bound_vector_stores a) ->
   Backend.resolve_assistant env w
   = (Ok tt,
      {| globals := Backend.set_assistant (Some a) (globals w);
         trace := trace w ++ [(AssistantsList, false)] |}))
  /\ (strip text <> strip instructions_text
      \/ ~ In (vs_id vs) (bound_vector_stores a) ->
      Backend.resolve_assistant env w
      = (assistants_update env,
         {| globals := Backend.set_assistant (Some a) (globals w);
            trace := trace w ++ [(AssistantsList, false);
                                 (AssistantsUpdate,
                                  raised (assistants_update env))] |})).
Proof.
  intros Hl Hfind Hi Hv.
  unfold Backend.resolve_assistant, bind, perform, get, modify, attr, ret.
  rewrite Hl. cbn [globals trace]. rewrite Hfind, Hi, Hv.
  cbn [globals trace]. fold (bound_vector_stores a).
  split.
  - intros Et Hin. apply str_eqb_eq in Et. apply existsb_string in Hin.
    rewrite Et, Hin. cbn [negb].
    destruct (bound_vector_stores a); [discriminate Hin|].
    reflexivity.
  - intros H.
    assert (E : (if negb (existsb (String.eqb (vs_id vs))
                            (bound_vector_stores a))
                 then true
                 else if negb (truthy (bound_vector_stores a))
                         && truthy [vs_id vs]
                      then true
                      else negb (str_eqb (strip text)
                                   (strip instructions_text))) = true).
    { destruct (existsb (String.eqb (vs_id vs)) (bound_vector_stores a))
        eqn:Ex; [|reflexivity]. cbn [negb].
      destruct (negb (truthy (bound_vector_stores a)) && truthy [vs_id vs]);
        [reflexivity|].
      destruct H as [H|H].
      - destruct (str_eqb (strip text) (strip instructions_text)) eqn:Es;
          [|reflexivity]. apply str_eqb_eq in Es. contradiction.
      - apply existsb_string in Ex. contradiction. }
    rewrite E. cbn [globals trace]. rewrite <- app_assoc. reflexivity.
Qed.

Lemma assistant_update_rule_sample :
  Backend.resolve_assistant upstream_ready
    {| globals := Backend.set_vector_store (Some stored_vector_store)
                    Backend.initial;
       trace := [] |}
  = (Ok tt,
     {| globals :=
          Backend.set_assistant (Some stored_assistant)
            (Backend.set_vector_store (Some stored_vector_store)
               Backend.initial);
        trace := [(AssistantsList, false)] |}).
Proof.
  apply (assistant_update_rule upstream_ready
           {| globals := Backend.set_vector_store (Some stored_vector_store)
                           Backend.initial;
              trace := [] |}
           [stored_assistant] stored_assistant instructions_text
           stored_vector_store);
    try reflexivity.
  now left.
Defined.


Lemma str_eqb_refl (a : str) : str_eqb a a = true.
Proof. now apply str_eqb_eq. Qed.

(** X17. Initialization does not duplicate what exists upstream.  When a
    vector store with the expected name is listed and an assistant with
    the expected name is listed whose stripped instructions are the
    expected ones and which is bound to that vector store, then
    [initialize_ai_components] makes five outside calls and no other (it
    creates no vector store, uploads nothing, creates and updates no
    assistant), takes the first such store and assistant, creates the
    thread and returns [True]. *)
Theorem initialize_reuses_upstream (env : Env) (api_key : str)
  (w : World Backend.Globals) (c : Client) (stores : list VectorStore)
  (vs : VectorStore) (assistants : list Assistant) (a : Assistant)
  (text : str) (th : Thread) :
  api_key <> [] ->
  new_client env api_key = Ok c ->
  models_list env = Ok tt ->
  vector_stores_list env = Ok stores ->
  find (fun vs => has_name vector_store_name (vs_name vs)) stores = Some vs ->
  assistants_list env = Ok assistants ->
  find (fun a => has_name assistant_name (a_name a)) assistants = Some a ->
  instructions a = Some text ->
  strip text = strip instructions_text ->
  In (vs_id vs) (bound_vector_stores a) ->
  threads_create env = Ok th ->
  Backend.initialize_ai_components env api_key w
  = (Ok true,
     {| globals :=
          Backend.set_thread (Some th)
            (Backend.set_assistant (Some a)
               (Backend.set_vector_store (Some vs)
                  (Backend.set_client (Some c) (globals w))));
        trace := trace w ++ [(OpenAI_new, false); (ModelsList, false);
                             (VectorStoresList, false);
                             (AssistantsList, false);
                             (ThreadsCreate, false)] |}).
Proof.
  intros Hk Hc Hm Hs Hfs Ha Hfa Hi Et Hin Ht.
  unfold Backend.initialize_ai_components.
  destruct api_key as [|k0 key]; [contradiction|]. cbn [truthy negb].
  unfold try_except, bind, perform, modify, ret. cbn [globals trace].
  rewrite Hc, Hm. cbn [negb globals trace].
  unfold Backend.resolve_vector_store, bind, perform, modify.
  rewrite Hs. cbn [globals trace]. rewrite Hfs. cbn [globals trace].
  unfold Backend.resolve_assistant, bind, perform, get, modify, attr, ret.
  rewrite Ha. cbn [globals trace]. rewrite Hfa, Hi.
  cbn [globals trace Backend.vector_store Backend.set_vector_store].
  fold (bound_vector_stores a).
  apply str_eqb_eq in Et. apply existsb_string in Hin. rewrite Et, Hin.
  cbn [negb].
  destruct (bound_vector_stores a); [discriminate Hin|]. cbn [truthy negb andb].
  rewrite Ht. cbn [globals trace]. rewrite <- !app_assoc. reflexivity.
Qed.

Lemma initialize_reuses_upstream_sample :
  Backend.initialize_ai_components upstream_ready (u "sk-test") backend_start
  = (Ok true,
     {| globals :=
          Backend.set_thread (Some {| t_id := "thread_9" |})
            (Backend.set_assistant (Some stored_assistant)
               (Backend.set_vector_store (Some stored_vector_store)
                  (Backend.set_client (Some {| api_key_of := u "sk-test" |})
                     Backend.initial)));
        trace := [(OpenAI_new, false); (ModelsList, false);
                  (VectorStoresList, false); (AssistantsList, false);
                  (ThreadsCreate, false)] |}).
Proof.
  apply (initialize_reuses_upstream upstream_ready (u "sk-test") backend_start
           {| api_key_of := u "sk-test" |}
           [{| vs_id := "vs_1"; vs_name := None |}; stored_vector_store]
           stored_vector_store [stored_assistant] stored_assistant
           instructions_text {| t_id := "thread_9" |});
    try reflexivity.
  - discriminate.
  - now left.
Defined.


(** ** The outside calls of a turn *)

Ltac in_order :=
  split;
  [eexists; reflexivity
  |let c := fresh "c" in
   let H := fresh "H" in
   intros c H; cbn in H;
   repeat (destruct H as [H|H]; [discriminate H|]); contradiction].

Lemma calls_in_order_cons (c0 : call) (expected : list call)
  (new : list (call * bool)) :
  calls_in_order expected new ->
  calls_in_order (c0 :: expected) ((c0, false) :: new).
Proof.
  intros [(rest & E) H]. split.
  - exists rest. simpl. now rewrite E.
  - intros c Hc. destruct new as [|x new]; [exact Hc|].
    change (removelast ((c0, false) :: x :: new))
      with ((c0, false) :: removelast (x :: new)) in Hc.
    destruct Hc as [Hc|Hc]; [discriminate | exact (H c Hc)].
Qed.

Lemma backend_process_trace (db : UnicodeDB) (env : Env) (heard : str)
  (w : World Backend.Globals) :
  exists new,
    trace (snd (Backend.process_interaction_and_speak db env heard w))
    = trace w ++ new
    /\ calls_in_order [MessagesCreate; RunsStream; EdgeTTS] new.
Proof.
  unfold Backend.process_interaction_and_speak, bind, get.
  destruct (_ || _).
  { exists []. split; [symmetry; apply app_nil_r | in_order]. }
  unfold modify, try_except, perform, Backend.run_assistant, bind.
  destruct (messages_create env); [|trace_tail; in_order].
  rewrite backend_deliver. unfold perform. cbn [globals trace].
  destruct (snd (runs_stream env)); [trace_tail; in_order|].
  cbn [globals trace Backend.full_response Backend.set_full_response].
  set (reply := Backend.clean_text_for_tts db _).
  destruct (truthy reply); [|trace_tail; in_order].
  unfold Backend.text_to_speech_bytes, try_except, bind, perform.
  destruct (synthesize env reply); trace_tail; in_order.
Qed.

(** X18. The outside calls of one [POST /interact_audio], in the backend
    server: they are added to the trace in the order transcription,
    message, run, synthesis; the request may stop after any of them, but
    none is skipped or repeated, and a call is made only if those before
    it did not raise. *)
Theorem turn_calls_in_order (db : UnicodeDB) (env : Env)
  (file : option bytes) (w : World Backend.Globals) :
  exists new,
    trace (snd (Backend.interact_audio_endpoint db env file w))
    = trace w ++ new
    /\ calls_in_order [Transcribe; MessagesCreate; RunsStream; EdgeTTS] new.
Proof.
  unfold Backend.interact_audio_endpoint, bind, get.
  destruct (_ || _).
  { exists []. split; [symmetry; apply app_nil_r | in_order]. }
  destruct file as [recording|].
  2:{ exists []. split; [symmetry; apply app_nil_r | in_order]. }
  unfold try_except, bind, attr.
  destruct (Backend.client (globals w)) as [c|].
  2:{ exists []. split; [symmetry; apply app_nil_r | in_order]. }
  unfold ret at 1. unfold perform.
  destruct (transcribe env recording) as [text|e]; [|trace_tail; in_order].
  destruct (truthy (strip text)); cbn [negb]; [|trace_tail; in_order].
  match goal with
  | |- context [Backend.process_interaction_and_speak db env ?t ?w1] =>
      destruct (backend_process_trace db env t w1) as (new & T & O);
      destruct (backend_process_codes db env t w1) as (r & w2 & E & _);
      rewrite E in *
  end.
  cbn [snd trace] in T.
  exists ((Transcribe, false) :: new). split.
  - destruct (fst r); cbn [snd trace ret]; rewrite T, <- app_assoc;
      reflexivity.
  - now apply calls_in_order_cons.
Qed.


(** X19. How the backend server answers a turn that fails, in a ready
    session.  When the transcription raises, the answer is the JSON error
    that quotes the exception, status 500.  When the request is heard but
    the message or the run raises, or the synthesis of a non-empty
    sanitized reply raises, the answer is status 500 with an empty audio
    body and the emotion codes ["0"]. *)
Theorem failed_turn_answers (db : UnicodeDB) (env : Env) (recording : bytes)
  (w : World Backend.Globals) :
  Backend.ai_initialized_successfully (globals w) = true ->
  session_set (globals w) ->
  (forall e,
      transcribe env recording = Raise e ->
      Backend.interact_audio_endpoint db env (Some recording) w
      = (Ok (jsonify "error" ("Internal server error: " ++ e)%string 500),
         {| globals := globals w;
            trace := trace w ++ [(Transcribe, true)] |}))
  /\ (forall heard,
         transcribe env recording = Ok heard ->
         strip heard <> [] ->
         raised (messages_create env) = true
         \/ (messages_create env = Ok tt /\ snd (runs_stream env) <> None)
         \/ (messages_create env = Ok tt /\ snd (runs_stream env) = None
             /\ Backend.clean_text_for_tts db
                  (strip (aggregate (fst (runs_stream env)) [])) <> []
             /\ raised (synthesize env
                          (Backend.clean_text_for_tts db
                             (strip (aggregate (fst (runs_stream env)) []))))
                = true) ->
         fst (Backend.interact_audio_endpoint db env (Some recording) w)
         = Ok {| status := 500; mimetype := "audio/mpeg"; content := NoBody;
                 emotion_codes_header := Some (join_codes [0%Z]) |}).
Proof.
  intros Hflag (Hc & Hv & Ha & Ht). split.
  - intros e He. unfold Backend.interact_audio_endpoint, bind, get, try_except.
    rewrite Hflag.
    destruct (Backend.client (globals w)) as [c|]; [|contradiction].
    simpl. unfold perform. rewrite He. reflexivity.
  - intros heard Hh Hs H.
    unfold Backend.interact_audio_endpoint, bind, get, try_except.
    rewrite Hflag.
    destruct (Backend.client (globals w)) as [c|] eqn:Ec; [|contradiction].
    simpl. unfold perform. rewrite Hh.
    destruct (strip heard) as [|a l]; [contradiction|]. cbn [truthy negb].
    unfold Backend.process_interaction_and_speak, bind, get.
    cbn [globals]. rewrite Hflag, Ec.
    destruct (Backend.assistant (globals w)); [|contradiction].
    destruct (Backend.thread (globals w)); [|contradiction].
    cbn [negb is_some orb].
    unfold modify, try_except, perform, Backend.run_assistant, bind.
    destruct H as [H|[(Hm & Hr)|(Hm & Hr & Hclean & Hsyn)]].
    + destruct (messages_create env); [discriminate H | reflexivity].
    + rewrite Hm, backend_deliver.
      destruct (snd (runs_stream env)); [reflexivity | contradiction].
    + rewrite Hm, backend_deliver, Hr. unfold perform.
      cbn [globals trace Backend.full_response Backend.set_full_response].
      destruct (Backend.clean_text_for_tts db _) eqn:Et; [contradiction|].
      cbn [truthy].
      unfold Backend.text_to_speech_bytes, try_except, bind, perform.
      destruct (synthesize env _); [discriminate Hsyn | reflexivity].
Qed.

Lemma failed_turn_answers_sample :
  fst (Backend.interact_audio_endpoint latin1 run_fails (Some []) backend_ready)
  = Ok {| status := 500; mimetype := "audio/mpeg"; content := NoBody;
          emotion_codes_header := Some "0"%string |}.
Proof.
  apply (failed_turn_answers latin1 run_fails [] backend_ready eq_refl)
    with (heard := u "Olá").
  - repeat split; discriminate.
  - reflexivity.
  - vm_compute. discriminate.
  - right. left. split; [reflexivity | discriminate].
Defined.


(** ** The local program *)

Lemma local_deliver (evs : list stream_event) :
  forall w,
    Local.deliver evs w
    = (Ok tt,
       {| globals :=
            Local.set_full_response
              (aggregate evs (Local.full_response (globals w))) (globals w);
          trace := trace w |}).
Proof.
  induction evs as [|ev evs IH]; intros [g tr].
  - destruct g. reflexivity.
  - simpl Local.deliver. unfold bind.
    destruct ev as [|value]; simpl; rewrite IH; reflexivity.
Qed.

Ltac no_tts :=
  let H := fresh "H" in
  intros H; cbn in H;
  repeat (destruct H as [H|H]; [discriminate H|]); contradiction.

Lemma local_process_fails (db : UnicodeDB) (env : Env) (heard : str)
  (w : World Local.Globals) :
  fst (Local.process_interaction_and_speak db env heard w) = Ok (None, None)
  /\ exists new,
      trace (snd (Local.process_interaction_and_speak db env heard w))
      = trace w ++ new
      /\ ~ In EdgeTTS (map fst new).
Proof.
  unfold Local.process_interaction_and_speak, bind, get.
  destruct (_ || _).
  { split; [reflexivity|]. exists []. split; [symmetry; apply app_nil_r|].
    intros []. }
  unfold modify, try_except, perform, Local.run_assistant, bind.
  destruct (messages_create env);
    [|split; [reflexivity | trace_tail; no_tts]].
  rewrite local_deliver. unfold perform. cbn [globals trace].
  destruct (snd (runs_stream env));
    [split; [reflexivity | trace_tail; no_tts]|].
  unfold lift, Local.clean_text_for_tts, Local.strip_code.
  cbn [globals trace]. split; [reflexivity | trace_tail; no_tts].
Qed.

(** X20. In the local program no turn succeeds.  Its sanitizer raises on
    every text (the pattern of its fourth substitution does not compile),
    so [process_interaction_and_speak] always returns its error result:
    a request that is heard is answered with the JSON error, status 500,
    whatever the assistant replied; no response ever carries audio, and
    the synthesis is never called. *)
Theorem local_turn_never_succeeds (db : UnicodeDB) (env : Env)
  (w : World Local.Globals) :
  (forall file resp w' audio,
      Local.interact_audio_endpoint db env file w = (Ok resp, w') ->
      content resp <> Audio audio)
  /\ (forall file, exists new,
         trace (snd (Local.interact_audio_endpoint db env file w))
         = trace w ++ new
         /\ ~ In EdgeTTS (map fst new))
  /\ (forall recording heard,
         Local.api_key_set (globals w) = true ->
         Local.client (globals w) <> None ->
         transcribe env recording = Ok heard ->
         strip heard <> [] ->
         fst (Local.interact_audio_endpoint db env (Some recording) w)
         = Ok (jsonify "error"
                 "Error processing AI response or generating audio" 500)).
Proof.
  split; [|split].
  - intros file resp w' audio.
    unfold Local.interact_audio_endpoint, bind, get.
    destruct file as [recording|].
    2:{ intros H. injection H as <- _. discriminate. }
    destruct (negb _).
    { intros H. injection H as <- _. discriminate. }
    unfold try_except, bind, attr.
    destruct (Local.client (globals w)) as [c|].
    2:{ intros H. injection H as <- _. discriminate. }
    unfold ret at 1. unfold perform.
    destruct (transcribe env recording) as [text|e].
    2:{ intros H. injection H as <- _. discriminate. }
    destruct (truthy (strip text)); cbn [negb].
    2:{ intros H. injection H as <- _. discriminate. }
    match goal with
    | |- context [Local.process_interaction_and_speak db env ?t ?w1] =>
        destruct (local_process_fails db env t w1) as (E & _);
        destruct (Local.process_interaction_and_speak db env t w1)
          as [r w2]
    end.
    cbn [fst] in E. subst r. cbn [fst].
    intros H. injection H as <- _. discriminate.
  - intros file. unfold Local.interact_audio_endpoint, bind, get.
    destruct file as [recording|].
    2:{ exists []. split; [symmetry; apply app_nil_r | intros []]. }
    destruct (negb _).
    { exists []. split; [symmetry; apply app_nil_r | intros []]. }
    unfold try_except, bind, attr.
    destruct (Local.client (globals w)) as [c|].
    2:{ exists []. split; [symmetry; apply app_nil_r | intros []]. }
    unfold ret at 1. unfold perform.
    destruct (transcribe env recording) as [text|e]; [|trace_tail; no_tts].
    destruct (truthy (strip text)); cbn [negb]; [|trace_tail; no_tts].
    match goal with
    | |- context [Local.process_interaction_and_speak db env ?t ?w1] =>
        destruct (local_process_fails db env t w1) as (E & new & T & N);
        destruct (Local.process_interaction_and_speak db env t w1)
          as [r w2]
    end.
    cbn [fst snd trace] in E, T. subst r. cbn [fst snd trace ret].
    exists ((Transcribe, false) :: new). split.
    + rewrite T, <- app_assoc. reflexivity.
    + intros [H|H]; [discriminate | exact (N H)].
  - intros recording heard Hk Hc Hh Hs.
    unfold Local.interact_audio_endpoint, bind, get.
    rewrite Hk. cbn [negb]. unfold try_except, bind, attr.
    destruct (Local.client (globals w)) as [c|]; [|contradiction].
    unfold ret at 1. unfold perform. rewrite Hh.
    destruct (strip heard) as [|a l]; [contradiction|]. cbn [truthy negb].
    match goal with
    | |- context [Local.process_interaction_and_speak db env ?t ?w1] =>
        destruct (local_process_fails db env t w1) as (E & _);
        destruct (Local.process_interaction_and_speak db env t w1)
          as [r w2]
    end.
    cbn [fst] in E. subst r. reflexivity.
Qed.

Lemma local_turn_never_succeeds_sample :
  fst (Local.interact_audio_endpoint latin1
         (sample_env (u "Olá") (u "Que dia feliz!")) (Some []) local_ready)
  = Ok (jsonify "error" "Error processing AI response or generating audio"
          500).
Proof.
  apply (local_turn_never_succeeds latin1
           (sample_env (u "Olá") (u "Que dia feliz!")) local_ready)
    with (heard := u "Olá").
  - reflexivity.
  - discriminate.
  - reflexivity.
  - vm_compute. discriminate.
Defined.

(** X21. The local program without a usable key ([OPENAI_API_KEY] unset or
    empty): [initialize_ai_components] returns [False] and the endpoint
    answers a request that has a file with the JSON error, status 500;
    neither makes an outside call nor changes the globals.  The check for
    the file comes first: without a file the answer is 400, key or not. *)
Theorem local_without_usable_key (db : UnicodeDB) (env : Env)
  (w : World Local.Globals) :
  (Local.api_key_set (globals w) = false ->
   Local.initialize_ai_components env w = (Ok false, w)
   /\ forall recording,
       Local.interact_audio_endpoint db env (Some recording) w
       = (Ok (jsonify "error" "OpenAI API key not configured" 500), w))
  /\ Local.interact_audio_endpoint db env None w
     = (Ok (jsonify "error" "No audio file provided" 400), w).
Proof.
  split; [|reflexivity].
  intros H. unfold Local.api_key_set in H. split.
  - unfold Local.initialize_ai_components, bind, get.
    destruct (Local.OPENAI_API_KEY (globals w)) as [k|]; [|reflexivity].
    rewrite H. reflexivity.
  - intros recording. unfold Local.interact_audio_endpoint, bind, get.
    unfold Local.api_key_set. 
    destruct (Local.OPENAI_API_KEY (globals w)) as [k|]; [|reflexivity].
    rewrite H. reflexivity.
Qed.

Lemma local_without_usable_key_sample :
  Local.initialize_ai_components (sample_env [] []) local_without_key
  = (Ok false, local_without_key)
  /\ forall recording,
      Local.interact_audio_endpoint latin1 (sample_env [] [])
        (Some recording) local_without_key
      = (Ok (jsonify "error" "OpenAI API key not configured" 500),
         local_without_key).
Proof.
  apply (local_without_usable_key latin1 (sample_env [] [])
           local_without_key).
  reflexivity.
Defined.


Lemma local_resolve_vector_store (env : Env) (w : World Local.Globals) :
  (globals (snd (Local.resolve_vector_store env w)) = globals w
   \/ exists vs,
       globals (snd (Local.resolve_vector_store env w))
       = Local.set_vector_store (Some vs) (globals w))
  /\ (raised (fst (Local.resolve_vector_store env w)) = false ->
      exists vs,
        globals (snd (Local.resolve_vector_store env w))
        = Local.set_vector_store (Some vs) (globals w)).
Proof.
  unfold Local.resolve_vector_store, bind, perform, modify, ret.
  destruct (vector_stores_list env) as [stores|e];
    [|split; [now left | discriminate]].
  destruct (find _ stores) as [vs|].
  - split; [right|intros _]; now exists vs.
  - cbn [globals trace].
    destruct (vector_stores_create env) as [vs|e];
      [|split; [now left | discriminate]].
    destruct (path_exists env); cbn [globals trace].
    + destruct (open_file env) as [[]|e];
        [|split; [right; now exists vs | discriminate]].
      destruct (upload_and_poll env) as [st|e];
        (split; [right; now exists vs|]); [intros _; now exists vs|].
      discriminate.
    + split; [right|intros _]; now exists vs.
Qed.

Lemma local_resolve_assistant (env : Env) (w : World Local.Globals) :
  (globals (snd (Local.resolve_assistant env w)) = globals w
   \/ exists a,
       globals (snd (Local.resolve_assistant env w))
       = Local.set_assistant (Some a) (globals w))
  /\ (raised (fst (Local.resolve_assistant env w)) = false ->
      exists a,
        globals (snd (Local.resolve_assistant env w))
        = Local.set_assistant (Some a) (globals w)).
Proof.
  unfold Local.resolve_assistant, bind, perform, get, modify, attr, ret.
  destruct (assistants_list env) as [assistants|e];
    [|split; [now left | discriminate]].
  cbn [globals trace].
  destruct (find _ assistants) as [a|].
  - destruct (instructions a) as [text|];
      [|unfold raise; split; [right; now exists a | discriminate]].
    cbn [globals trace].
    match goal with
    | |- context [if ?b then _ else fun w => (Ok tt, w)] => destruct b
    end.
    + destruct (assistants_update env) as [[]|e];
        (split; [right; now exists a|]); [intros _; now exists a|].
      discriminate.
    + split; [right|intros _]; now exists a.
  - destruct (assistants_create env) as [a|e];
      [|split; [now left | discriminate]].
    split; [right|intros _]; now exists a.
Qed.

Ltac kept :=
  unfold local_kept; cbn; repeat split; intros; try discriminate; assumption.

(** X22. The local program's [initialize_ai_components] always returns, and
    it never clears anything: a component of the session that was set
    before is set afterwards, also when it returns [False] (its handler
    has no reset).  When it returns [True], client, vector store,
    assistant and thread are all set. *)
Theorem local_initialize_keeps (env : Env) (w : World Local.Globals) :
  exists ok w',
    Local.initialize_ai_components env w = (Ok ok, w')
    /\ local_kept (globals w) (globals w')
    /\ (ok = true ->
        Local.client (globals w') <> None
        /\ Local.vector_store (globals w') <> None
        /\ Local.assistant (globals w') <> None
        /\ Local.thread (globals w') <> None).
Proof.
  unfold Local.initialize_ai_components, bind, get.
  destruct (Local.OPENAI_API_KEY (globals w)) as [api_key|].
  2:{ do 2 eexists. split; [reflexivity|]. split; [kept | discriminate]. }
  destruct (truthy api_key); cbn [negb].
  2:{ do 2 eexists. split; [reflexivity|]. split; [kept | discriminate]. }
  unfold try_except, bind, perform, modify, ret. cbn [globals trace].
  destruct (new_client env api_key) as [new|e].
  2:{ do 2 eexists. split; [reflexivity|]. split; [kept | discriminate]. }
  match goal with
  | |- context [Local.resolve_vector_store env ?w2] =>
      destruct (local_resolve_vector_store env w2) as (K1 & S1);
      destruct (Local.resolve_vector_store env w2) as [r1 w3]
  end.
  cbn [fst snd globals] in K1, S1.
  destruct r1 as [[]|e].
  2:{ do 2 eexists. split; [reflexivity|]. split; [|discriminate].
      destruct K1 as [K1|(vs & K1)]; rewrite K1; kept. }
  destruct (S1 eq_refl) as (vs & G1). clear K1 S1.
  destruct (local_resolve_assistant env w3) as (K2 & S2).
  destruct (Local.resolve_assistant env w3) as [r2 w4].
  cbn [fst snd] in K2, S2.
  destruct r2 as [[]|e].
  2:{ do 2 eexists. split; [reflexivity|]. split; [|discriminate].
      destruct K2 as [K2|(a & K2)]; rewrite K2, G1; kept. }
  destruct (S2 eq_refl) as (a & G2). clear K2 S2.
  destruct (threads_create env) as [th|e].
  2:{ do 2 eexists. split; [reflexivity|]. split; [|discriminate].
      rewrite G2, G1. kept. }
  do 2 eexists. split; [reflexivity|]. cbn [globals]. rewrite G2, G1.
  split; [kept|]. intros _. cbn. repeat split; discriminate.
Qed.
